(** * CV / job-description batch matcher: the server, embedded and verified

    The development follows the provider-aware revision of [server.js]
    (provider detection, rate-limited outbound calls, cached model-based
    name extraction, clamped scores, ranked batch results). The scoring
    step of the revision before it is kept in [Legacy] for comparison.
    The single-match endpoint that the server keeps for compatibility is
    in [Single], the colouring of the page's results table in [Frontend].

    Conventions of the embedding:
    - a JavaScript string is a [string] (a sequence of 8-bit characters);
      the regular-expression classes [\s], [\d], [\w] are the ASCII ones;
    - a Number is a binary64 value, kept by the shortest decimal that
      denotes it; [JSON.parse] rounds a literal to the nearest value;
    - whatever is thrown is an [Error] object with a [message]; the text of
      the messages raised by the runtime itself is representative;
    - an [await] is sequential composition in a state-and-exception monad
      whose state holds the process-wide name cache and the log of calls
      made to the outside world; the outside world (PDF text extractor,
      model provider) is an oracle; requests are handled one at a time;
    - the request queue is a transition system driven by the event loop;
    - console output is left out. *)

From Stdlib Require Import ZArith NArith List Ascii String Bool Lia.
From Stdlib Require Import Sorting.Sorted Sorting.Permutation.
From Stdlib Require Import DecimalFacts DecimalPos DecimalN.
From stdpp Require Import gmap strings list.

#[local] Set Warnings "-register-all".

(** ** Characters and strings *)

Module Text.

Definition code (c : ascii) : N := N_of_ascii c.

Definition in_range (lo hi : N) (c : ascii) : bool :=
  ((lo <=? code c) && (code c <=? hi))%N.

Definition is_char (x c : ascii) : bool := Ascii.eqb x c.

Definition is_digit : ascii -> bool := in_range 48 57.
Definition is_upper : ascii -> bool := in_range 65 90.
Definition is_lower : ascii -> bool := in_range 97 122.
Definition is_alpha (c : ascii) : bool := is_upper c || is_lower c.
Definition is_alnum (c : ascii) : bool := is_alpha c || is_digit c.

(** [\s]: tab, line feed, vertical tab, form feed, carriage return, space. *)
Definition is_space (c : ascii) : bool :=
  in_range 9 13 c || (code c =? 32)%N.

(** [\w] *)
Definition is_word (c : ascii) : bool := is_alnum c || is_char "_" c.

Definition one_of (s : string) (c : ascii) : bool :=
  existsb (fun x => is_char x c) (list_ascii_of_string s).

Definition lower_char (c : ascii) : ascii :=
  if is_upper c then ascii_of_N (code c + 32) else c.

Definition upper_char (c : ascii) : ascii :=
  if is_lower c then ascii_of_N (code c - 32) else c.

Definition chars : string -> list ascii := list_ascii_of_string.
Definition str : list ascii -> string := string_of_list_ascii.

(** [s.toLowerCase()] *)
Definition toLowerCase (s : string) : string := str (map lower_char (chars s)).

(** [s.slice(0, n)] *)
Definition slice0 (n : nat) (s : string) : string := str (take n (chars s)).

Fixpoint drop_spaces (l : list ascii) : list ascii :=
  match l with
  | c :: l' => if is_space c then drop_spaces l' else l
  | [] => []
  end.

Definition trim_chars (l : list ascii) : list ascii :=
  rev (drop_spaces (rev (drop_spaces l))).

(** [s.trim()] *)
Definition trim (s : string) : string := str (trim_chars (chars s)).

Fixpoint split_chars (sep : ascii) (l : list ascii) : list (list ascii) :=
  match l with
  | [] => [[]]
  | c :: l' =>
      if is_char sep c then [] :: split_chars sep l'
      else match split_chars sep l' with
           | h :: t => (c :: h) :: t
           | [] => [[c]]
           end
  end.

(** [s.split('\n')] *)
Definition split_lines (s : string) : list string :=
  map str (split_chars "010"%char (chars s)).

Fixpoint is_prefix (p l : list ascii) : bool :=
  match p, l with
  | [], _ => true
  | x :: p', y :: l' => is_char x y && is_prefix p' l'
  | _ :: _, [] => false
  end.

Fixpoint includes_chars (needle hay : list ascii) : bool :=
  is_prefix needle hay ||
  match hay with
  | [] => false
  | _ :: hay' => includes_chars needle hay'
  end.

(** [hay.includes(needle)] *)
Definition includes (hay needle : string) : bool :=
  includes_chars (chars needle) (chars hay).

(** [s.startsWith(p)] *)
Definition startsWith (s p : string) : bool := is_prefix (chars p) (chars s).

(** [s.replace(/\b\w/g, c => c.toUpperCase())]: a word character that
    follows a non-word character (or starts the string) is upper-cased. *)
Fixpoint capitalize_words (prev_word : bool) (l : list ascii) : list ascii :=
  match l with
  | [] => []
  | c :: l' =>
      (if is_word c && negb prev_word then upper_char c else c)
        :: capitalize_words (is_word c) l'
  end.

End Text.

(** ** Regular expressions, with the backtracking semantics of the engine *)

Module Regex.
Import Text.

Inductive regex : Type :=
  | Eps
  | Cls (p : ascii -> bool)
  | Cat (a b : regex)
  | Alt (a b : regex)
  | Star (a : regex)
  | Group (i : nat) (a : regex)
  | Bol
  | Eol.

Definition Opt (a : regex) : regex := Alt a Eps.
Definition Plus (a : regex) : regex := Cat a (Star a).

Fixpoint Rep (n : nat) (a : regex) : regex :=
  match n with
  | O => Eps
  | S n' => Cat a (Rep n' a)
  end.

Fixpoint Lit_chars (l : list ascii) : regex :=
  match l with
  | [] => Eps
  | c :: l' => Cat (Cls (is_char c)) (Lit_chars l')
  end.
Definition Lit (s : string) : regex := Lit_chars (chars s).

(** A literal under the [i] flag. *)
Fixpoint LitCI_chars (l : list ascii) : regex :=
  match l with
  | [] => Eps
  | c :: l' =>
      Cat (Cls (fun x => is_char (lower_char c) (lower_char x))) (LitCI_chars l')
  end.
Definition LitCI (s : string) : regex := LitCI_chars (chars s).

Record cursor : Type := Cursor {
  pos : nat;
  rest : list ascii;
  caps : list (nat * list ascii)
}.

(** The iterations of a starred expression whose body is matched by [body]:
    as many as possible first, at most [n], none of them empty. *)
Definition star_loop (body : cursor -> (cursor -> option cursor) -> option cursor)
    (k : cursor -> option cursor) : nat -> cursor -> option cursor :=
  fix loop (n : nat) (c : cursor) : option cursor :=
    match n with
    | O => k c
    | S n' =>
        match body c (fun c' =>
                 if (pos c <? pos c')%nat then loop n' c' else None) with
        | Some c' => Some c'
        | None => k c
        end
    end.

(** [rmatch r c k]: match [r] at [c], then continue with [k]; the first
    alternative that lets the whole continuation succeed wins, a starred
    expression gives its iterations back one by one. *)
Fixpoint rmatch (r : regex) (c : cursor) (k : cursor -> option cursor)
  : option cursor :=
  match r with
  | Eps => k c
  | Cls p =>
      match rest c with
      | x :: xs => if p x then k (Cursor (S (pos c)) xs (caps c)) else None
      | [] => None
      end
  | Cat a b => rmatch a c (fun c' => rmatch b c' k)
  | Alt a b =>
      match rmatch a c k with
      | Some c' => Some c'
      | None => rmatch b c k
      end
  | Star a => star_loop (rmatch a) k (S (length (rest c))) c
  | Group i a =>
      rmatch a c (fun c' =>
        k (Cursor (pos c') (rest c')
             ((i, take (pos c' - pos c) (rest c)) :: caps c')))
  | Bol => if (pos c =? 0)%nat then k c else None
  | Eol => match rest c with [] => k c | _ :: _ => None end
  end.

(** What a successful match of [r] does to the cursor. *)
Inductive steps : regex -> cursor -> cursor -> Prop :=
| steps_eps c : steps Eps c c
| steps_cls p c x xs :
  rest c = x :: xs -> p x = true ->
  steps (Cls p) c (Cursor (S (pos c)) xs (caps c))
| steps_cat a b c c1 c2 :
  steps a c c1 -> steps b c1 c2 -> steps (Cat a b) c c2
| steps_alt_l a b c c1 : steps a c c1 -> steps (Alt a b) c c1
| steps_alt_r a b c c1 : steps b c c1 -> steps (Alt a b) c c1
| steps_star_stop a c : steps (Star a) c c
| steps_star_more a c c1 c2 :
  steps a c c1 -> steps (Star a) c1 c2 -> steps (Star a) c c2
| steps_group i a c c1 :
  steps a c c1 ->
  steps (Group i a) c
    (Cursor (pos c1) (rest c1) ((i, take (pos c1 - pos c) (rest c)) :: caps c1))
| steps_bol c : pos c = 0 -> steps Bol c c
| steps_eol c : rest c = [] -> steps Eol c c.

Record match_result : Type := MatchResult {
  m_index : nat;
  m_text : string;
  m_caps : list (nat * list ascii)
}.

Fixpoint search_from (r : regex) (p : nat) (l : list ascii) : option match_result :=
  match rmatch r (Cursor p l []) Some with
  | Some c' => Some (MatchResult p (str (take (pos c' - p) l)) (caps c'))
  | None =>
      match l with
      | [] => None
      | _ :: l' => search_from r (S p) l'
      end
  end.

(** [s.match(r)] for a pattern without the [g] flag, and element 0 of
    [s.match(r)] for one with it: the leftmost match. *)
Definition exec (r : regex) (s : string) : option match_result :=
  search_from r 0 (chars s).

(** [r.test(s)] *)
Definition test (r : regex) (s : string) : bool :=
  match exec r s with Some _ => true | None => false end.

(** [m[i]] for a capture group that took part in the match. *)
Definition group (i : nat) (m : match_result) : string :=
  match List.find (fun p => Nat.eqb (fst p) i) (m_caps m) with
  | Some p => str (snd p)
  | None => ""
  end.

End Regex.

(** ** Binary64: the Number values

    A literal denotes the binary64 value nearest to it (ties to even);
    a value is written with the fewest digits that denote it. Both are
    computed here on integers: a value is [m * 2^q], a decimal is
    [c * 10^e]. *)

Module Binary64.
Local Open Scope Z_scope.

(** [a / b] rounded to the nearest integer, ties to even. *)
Definition round_div (a b : Z) : Z :=
  let q := a / b in
  match 2 * (a mod b) ?= b with
  | Lt => q
  | Gt => q + 1
  | Eq => if Z.even q then q else q + 1
  end.

(** [num / den * 2^(-q)] as a fraction. *)
Definition scale2 (num den q : Z) : Z * Z :=
  if 0 <=? q then (num, den * 2 ^ q) else (num * 2 ^ (- q), den).

(** The integer [l] with [2^l <= num / den < 2^(l+1)]. *)
Definition floor_log2 (num den : Z) : Z :=
  let l := Z.log2 num - Z.log2 den in
  let '(a, b) := scale2 num den l in
  if b <=? a then l else l - 1.

(** The binary64 value nearest to [num / den] (both positive), ties to
    even: [Some (m, q)] is [m * 2^q] with [m < 2^53] and [-1074 <= q <= 971],
    [None] is an overflow. *)
Definition nearest (num den : Z) : option (Z * Z) :=
  let q := Z.max (floor_log2 num den - 52) (-1074) in
  let '(a, b) := scale2 num den q in
  let m := round_div a b in
  let '(m, q) := if m =? 2 ^ 53 then (2 ^ 52, q + 1) else (m, q) in
  if 971 <? q then None else Some (m, q).

(** [s * 10^e] as a fraction. *)
Definition fraction10 (s e : Z) : Z * Z :=
  if 0 <=? e then (s * 10 ^ e, 1) else (s, 10 ^ (- e)).

(** The binary64 value nearest to [s * 10^e], for [s] positive. Far
    outside the range the answer is known without the division. *)
Definition nearest_decimal (s e : Z) : option (Z * Z) :=
  if (0 <=? e) && (1100 <? Z.log2 s + 3 * e) then None
  else if Z.log2 s + 3 * e <? -1200 then Some (0, -1074)
  else let '(num, den) := fraction10 s e in nearest num den.

Definition same_value (a b : option (Z * Z)) : bool :=
  match a, b with
  | Some (m, q), Some (m', q') => (m =? m') && (q =? q')
  | None, None => true
  | _, _ => false
  end.

(** The least [n] from [n0] on with [xn / xd < 10^n]. *)
Fixpoint exponent_up (fuel : nat) (xn xd n : Z) : Z :=
  match fuel with
  | O => n
  | S fuel' => if xn <? 10 ^ n * xd then n else exponent_up fuel' xn xd (n + 1)
  end.

(** The greatest [n] from [n0] down with [10^(n-1) <= xn / xd]. *)
Fixpoint exponent_down (fuel : nat) (xn xd n : Z) : Z :=
  match fuel with
  | O => n
  | S fuel' =>
      if xd <=? xn * 10 ^ (1 - n) then n else exponent_down fuel' xn xd (n - 1)
  end.

(** The [n] with [10^(n-1) <= xn / xd < 10^n]. *)
Definition decimal_exponent (xn xd : Z) : Z :=
  if xd <=? xn then exponent_up 400 xn xd 1 else exponent_down 400 xn xd 0.

(** The two integers around [xn / xd * 10^(k - n)], the nearer one first,
    the even one first when they are equally near. *)
Definition candidates (xn xd n k : Z) : list Z :=
  let '(tn, td) :=
    if 0 <=? k - n then (xn * 10 ^ (k - n), xd) else (xn, xd * 10 ^ (n - k)) in
  let lo := tn / td in
  match 2 * (tn mod td) ?= td with
  | Lt => [lo; lo + 1]
  | Gt => [lo + 1; lo]
  | Eq => if Z.even lo then [lo; lo + 1] else [lo + 1; lo]
  end.

(** The shortest decimal [c * 10^(n - k)], with [k] digits from [k0] on,
    whose nearest binary64 value is [x]. *)
Fixpoint shortest (fuel : nat) (x : Z * Z) (xn xd n k : Z) : option (Z * Z) :=
  match fuel with
  | O => None
  | S fuel' =>
      match find (fun c => same_value (nearest_decimal c (n - k)) (Some x))
                 (candidates xn xd n k) with
      | Some c => Some (c, n - k)
      | None => shortest fuel' x xn xd n (k + 1)
      end
  end.

Fixpoint strip_zeros (fuel : nat) (c e : Z) : Z * Z :=
  match fuel with
  | O => (c, e)
  | S fuel' =>
      if (c mod 10 =? 0) && negb (c =? 0) then strip_zeros fuel' (c / 10) (e + 1)
      else (c, e)
  end.

(** One way to write each value: an integer below [10^21] with exponent
    0, anything else without trailing zeros. *)
Definition normal_form (c e : Z) : Z * Z :=
  let '(c, e) := strip_zeros 400 c e in
  if (0 <=? e) && (c * 10 ^ e <? 10 ^ 21) then (c * 10 ^ e, 0) else (c, e).

(** [m * 2^q] as a fraction. *)
Definition value_fraction (m q : Z) : Z * Z :=
  if 0 <=? q then (m * 2 ^ q, 1) else (m, 2 ^ (- q)).

(** What a decimal is rounded to. *)
Inductive rounded : Type :=
  | Zero
  | Finite (c e : Z)       (* the value written [c * 10^e], in normal form *)
  | Overflow.

(** The binary64 value nearest to [s * 10^e], for [s] not negative,
    written with the fewest digits. *)
Definition round_decimal (s e : Z) : rounded :=
  if s =? 0 then Zero
  else
    match nearest_decimal s e with
    | None => Overflow
    | Some (m, q) =>
        if m =? 0 then Zero
        else
          let '(xn, xd) := value_fraction m q in
          let n := decimal_exponent xn xd in
          match shortest 17 (m, q) xn xd n 1 with
          | Some (c, e') => let '(c, e') := normal_form c e' in Finite c e'
          | None => Finite s e     (* not reached: 17 digits always do *)
          end
    end.

End Binary64.

(** ** JavaScript values *)

Module Js.
Import Text.

(** A Number: a binary64 value. A finite one is [(-1)^neg * s * 10^e],
    written in the normal form of [Binary64] (the fewest digits, an
    integer below [10^21] in full). *)
Inductive number : Type :=
  | Dec (neg : bool) (s : N) (e : Z)
  | Infinity (neg : bool).

(** The Number that the decimal [(-1)^neg * s * 10^e] denotes. *)
Definition number_of_decimal (neg : bool) (s : N) (e : Z) : number :=
  match Binary64.round_decimal (Z.of_N s) e with
  | Binary64.Zero => Dec neg 0 0
  | Binary64.Finite c e' => Dec neg (Z.to_N c) e'
  | Binary64.Overflow => Infinity neg
  end.

(** [Dec neg s e] is a Number in normal form. *)
Definition is_number (x : number) : Prop :=
  match x with
  | Dec neg s e => number_of_decimal neg s e = x
  | Infinity _ => True
  end.

(** The integer [z], for [z] of magnitude below [2^53]. *)
Definition num_of_Z (z : Z) : number := Dec (z <? 0)%Z (Z.abs_N z) 0.

Inductive jsval : Type :=
  | JUndefined
  | JNull
  | JBool (b : bool)
  | JNum (n : number)
  | JStr (s : string)
  | JArr (l : list jsval)
  | JObj (m : list (string * jsval))
  | JNative (k : string).
(** [JNative k] is the member [k] that every plain object inherits from
    [Object.prototype]. *)

Inductive error_kind : Type := Error | TypeError | SyntaxError.

Record exn : Type := Exn { kind : error_kind; message : string }.

Inductive outcome (A : Type) : Type :=
  | Ok (a : A)
  | Throw (e : exn).
Arguments Ok {A} a.
Arguments Throw {A} e.

(** *** Truthiness *)

Definition truthy (v : jsval) : bool :=
  match v with
  | JUndefined | JNull => false
  | JBool b => b
  | JNum (Dec _ s _) => negb (s =? 0)%N
  | JNum (Infinity _) => true
  | JStr s => negb (String.eqb s "")
  | JArr _ | JObj _ | JNative _ => true
  end.

(** [a || b] *)
Definition js_or (a b : jsval) : jsval := if truthy a then a else b.

(** *** Number to string (Number::toString, radix 10) *)

Fixpoint uint_chars (d : Decimal.uint) : list ascii :=
  match d with
  | Decimal.Nil => []
  | Decimal.D0 d => "0"%char :: uint_chars d
  | Decimal.D1 d => "1"%char :: uint_chars d
  | Decimal.D2 d => "2"%char :: uint_chars d
  | Decimal.D3 d => "3"%char :: uint_chars d
  | Decimal.D4 d => "4"%char :: uint_chars d
  | Decimal.D5 d => "5"%char :: uint_chars d
  | Decimal.D6 d => "6"%char :: uint_chars d
  | Decimal.D7 d => "7"%char :: uint_chars d
  | Decimal.D8 d => "8"%char :: uint_chars d
  | Decimal.D9 d => "9"%char :: uint_chars d
  end.

Definition N_chars (n : N) : list ascii := uint_chars (N.to_uint n).

Fixpoint drop_zeros (l : list ascii) : list ascii :=
  match l with
  | c :: l' => if is_char "0" c then drop_zeros l' else l
  | [] => []
  end.

Definition zeros (n : nat) : list ascii := repeat "0"%char n.

(** The digits of [s] without trailing zeros, [k] their count, and [n]
    with [s * 10^e = 0.d1...dk * 10^n]. *)
Definition number_chars (x : number) : list ascii :=
  match x with
  | Dec neg s e =>
      if (s =? 0)%N then ["0"%char]
      else
        let all := N_chars s in
        let ds := rev (drop_zeros (rev all)) in
        let k := Z.of_nat (length ds) in
        let n := (e + Z.of_nat (length all))%Z in
        let sign := if neg then ["-"%char] else [] in
        let body :=
          if ((k <=? n) && (n <=? 21))%Z then
            ds ++ zeros (Z.to_nat (n - k))
          else if ((0 <? n) && (n <=? 21))%Z then
            take (Z.to_nat n) ds ++ "."%char :: drop (Z.to_nat n) ds
          else if ((-6 <? n) && (n <=? 0))%Z then
            "0"%char :: "."%char :: zeros (Z.to_nat (- n)) ++ ds
          else
            let ex := (n - 1)%Z in
            let exs := (if (ex <? 0)%Z then "-"%char else "+"%char)
                         :: N_chars (Z.abs_N ex) in
            match ds with
            | [d] => d :: "e"%char :: exs
            | d :: ds' => d :: "."%char :: ds' ++ "e"%char :: exs
            | [] => []
            end
        in sign ++ body
  | Infinity neg =>
      (if neg then ["-"%char] else []) ++ list_ascii_of_string "Infinity"
  end.

Definition number_to_string (x : number) : string := str (number_chars x).

(** *** ToString *)

Fixpoint join_with (sep : string) (l : list string) : string :=
  match l with
  | [] => ""
  | [x] => x
  | x :: l' => x +:+ sep +:+ join_with sep l'
  end.

Fixpoint to_string (v : jsval) : string :=
  match v with
  | JUndefined => "undefined"
  | JNull => "null"
  | JBool true => "true"
  | JBool false => "false"
  | JNum n => number_to_string n
  | JStr s => s
  | JArr l =>
      join_with ","
        (List.map (fun x => match x with
                            | JUndefined | JNull => ""
                            | _ => to_string x
                            end) l)
  | JObj _ => "[object Object]"
  | JNative k =>
      if String.eqb k "__proto__" then "[object Object]"
      else "function " +:+ (if String.eqb k "constructor" then "Object" else k)
             +:+ "() { [native code] }"
  end.

(** *** parseInt (no radix argument) *)

Definition digit_value (radix : N) (c : ascii) : option N :=
  let v :=
    if is_digit c then Some (code c - 48)%N
    else if in_range 97 102 c then Some (code c - 87)%N
    else if in_range 65 70 c then Some (code c - 55)%N
    else None in
  match v with
  | Some d => if (d <? radix)%N then Some d else None
  | None => None
  end.

(** The value of the longest prefix of digits, if that prefix is not empty. *)
Fixpoint read_digits (radix : N) (acc : option N) (l : list ascii) : option N :=
  match l with
  | [] => acc
  | c :: l' =>
      match digit_value radix c with
      | Some d =>
          read_digits radix
            (Some (match acc with Some a => a * radix + d | None => d end)%N) l'
      | None => acc
      end
  end.

(** [None] is [NaN]. The result is kept exact; the caller clamps it to
    [0..100], a range in which every integer is a binary64 value. *)
Definition parseInt_chars (l : list ascii) : option Z :=
  let l := drop_spaces l in
  let '(negative, l) :=
    match l with
    | c :: l' =>
        if is_char "-" c then (true, l')
        else if is_char "+" c then (false, l')
        else (false, l)
    | [] => (false, l)
    end in
  let '(radix, l) :=
    match l with
    | c0 :: c1 :: l' =>
        if is_char "0" c0 && (is_char "x" c1 || is_char "X" c1)
        then (16%N, l') else (10%N, l)
    | _ => (10%N, l)
    end in
  match read_digits radix None l with
  | Some n => Some (if negative then (- Z.of_N n)%Z else Z.of_N n)
  | None => None
  end.

Definition parseInt (v : jsval) : option Z := parseInt_chars (chars (to_string v)).

(** *** Property access *)

Definition object_prototype_keys : list string :=
  [ "constructor"; "__defineGetter__"; "__defineSetter__"; "hasOwnProperty";
    "__lookupGetter__"; "__lookupSetter__"; "isPrototypeOf";
    "propertyIsEnumerable"; "toString"; "valueOf"; "__proto__";
    "toLocaleString" ].

Definition inherited (k : string) : jsval :=
  if existsb (String.eqb k) object_prototype_keys then JNative k else JUndefined.

Fixpoint assoc (k : string) (m : list (string * jsval)) : option jsval :=
  match m with
  | [] => None
  | (k', v) :: m' => if String.eqb k k' then Some v else assoc k m'
  end.

(** [o[k] = v] on the own properties of an object. *)
Fixpoint obj_set (m : list (string * jsval)) (k : string) (v : jsval)
  : list (string * jsval) :=
  match m with
  | [] => [(k, v)]
  | (k', v') :: m' =>
      if String.eqb k k' then (k, v) :: m' else (k', v') :: obj_set m' k v
  end.

Definition cannot_read (of_ : string) (k : string) : exn :=
  Exn TypeError
    ("Cannot read properties of " +:+ of_ +:+ " (reading '" +:+ k +:+ "')").

(** [v.k] for the property names that occur in the server. *)
Definition get_field (v : jsval) (k : string) : outcome jsval :=
  match v with
  | JUndefined => Throw (cannot_read "undefined" k)
  | JNull => Throw (cannot_read "null" k)
  | JObj m =>
      match assoc k m with
      | Some x => Ok x
      | None => Ok (inherited k)
      end
  | _ => Ok JUndefined
  end.

(** [v?.k] *)
Definition get_field_opt (v : jsval) (k : string) : outcome jsval :=
  match v with
  | JUndefined | JNull => Ok JUndefined
  | _ => get_field v k
  end.

(** [v[0]] *)
Definition get_index0 (v : jsval) : outcome jsval :=
  match v with
  | JUndefined => Throw (cannot_read "undefined" "0")
  | JNull => Throw (cannot_read "null" "0")
  | JArr l => Ok (match l with x :: _ => x | [] => JUndefined end)
  | JStr s =>
      Ok (match s with
          | String c _ => JStr (String c EmptyString)
          | EmptyString => JUndefined
          end)
  | JObj m => Ok (match assoc "0" m with Some x => x | None => JUndefined end)
  | _ => Ok JUndefined
  end.

End Js.

(** ** JSON.parse *)

Module Json.
Import Text Regex Js.

Inductive token : Type :=
  | TLBrace | TRBrace | TLBracket | TRBracket | TColon | TComma
  | TString (s : string)
  | TNumber (n : number)
  | TTrue | TFalse | TNull.

(** *** Numbers: an optional minus sign, an integer part without a
    leading zero, an optional fraction, an optional exponent. *)

Definition number_re : regex :=
  Cat Bol
    (Cat (Opt (Group 1 (Cls (is_char "-"))))
    (Cat (Group 2 (Alt (Cls (is_char "0"))
                       (Cat (Cls (in_range 49 57)) (Star (Cls is_digit)))))
    (Cat (Opt (Cat (Cls (is_char ".")) (Group 3 (Plus (Cls is_digit)))))
    (Cat (Opt (Cat (Cls (one_of "eE"))
                   (Cat (Opt (Group 4 (Cls (one_of "+-"))))
                        (Group 5 (Plus (Cls is_digit))))))
         Eol)))).

Definition digits_N (s : string) : N :=
  match read_digits 10 None (chars s) with Some n => n | None => 0%N end.

Definition parse_number (w : string) : option number :=
  match exec number_re w with
  | Some m =>
      let frac := group 3 m in
      let ex := Z.of_N (digits_N (group 5 m)) in
      let ex := if String.eqb (group 4 m) "-" then (- ex)%Z else ex in
      Some (number_of_decimal (String.eqb (group 1 m) "-")
              (digits_N (group 2 m +:+ frac))
              (ex - Z.of_nat (String.length frac)))
  | None => None
  end.

Definition classify (w : string) : option token :=
  if String.eqb w "true" then Some TTrue
  else if String.eqb w "false" then Some TFalse
  else if String.eqb w "null" then Some TNull
  else option_map TNumber (parse_number w).

(** *** Strings *)

(** UTF-8 bytes of the code point of a [\uXXXX] escape. *)
Definition utf8 (n : N) : list ascii :=
  if (n <? 128)%N then [ascii_of_N n]
  else if (n <? 2048)%N then
    [ascii_of_N (192 + n / 64); ascii_of_N (128 + n mod 64)]
  else
    [ascii_of_N (224 + n / 4096); ascii_of_N (128 + (n / 64) mod 64);
     ascii_of_N (128 + n mod 64)].

Definition is_hex (c : ascii) : bool :=
  match digit_value 16 c with Some _ => true | None => false end.

Definition hex_value (l : list ascii) : N :=
  match read_digits 16 None l with Some n => n | None => 0%N end.

Definition escape_char (c : ascii) : option ascii :=
  if one_of "\/" c then Some c
  else if is_char "034" c then Some c
  else if is_char "b" c then Some "008"%char
  else if is_char "f" c then Some "012"%char
  else if is_char "n" c then Some "010"%char
  else if is_char "r" c then Some "013"%char
  else if is_char "t" c then Some "009"%char
  else None.

(** *** The lexer, one character at a time *)

Inductive lex_state : Type :=
  | LIdle
  | LWord (acc : list ascii)
  | LStr (acc : list ascii)
  | LEsc (acc : list ascii)
  | LUni (acc : list ascii) (hex : list ascii).

Definition is_json_space (c : ascii) : bool :=
  is_char " " c || is_char "009" c || is_char "010" c || is_char "013" c.

Definition is_word_char (c : ascii) : bool :=
  is_alnum c || one_of "+-." c.

Definition lex_idle (c : ascii) : option (lex_state * list token) :=
  if is_json_space c then Some (LIdle, [])
  else if is_char "{" c then Some (LIdle, [TLBrace])
  else if is_char "}" c then Some (LIdle, [TRBrace])
  else if is_char "[" c then Some (LIdle, [TLBracket])
  else if is_char "]" c then Some (LIdle, [TRBracket])
  else if is_char ":" c then Some (LIdle, [TColon])
  else if is_char "," c then Some (LIdle, [TComma])
  else if is_char "034" c then Some (LStr [], [])
  else if is_word_char c then Some (LWord [c], [])
  else None.

Definition lex_step (st : lex_state) (c : ascii)
  : option (lex_state * list token) :=
  match st with
  | LIdle => lex_idle c
  | LWord acc =>
      if is_word_char c then Some (LWord (c :: acc), [])
      else
        match classify (str (rev acc)), lex_idle c with
        | Some t, Some (st', ts) => Some (st', t :: ts)
        | _, _ => None
        end
  | LStr acc =>
      if is_char "034" c then Some (LIdle, [TString (str (rev acc))])
      else if is_char "\" c then Some (LEsc acc, [])
      else if (code c <? 32)%N then None
      else Some (LStr (c :: acc), [])
  | LEsc acc =>
      if is_char "u" c then Some (LUni acc [], [])
      else option_map (fun x => (LStr (x :: acc), [])) (escape_char c)
  | LUni acc hex =>
      if is_hex c then
        let hex := hex ++ [c] in
        if (length hex =? 4)%nat
        then Some (LStr (rev (utf8 (hex_value hex)) ++ acc), [])
        else Some (LUni acc hex, [])
      else None
  end.

Fixpoint lex_from (st : lex_state) (l : list ascii) : option (list token) :=
  match l with
  | [] =>
      match st with
      | LIdle => Some []
      | LWord acc => option_map (fun t => [t]) (classify (str (rev acc)))
      | _ => None
      end
  | c :: l' =>
      match lex_step st c with
      | Some (st', ts) => option_map (app ts) (lex_from st' l')
      | None => None
      end
  end.

Definition lex (s : string) : option (list token) := lex_from LIdle (chars s).

(** *** The parser, one token at a time *)

(** What the value being read will be put into. *)
Inductive frame : Type :=
  | KArr (acc : list jsval)
  | KObj (acc : list (string * jsval)) (key : string).

Inductive parse_state : Type :=
  | PValue (ks : list frame)
  | PArrFirst (ks : list frame)
  | PArrNext (acc : list jsval) (ks : list frame)
  | PObjFirst (ks : list frame)
  | PObjKey (acc : list (string * jsval)) (ks : list frame)
  | PObjColon (acc : list (string * jsval)) (key : string) (ks : list frame)
  | PObjNext (acc : list (string * jsval)) (ks : list frame)
  | PDone (v : jsval).

Definition complete (v : jsval) (ks : list frame) : parse_state :=
  match ks with
  | [] => PDone v
  | KArr acc :: ks' => PArrNext (v :: acc) ks'
  | KObj acc key :: ks' => PObjNext (obj_set acc key v) ks'
  end.

Definition begin_value (t : token) (ks : list frame) : option parse_state :=
  match t with
  | TString s => Some (complete (JStr s) ks)
  | TNumber n => Some (complete (JNum n) ks)
  | TTrue => Some (complete (JBool true) ks)
  | TFalse => Some (complete (JBool false) ks)
  | TNull => Some (complete JNull ks)
  | TLBracket => Some (PArrFirst ks)
  | TLBrace => Some (PObjFirst ks)
  | _ => None
  end.

Definition parse_step (st : parse_state) (t : token) : option parse_state :=
  match st, t with
  | PValue ks, _ => begin_value t ks
  | PArrFirst ks, TRBracket => Some (complete (JArr []) ks)
  | PArrFirst ks, _ => begin_value t (KArr [] :: ks)
  | PArrNext acc ks, TComma => Some (PValue (KArr acc :: ks))
  | PArrNext acc ks, TRBracket => Some (complete (JArr (rev acc)) ks)
  | PObjFirst ks, TRBrace => Some (complete (JObj []) ks)
  | PObjFirst ks, TString k => Some (PObjColon [] k ks)
  | PObjKey acc ks, TString k => Some (PObjColon acc k ks)
  | PObjColon acc k ks, TColon => Some (PValue (KObj acc k :: ks))
  | PObjNext acc ks, TComma => Some (PObjKey acc ks)
  | PObjNext acc ks, TRBrace => Some (complete (JObj acc) ks)
  | _, _ => None
  end.

Fixpoint parse_from (st : parse_state) (ts : list token) : option jsval :=
  match ts with
  | [] => match st with PDone v => Some v | _ => None end
  | t :: ts' =>
      match parse_step st t with
      | Some st' => parse_from st' ts'
      | None => None
      end
  end.

Definition syntax_error : exn :=
  Exn SyntaxError "Unexpected token in JSON".

(** [JSON.parse(s)] *)
Definition parse (s : string) : outcome jsval :=
  match lex s with
  | Some ts =>
      match parse_from (PValue []) ts with
      | Some v => Ok v
      | None => Throw syntax_error
      end
  | None => Throw syntax_error
  end.

End Json.

(** ** The patterns of the server *)

Module Patterns.
Import Text Regex.

Definition any_char : ascii -> bool := fun _ => true.

(** [/[a-zA-Z0-9._%+-]+@[a-zA-Z0-9.-]+\.[a-z]{2,}/g] *)
Definition emailRegex : regex :=
   Cat (Plus (Cls (fun c => is_alnum c || one_of "._%+-" c)))
  (Cat (Cls (is_char "@"))
  (Cat (Plus (Cls (fun c => is_alnum c || one_of ".-" c)))
  (Cat (Cls (is_char "."))
  (Cat (Rep 2 (Cls is_lower)) (Star (Cls is_lower)))))).

Definition sep : regex := Opt (Cls (fun c => is_space c || is_char "-" c)).
Definition digits (n : nat) : regex := Rep n (Cls is_digit).

(** [/(\+?91|0)?[\s-]?[6-9]\d{2}[\s-]?\d{3}[\s-]?\d{4}|(\+1[\s-]?)?(\(\d{3}\)|[\s-]?\d{3})[\s-]?\d{3}[\s-]?\d{4}/g] *)
Definition phoneRegex : regex :=
  Alt
    (Cat (Opt (Group 1 (Alt (Cat (Opt (Cls (is_char "+"))) (Lit "91")) (Lit "0"))))
    (Cat sep
    (Cat (Cls (in_range 54 57))
    (Cat (digits 2)
    (Cat sep
    (Cat (digits 3)
    (Cat sep (digits 4))))))))
    (Cat (Opt (Group 2 (Cat (Lit "+1") sep)))
    (Cat (Group 3 (Alt (Cat (Cls (is_char "(")) (Cat (digits 3) (Cls (is_char ")"))))
                       (Cat sep (digits 3))))
    (Cat sep
    (Cat (digits 3)
    (Cat sep (digits 4)))))).

(** [/(https?:\/\/)?(www\.)?linkedin\.com\/in\/[a-zA-Z0-9\-_%]+/gi] *)
Definition linkedinRegex : regex :=
   Cat (Opt (Group 1 (Cat (LitCI "http") (Cat (Opt (LitCI "s")) (Lit "://")))))
  (Cat (Opt (Group 2 (LitCI "www.")))
  (Cat (LitCI "linkedin.com/in/")
       (Plus (Cls (fun c => is_alnum c || one_of "-_%" c))))).

(** [/\{[\s\S]*\}/] *)
Definition jsonObjectRegex : regex :=
  Cat (Cls (is_char "{")) (Cat (Star (Cls any_char)) (Cls (is_char "}"))).

(** [/[0-9@:/!]/] *)
Definition notNameRegex : regex :=
  Cls (fun c => is_digit c || one_of "@:/!" c).

(** [/^[A-Z\s]+$/] *)
Definition allCapsRegex : regex :=
  Cat Bol (Cat (Plus (Cls (fun c => is_upper c || is_space c))) Eol).

Definition capitalized : regex := Cat (Cls is_upper) (Plus (Cls is_lower)).

(** [/^[A-Z][a-z]+([\s\-'][A-Z][a-z]+)*([\s][A-Z])?$/] *)
Definition nameRegex : regex :=
   Cat Bol
  (Cat capitalized
  (Cat (Star (Group 1 (Cat (Cls (fun c => is_space c || one_of "-'" c)) capitalized)))
  (Cat (Opt (Group 2 (Cat (Cls is_space) (Cls is_upper))))
       Eol))).

(** [/(\+91[\s]?)?([6-9]\d{9})/] *)
Definition mobileRegex : regex :=
  Cat (Opt (Group 1 (Cat (Lit "+91") (Opt (Cls is_space)))))
      (Group 2 (Cat (Cls (in_range 54 57)) (digits 9))).

(** [/\(91\)[\s]?([6-9]\d{4})[\s-]?(\d{5})/] *)
Definition bracketedRegex : regex :=
   Cat (Lit "(91)")
  (Cat (Opt (Cls is_space))
  (Cat (Group 1 (Cat (Cls (in_range 54 57)) (digits 4)))
  (Cat sep (Group 2 (digits 5))))).

(** [/[\s\-()]/] *)
Definition phone_noise (c : ascii) : bool := is_space c || one_of "-()" c.

End Patterns.

(** ** The server *)

Module Server.
Import Text Regex Js Patterns.

(** *** Outside world and process state *)

Record request : Type := Request {
  url : string;
  headers : list (string * string);
  body : jsval          (* the value handed to [JSON.stringify] *)
}.

(** What [fetch] gives back: a rejection, or a response with its [ok]
    flag and the text that [response.json()] parses. *)
Inductive fetch_result : Type :=
  | Rejected (e : exn)
  | Response (ok : bool) (text : string).

Record response : Type := Resp { resp_ok : bool; resp_text : string }.

Inductive event : Type :=
  | EvPdfParse (buffer : string)
  | EvFetch (r : request).

Definition is_fetch (e : event) : bool :=
  match e with EvFetch _ => true | EvPdfParse _ => false end.

Record state : Type := State {
  nameCache : gmap string jsval;
  log : list event
}.

Definition fetch_count (st : state) : nat :=
  length (List.filter is_fetch (log st)).

(** *** Computations: state and exceptions *)

Definition M (A : Type) : Type := state -> outcome A * state.

Definition ret {A} (a : A) : M A := fun st => (Ok a, st).
Definition throw {A} (e : exn) : M A := fun st => (Throw e, st).

Definition bind {A B} (m : M A) (k : A -> M B) : M B :=
  fun st =>
    match m st with
    | (Ok a, st') => k a st'
    | (Throw e, st') => (Throw e, st')
    end.

(** [try { m } catch (err) { h err }] *)
Definition try_catch {A} (m : M A) (h : exn -> M A) : M A :=
  fun st =>
    match m st with
    | (Ok a, st') => (Ok a, st')
    | (Throw e, st') => h e st'
    end.

Definition lift {A} (o : outcome A) : M A := fun st => (o, st).

Definition is_Some_b {A} (o : option A) : bool :=
  match o with Some _ => true | None => false end.

Notation "'let!' x ':=' m 'in' k" := (bind m (fun x => k))
  (at level 10, x name, m at level 100, k at level 200).

(** The outside world of one server process: the configuration read from
    the environment at start-up (the process exits unless all three are
    set), the PDF text extractor (the text of a buffer, or the error it
    rejects with) and the provider (the result of the [n]-th outbound
    call). *)
Record world : Type := World {
  env_API_KEY : string;
  env_BASE_URL : string;
  env_MODEL : string;
  pdf_text : string -> outcome string;
  provider_reply : nat -> request -> fetch_result
}.

Section WithWorld.

Variable w : world.

Local Abbreviation API_KEY := (env_API_KEY w).
Local Abbreviation BASE_URL := (env_BASE_URL w).
Local Abbreviation MODEL := (env_MODEL w).

(** [(await pdfParse(buffer)).text] *)
Definition pdfParse (buffer : string) : M string :=
  fun st => (pdf_text w buffer, State (nameCache st) (log st ++ [EvPdfParse buffer])).

(** [await rateLimitedFetch(url, options)]: the promise settles as the
    queued [fetch] does. The queue itself is [Throttle] below. *)
Definition rateLimitedFetch (r : request) : M response :=
  fun st =>
    let st' := State (nameCache st) (log st ++ [EvFetch r]) in
    match provider_reply w (fetch_count st) r with
    | Rejected e => (Throw e, st')
    | Response ok text => (Ok (Resp ok text), st')
    end.

(** [await response.json()] *)
Definition response_json (r : response) : M jsval := lift (Json.parse (resp_text r)).

(** *** Provider detection *)

Inductive provider : Type :=
  | UNKNOWN | ANTHROPIC | OPENAI | PERPLEXITY | DEEPSEEK | GROQ | OLLAMA | CUSTOM.

Definition detectProvider : provider :=
  if String.eqb BASE_URL "" then UNKNOWN
  else if includes BASE_URL "anthropic" then ANTHROPIC
  else if includes BASE_URL "openai" then OPENAI
  else if includes BASE_URL "perplexity" then PERPLEXITY
  else if includes BASE_URL "deepseek" then DEEPSEEK
  else if includes BASE_URL "groq" then GROQ
  else if includes BASE_URL "localhost" || includes BASE_URL "127.0.0.1" then OLLAMA
  else CUSTOM.

Definition PROVIDER : provider := detectProvider.

Definition is_anthropic : bool :=
  match PROVIDER with ANTHROPIC => true | _ => false end.

Definition endpoint : string :=
  if is_anthropic then "https://api.anthropic.com/v1/messages"
  else BASE_URL +:+ "/chat/completions".

Definition dq : string := String "034"%char EmptyString.
Definition nl : string := String "010"%char EmptyString.

Definition chat_message (role content : string) : jsval :=
  JObj [("role", JStr role); ("content", JStr content)].

Definition base_headers : list (string * string) :=
  [("Content-Type", "application/json")].

Definition anthropic_headers : list (string * string) :=
  base_headers ++ [("x-api-key", API_KEY); ("anthropic-version", "2023-06-01")].

Definition bearer_headers : list (string * string) :=
  base_headers ++ [("Authorization", "Bearer " +:+ API_KEY)].

(** The completion text: [data.content[0].text] or
    [data.choices[0].message.content]. *)
Definition completion_text (data : jsval) : M jsval :=
  if is_anthropic then
    let! c := lift (get_field data "content") in
    let! c0 := lift (get_index0 c) in
    lift (get_field c0 "text")
  else
    let! c := lift (get_field data "choices") in
    let! c0 := lift (get_index0 c) in
    let! m := lift (get_field c0 "message") in
    lift (get_field m "content").

(** [v.match(r)] on a value that is expected to be a string. *)
Definition js_match (v : jsval) (r : regex) : outcome (option match_result) :=
  match v with
  | JStr s => Ok (exec r s)
  | JUndefined => Throw (cannot_read "undefined" "match")
  | JNull => Throw (cannot_read "null" "match")
  | _ => Throw (Exn TypeError "match is not a function")
  end.

(** *** Name extraction through the provider, with the cache *)

(** [nameCache[k]] *)
Definition cache_get (c : gmap string jsval) (k : string) : jsval :=
  match c !! k with
  | Some v => v
  | None => inherited k
  end.

(** [nameCache[k] = v]. (For a key that names a member of
    [Object.prototype] the lookup above is truthy, so the assignment is
    not reached with such a key.) *)
Definition cache_set (k : string) (v : jsval) : M unit :=
  fun st => (Ok tt, State (<[k := v]> (nameCache st)) (log st)).

Definition name_request (text : string) : request :=
  if is_anthropic then
    Request endpoint anthropic_headers
      (JObj [("model", JStr MODEL);
             ("max_tokens", JNum (num_of_Z 50));
             ("messages", JArr [chat_message "user"
                ("Extract the candidate's full name from this resume text. Return ONLY a valid JSON object with field "
                 +:+ dq +:+ "name" +:+ dq
                 +:+ ". Do NOT include titles, degrees, company names, or locations."
                 +:+ nl +:+ nl +:+ "Resume text:" +:+ nl +:+ slice0 800 text)])])
  else
    Request endpoint bearer_headers
      (JObj [("model", JStr MODEL);
             ("temperature", JNum (Dec false 1 (-1)));
             ("max_tokens", JNum (num_of_Z 50));
             ("messages", JArr [
                chat_message "system"
                  ("Extract the candidate's full name from resume text. Return ONLY JSON: {"
                   +:+ dq +:+ "name" +:+ dq +:+ ": " +:+ dq +:+ "Full Name" +:+ dq
                   +:+ "}. Do NOT include titles, degrees, company names, or locations.");
                chat_message "user"
                  ("Extract name from resume:" +:+ nl +:+ nl +:+ slice0 800 text)])]).

(** The body of the [try] block: [Some v] when it executes [return v],
    [None] when control leaves the block without returning. *)
Definition extractNameWithLLM_try (text cacheKey : string) : M (option jsval) :=
  let! response := rateLimitedFetch (name_request text) in
  if negb (resp_ok response) then
    let! err := response_json response in
    let! e := lift (get_field err "error") in
    let! _ := lift (get_field_opt e "message") in
    ret (Some JNull)
  else
    let! data := response_json response in
    let! content := completion_text data in
    let! m := lift (js_match content jsonObjectRegex) in
    match m with
    | Some m =>
        let! result := lift (Json.parse (m_text m)) in
        let! rn := lift (get_field result "name") in
        let name := match rn with
                    | JStr s => if String.eqb s "Unknown" then JNull else rn
                    | _ => rn
                    end in
        let! _ := (if truthy name then cache_set cacheKey name else ret tt) in
        ret (Some name)
    | None => ret None
    end.

Definition extractNameWithLLM (text resumeFileName : string) : M jsval :=
  let cacheKey := resumeFileName in
  fun st =>
    if truthy (cache_get (nameCache st) cacheKey)
    then (Ok (cache_get (nameCache st) cacheKey), st)
    else
      (let! r := try_catch (extractNameWithLLM_try text cacheKey)
                           (fun _ => ret None) in
       match r with
       | Some v => ret v
       | None => ret JNull
       end) st.


(** *** Name extraction by pattern *)

Definition blacklist : list string :=
  [ "engineering"; "engineer"; "electronics"; "communication";
    "computer"; "science"; "technology"; "information";
    "chennai"; "bangalore"; "india"; "profile"; "summary";
    "resume"; "curriculum"; "switzerland"; "germany"; "france";
    "united states"; "united kingdom"; "zurich"; "embedded";
    "developer"; "manager"; "intern"; "internship"; "student";
    "graduate"; "university"; "college"; "systems"; "administrator";
    "private"; "ltd"; "inc"; "company"; "corp"; "tech"; "solutions";
    "pvt"; "llc"; "gmbh"; "srl"; "group"; "enterprises" ].

(** One turn of the loop over the candidate lines: [Some n] when the
    line is returned as the name, [None] when the loop goes on. *)
Definition name_of_line (line : string) : option string :=
  let lower := toLowerCase line in
  if existsb (fun word => includes lower word) blacklist then None
  else if test notNameRegex line then None
  else
    let normalized :=
      if test allCapsRegex line
      then str (capitalize_words false (chars (toLowerCase line)))
      else line in
    if test nameRegex normalized then Some normalized else None.

Fixpoint first_name (lines : list string) : option string :=
  match lines with
  | [] => None
  | line :: lines' =>
      match name_of_line line with
      | Some n => Some n
      | None => first_name lines'
      end
  end.

(** [None] is [null]. *)
Definition extractNameRegex (text : string) : option string :=
  let lines :=
    List.filter (fun l => (0 <? String.length l)%nat && (String.length l <? 60)%nat)
      (List.map trim (split_lines text)) in
  first_name (take 20 lines).

(** *** Phone numbers *)

Definition dash : string := "—".

Definition or_dash (s : string) : string :=
  if String.eqb s "" then dash else s.

Fixpoint scan_lines (lines : list string) : string :=
  match lines with
  | [] => dash
  | line :: lines' =>
      match exec mobileRegex line with
      | Some m => trim (m_text m)
      | None =>
          match exec bracketedRegex line with
          | Some m2 => "+91" +:+ group 1 m2 +:+ group 2 m2
          | None => scan_lines lines'
          end
      end
  end.

Definition extractPhones (text : string) : string :=
  match exec phoneRegex text with
  | Some m =>
      let cleaned := List.filter (fun c => negb (phone_noise c)) (chars (m_text m)) in
      let phone :=
        match cleaned with
        | c :: l => if is_char "0" c then "+91" +:+ str l else str cleaned
        | [] => str cleaned
        end in
      or_dash phone
  | None => scan_lines (split_lines text)
  end.

(** *** Entities *)

Record entities : Type := Entities {
  e_candidate_name : jsval;
  e_email : string;
  e_phone : string;
  e_linkedin : string
}.

Definition extractEntities (text resumeFileName : string) : M entities :=
  let! name := extractNameWithLLM text resumeFileName in
  let name :=
    if negb (truthy name)
    then match extractNameRegex text with Some n => JStr n | None => JNull end
    else name in
  let linkedinMatch := exec linkedinRegex text in
  ret (Entities
         (js_or name (JStr "Unknown"))
         (match exec emailRegex text with
          | Some m => or_dash (m_text m)
          | None => dash
          end)
         (extractPhones text)
         (match linkedinMatch with
          | Some m =>
              if startsWith (m_text m) "http" then m_text m
              else "https://" +:+ m_text m
          | None => dash
          end)).

(** *** Helpers *)

Definition truncate (text : string) : string :=
  if (2000 <? String.length text)%nat then slice0 2000 text else text.

Definition extractJSON (text : jsval) : outcome jsval :=
  match js_match text jsonObjectRegex with
  | Throw e => Throw e
  | Ok None => Throw (Exn Error "LLM did not return valid JSON")
  | Ok (Some m) => Json.parse (m_text m)
  end.


(** *** Scoring *)

Definition systemPrompt : string :=
  "ATS scoring engine. Score CV vs JD (0-100)." +:+ nl +:+ nl
  +:+ "RULES:" +:+ nl
  +:+ "- Skills (40%), Experience (30%), Role (20%), Education (10%)" +:+ nl
  +:+ "- DIFFERENT CVs = DIFFERENT scores" +:+ nl
  +:+ "- 80-95%: Perfect match" +:+ nl
  +:+ "- 50-70%: Partial  " +:+ nl
  +:+ "- 20-50%: Minimal" +:+ nl
  +:+ "- 0-20%: No match" +:+ nl +:+ nl
  +:+ "Return ONLY JSON (no other text):" +:+ nl
  +:+ "{" +:+ nl
  +:+ "  " +:+ dq +:+ "match_score" +:+ dq +:+ ": 85," +:+ nl
  +:+ "  " +:+ dq +:+ "skills_match" +:+ dq +:+ ": " +:+ dq +:+ "80%" +:+ dq +:+ "," +:+ nl
  +:+ "  " +:+ dq +:+ "seniority_fit" +:+ dq +:+ ": " +:+ dq +:+ "Strong" +:+ dq +:+ "," +:+ nl
  +:+ "  " +:+ dq +:+ "summary" +:+ dq +:+ ": " +:+ dq +:+ "2 sentences max" +:+ dq +:+ nl
  +:+ "}".

Definition userPrompt (resumeText jdText : string) : string :=
  "Analyze this CV against the JD and provide a detailed matching score."
  +:+ nl +:+ nl +:+ "RESUME:" +:+ nl +:+ resumeText
  +:+ nl +:+ nl +:+ "JOB DESCRIPTION:" +:+ nl +:+ jdText
  +:+ nl +:+ nl
  +:+ "Provide detailed analysis considering skill gaps, experience level, and role alignment.".

Definition score_request (resumeText jdText : string) : request :=
  if is_anthropic then
    Request endpoint anthropic_headers
      (JObj [("model", JStr MODEL);
             ("max_tokens", JNum (num_of_Z 500));
             ("messages", JArr [chat_message "user" (userPrompt resumeText jdText)]);
             ("system", JStr systemPrompt)])
  else
    Request endpoint bearer_headers
      (JObj [("model", JStr MODEL);
             ("temperature", JNum (Dec false 2 (-1)));
             ("max_tokens", JNum (num_of_Z 500));
             ("messages", JArr [chat_message "system" systemPrompt;
                                chat_message "user" (userPrompt resumeText jdText)])]).

(** [parseInt(v) || 50] *)
Definition parseInt_or_50 (v : jsval) : Z :=
  match parseInt v with
  | Some z => if (z =? 0)%Z then 50%Z else z
  | None => 50%Z
  end.

(** [Math.max(0, Math.min(100, parseInt(v) || 50))] *)
Definition clamp_score (v : jsval) : Z :=
  Z.max 0 (Z.min 100 (parseInt_or_50 v)).

(** The object returned by [scoreResumeWithLLM]: the parsed reply with
    its [match_score] overwritten by the clamped integer. *)
Record llm_result : Type := LlmResult {
  match_score : Z;
  reply : jsval
}.

Definition scoreResumeWithLLM (resumeText jdText : string) : M llm_result :=
  try_catch
    (let! response := rateLimitedFetch (score_request resumeText jdText) in
     if negb (resp_ok response) then
       let! err := response_json response in
       let! e := lift (get_field err "error") in
       let! msg := lift (get_field_opt e "message") in
       throw (Exn Error (to_string (js_or msg (JStr "LLM request failed"))))
     else
       let! data := response_json response in
       let! content := completion_text data in
       let! result := lift (extractJSON content) in
       let! raw := lift (get_field result "match_score") in
       ret (LlmResult (clamp_score raw) result))
    (fun err => throw err).

(** *** The batch endpoint *)

Record file : Type := File { originalname : string; buffer : string }.

(** [req.files]: each field is present only when a file arrived for it. *)
Record files : Type := Files {
  resumes : option (list file);
  jd : option (list file)
}.

Record batch_request : Type := BatchRequest { req_files : option files }.

Record RankedResult : Type := Ranked {
  resume_name : string;
  candidate_name : jsval;
  email : string;
  phone : string;
  linkedin : string;
  r_match_score : Z;
  skills_match : jsval;
  experience_fit : jsval;
  seniority_fit : jsval;
  summary : jsval
}.

Inductive response_body : Type :=
  | ErrorBody (error : string)
  | BatchBody (total : nat) (ranked_results : list RankedResult).

Record http_response : Type := Http { status : nat; payload : response_body }.

Definition failure_result (resumeFile : file) (err : exn) : RankedResult :=
  Ranked (originalname resumeFile) (JStr "Unknown") dash dash dash
         0%Z JUndefined JUndefined (JStr "Weak")
         (JStr ("Error: " +:+ message err)).

(** The [try] block of the loop over the resume files, up to the value
    it pushes. *)
Definition process_resume_try (jdText : string) (resumeFile : file) : M RankedResult :=
  let! text := pdfParse (buffer resumeFile) in
  let resumeText := truncate text in
  let! entities := extractEntities resumeText (originalname resumeFile) in
  let! llmResult := scoreResumeWithLLM resumeText jdText in
  let! skills := lift (get_field (reply llmResult) "skills_match") in
  let! experience := lift (get_field (reply llmResult) "experience_fit") in
  let! seniority := lift (get_field (reply llmResult) "seniority_fit") in
  let! summ := lift (get_field (reply llmResult) "summary") in
  ret (Ranked (originalname resumeFile)
         (e_candidate_name entities) (e_email entities)
         (e_phone entities) (e_linkedin entities)
         (match_score llmResult) skills experience seniority summ).

(** One turn of the loop: the value pushed, by the [try] block or by
    its [catch]. Nothing after either [push] can throw, so exactly one
    value is pushed per turn. *)
Definition process_resume (jdText : string) (resumeFile : file) : M RankedResult :=
  try_catch (process_resume_try jdText resumeFile)
            (fun err => ret (failure_result resumeFile err)).

Fixpoint process_resumes (jdText : string) (resumeFiles : list file)
    (results : list RankedResult) : M (list RankedResult) :=
  match resumeFiles with
  | [] => ret results
  | resumeFile :: rest =>
      let! r := process_resume jdText resumeFile in
      process_resumes jdText rest (results ++ [r])
  end.

(** [(a, b) => b.match_score - a.match_score] *)
Definition by_score_desc (a b : RankedResult) : Z :=
  (r_match_score b - r_match_score a)%Z.

(** [Array.prototype.sort] with a comparison function: a stable sort (the
    language requires stability since ES2019). An element is put in front
    of the first later element that the comparison does not order before
    it. For a ranking by score the outcome does not depend on the sorting
    method: see [sort_is_the_stable_ranking]. *)
Fixpoint insert_sorted {A} (cmp : A -> A -> Z) (x : A) (l : list A) : list A :=
  match l with
  | [] => [x]
  | y :: l' =>
      if (cmp x y <=? 0)%Z then x :: y :: l' else y :: insert_sorted cmp x l'
  end.

Fixpoint sort {A} (cmp : A -> A -> Z) (l : list A) : list A :=
  match l with
  | [] => []
  | x :: l' => insert_sorted cmp x (sort cmp l')
  end.

(** [req.files?.resumes || []] *)
Definition resume_files (req : batch_request) : list file :=
  match req_files req with
  | Some fs => match resumes fs with Some l => l | None => [] end
  | None => []
  end.

(** [req.files?.jd?.[0]] *)
Definition jd_file (req : batch_request) : option file :=
  match req_files req with
  | Some fs => match jd fs with Some (f :: _) => Some f | _ => None end
  | None => None
  end.

(** The handler of [POST /api/batch-match]. *)
Definition batch_match (req : batch_request) : M http_response :=
  try_catch
    (let resumeFiles := resume_files req in
     let jdFile := jd_file req in
     if (length resumeFiles =? 0)%nat || negb (is_Some_b jdFile) then
       ret (Http 400 (ErrorBody "Missing resumes or JD file"))
     else
       let! jd_text :=
         match jdFile with
         | Some f => pdfParse (buffer f)
         | None => throw (cannot_read "undefined" "buffer")
         end in
       let jdText := truncate jd_text in
       let! results := process_resumes jdText resumeFiles [] in
       let results := sort by_score_desc results in
       ret (Http 200 (BatchBody (length results) results)))
    (fun err => ret (Http 500 (ErrorBody (message err)))).

End WithWorld.
End Server.

(** ** The request queue *)

Module Throttle.

Definition REQUEST_DELAY : nat := 500.

(** The queue as a transition system. A state holds the two variables of
    the module ([requestQueue], [isProcessing]) together with what the
    event loop has pending on their behalf and a record of what happened.
    A queued request is named by a number; time is in milliseconds.
    Each event is one uninterrupted run of the event loop:
    - [Call t]: a caller enters [rateLimitedFetch], which pushes the
      request and calls [processQueue()];
    - [Settle t]: the [fetch] of [t] settles (either way), the [await] in
      [processQueue] resumes, and its [finally] block sets the delay timer;
    - [Timeout due]: that timer, due at [due], fires; the rest of the
      [finally] block clears the flag and calls [processQueue()] again.
      A timer never fires before it is due;
    - [Tick d]: [d] milliseconds pass. *)
Inductive obs : Type :=
  | Called (t : nat) (at_ : nat)
  | Started (t : nat) (at_ : nat)
  | Finished (t : nat) (at_ : nat).

Record state : Type := State {
  requestQueue : list nat;
  isProcessing : bool;
  in_flight : list nat;     (* requests whose [fetch] has not settled *)
  timers : list nat;        (* due times of the pending [setTimeout]s *)
  now : nat;
  trace : list obs
}.

Definition init : state := State [] false [] [] 0 [].

(** [processQueue()] up to its first [await]. *)
Definition processQueue (st : state) : state :=
  if isProcessing st || (length (requestQueue st) =? 0)%nat then st
  else
    match requestQueue st with
    | request :: queue =>
        State queue true (in_flight st ++ [request]) (timers st) (now st)
              (trace st ++ [Started request (now st)])
    | [] => st
    end.

(** What the event loop can run next. *)
Inductive event : Type :=
  | Call (t : nat)        (* [rateLimitedFetch]: push, then [processQueue()] *)
  | Settle (t : nat)      (* [await request()] resumes: the delay timer is set *)
  | Timeout (due : nat)   (* the timer fires: [isProcessing = false; processQueue()] *)
  | Tick (d : nat).       (* time passes *)

Fixpoint remove_first (t : nat) (l : list nat) : list nat :=
  match l with
  | [] => []
  | x :: l' => if (x =? t)%nat then l' else x :: remove_first t l'
  end.

Definition mem (t : nat) (l : list nat) : bool := existsb (Nat.eqb t) l.

Definition step (st : state) (ev : event) : option state :=
  match ev with
  | Call t =>
      Some (processQueue
              (State (requestQueue st ++ [t]) (isProcessing st) (in_flight st)
                     (timers st) (now st) (trace st ++ [Called t (now st)])))
  | Settle t =>
      if mem t (in_flight st) then
        Some (State (requestQueue st) (isProcessing st)
                    (remove_first t (in_flight st))
                    (timers st ++ [now st + REQUEST_DELAY]) (now st)
                    (trace st ++ [Finished t (now st)]))
      else None
  | Timeout due =>
      if mem due (timers st) && (due <=? now st)%nat then
        Some (processQueue
                (State (requestQueue st) false (in_flight st)
                       (remove_first due (timers st)) (now st) (trace st)))
      else None
  | Tick d =>
      Some (State (requestQueue st) (isProcessing st) (in_flight st)
                  (timers st) (now st + d) (trace st))
  end.

Fixpoint run (st : state) (evs : list event) : option state :=
  match evs with
  | [] => Some st
  | ev :: evs' =>
      match step st ev with
      | Some st' => run st' evs'
      | None => None
      end
  end.

Definition called (tr : list obs) : list nat :=
  flat_map (fun o => match o with Called t _ => [t] | _ => [] end) tr.

Definition started (tr : list obs) : list nat :=
  flat_map (fun o => match o with Started t _ => [t] | _ => [] end) tr.

(** Every start that follows a completion in [tr] comes at least
    [REQUEST_DELAY] after it. *)
Fixpoint spaced (tr : list obs) : Prop :=
  match tr with
  | [] => True
  | Finished _ f :: tr' =>
      (forall t s, In (Started t s) tr' -> f + REQUEST_DELAY <= s) /\ spaced tr'
  | _ :: tr' => spaced tr'
  end.

(** Every completion recorded in [tr] lies at least [REQUEST_DELAY] before [bound]. *)
Definition settled_before (bound : nat) (tr : list obs) : Prop :=
  forall t f, In (Finished t f) tr -> f + REQUEST_DELAY <= bound.

(** What holds in every state the event loop can reach. *)
Record invariant (st : state) : Prop := Invariant {
  inv_fifo : called (trace st) = started (trace st) ++ requestQueue st;
  inv_phase :
    if isProcessing st
    then (exists t, in_flight st = [t] /\ timers st = []) \/
         (in_flight st = [] /\ exists due, timers st = [due])
    else in_flight st = [] /\ timers st = [];
  inv_idle : timers st = [] -> settled_before (now st) (trace st);
  inv_sleep : forall due, In due (timers st) -> settled_before due (trace st);
  inv_spaced : spaced (trace st)
}.

End Throttle.


(** ** The scoring step of the earlier revision

    In the revision of the server without provider detection the batch
    endpoint reads the score off the parsed reply and passes it on as it is. *)

Module Legacy.
Import Text Regex Js Patterns Server.

Definition extractJSON (text : jsval) : outcome jsval :=
  match js_match text jsonObjectRegex with
  | Throw e => Throw e
  | Ok None => Throw (Exn Error "LLM did not return JSON")
  | Ok (Some m) => Json.parse (m_text m)
  end.

(** [extractJSON(data.choices[0].message.content).match_score] *)
Definition match_score_of (content : jsval) : outcome jsval :=
  match extractJSON content with
  | Ok llmResult => get_field llmResult "match_score"
  | Throw e => Throw e
  end.

End Legacy.

(** ** Concrete worlds, used to run the server *)

Module Examples.
Import Text Js Server.

(** JSON text written with single quotes in place of double quotes. *)
Definition json_text (s : string) : string :=
  str (List.map (fun c => if is_char "'" c then "034"%char else c) (chars s)).

(** A reply in the chat-completions shape whose completion is [content]
    (itself written with [\'] for an escaped quote). *)
Definition chat (content : string) : fetch_result :=
  Response true
    (json_text ("{'choices':[{'message':{'content':'" +:+ content +:+ "'}}]}")).

Definition network_error : fetch_result := Rejected (Exn TypeError "fetch failed").

(** The provider answers its calls from a script, then stops answering. *)
Definition scripted (script : list fetch_result) : nat -> request -> fetch_result :=
  fun n _ => nth n script network_error.

(** The extractor reads every buffer as its own text, except a corrupt one. *)
Definition pdf_reader (buffer : string) : outcome string :=
  if String.eqb buffer "%corrupt%"
  then Throw (Exn Error "Invalid PDF structure")
  else Ok buffer.

Definition world_of (script : list fetch_result) : world :=
  World "sk-test" "https://api.openai.com/v1" "gpt-4o-mini" pdf_reader (scripted script).

Definition fresh : state := State ∅ [].

Definition ann : file := File "ann.pdf" "Ann Lee
ann.lee@example.com
9876543210".
Definition bob : file := File "bob.pdf" "Bob Ray
bob@example.org".
Definition cyd : file := File "cyd.pdf" "Curriculum
cyd at example".
Definition dee : file := File "dee.pdf" "Dee Poe
linkedin.com/in/deepoe".
Definition job : file := File "jd.pdf" "Backend developer, five years".
Definition corrupt_job : file := File "jd.pdf" "%corrupt%".

Definition batch (rs : list file) (j : file) : batch_request :=
  BatchRequest (Some (Files (Some rs) (Some [j]))).

(** Four resumes; the scoring call of the second one is rejected, the
    first and the last get the same score. *)
Definition ranking_script : list fetch_result :=
  [ chat "{\'name\': \'Ann Lee\'}";
    chat "Result: {\'match_score\': 70, \'seniority_fit\': \'Medium\', \'summary\': \'Partial match.\'}";
    chat "{\'name\': \'Bob Ray\'}";
    network_error;
    chat "{\'name\': \'Unknown\'}";
    chat "{\'match_score\': 85, \'skills_match\': \'80%\', \'seniority_fit\': \'Strong\', \'summary\': \'Good.\'}";
    chat "{\'name\': \'\'}";
    chat "{\'match_score\': 70, \'seniority_fit\': \'Medium\', \'summary\': \'Partial.\'}" ].

Definition ranking_world : world := world_of ranking_script.

Definition four_resumes : batch_request := batch [ann; bob; cyd; dee] job.

(** What the endpoint answers to the four resumes, and the state it leaves. *)
Definition ranking_outcome : outcome http_response * state :=
  Eval vm_compute in batch_match ranking_world four_resumes fresh.

Definition ranked_example : list RankedResult :=
  match fst ranking_outcome with
  | Ok (Http _ (BatchBody _ rr)) => rr
  | _ => []
  end.

(** The loop after the first resume, and after the failure of the second. *)
Definition after_ann : outcome (list RankedResult) * state :=
  Eval vm_compute in process_resumes ranking_world "JD" [ann] [] fresh.

Definition after_bob : outcome RankedResult * state :=
  Eval vm_compute in process_resume ranking_world "JD" bob (snd after_ann).

(** One scoring reply, for a provider that scores immediately. *)
Definition scoring_world (completion : string) : world :=
  world_of [chat completion].

(** The state after the name of the first resume was resolved. *)
Definition name_state : state :=
  Eval vm_compute in snd (extractNameWithLLM ranking_world (buffer ann) "ann.pdf" fresh).

Definition scored (completion : string) : outcome llm_result * state :=
  scoreResumeWithLLM (scoring_world completion) "resume" "jd" fresh.

Definition score_of (completion : string) : option Z :=
  match fst (scored completion) with
  | Ok r => Some (match_score r)
  | Throw _ => None
  end.

(** Three callers in a row; the fetches settle after 120 and 80
    milliseconds and the timers fire late. *)
Definition three_calls : list Throttle.event :=
  [ Throttle.Call 1; Throttle.Call 2; Throttle.Call 3;
    Throttle.Tick 120; Throttle.Settle 1;
    Throttle.Tick 510; Throttle.Timeout 620;
    Throttle.Tick 80; Throttle.Settle 2;
    Throttle.Tick 700; Throttle.Timeout 1210 ].

Definition after_three_calls : Throttle.state :=
  Eval vm_compute in
    match Throttle.run Throttle.init three_calls with
    | Some st => st
    | None => Throttle.init
    end.

End Examples.

(** ** Vocabulary of the statements *)

Module Spec.
Import Text Js Server.

(** [a] is ranked at least as high as [b]. *)
Definition score_ge (a b : RankedResult) : Prop :=
  (r_match_score b <= r_match_score a)%Z.

Definition has_score (s : Z) (r : RankedResult) : bool :=
  (r_match_score r =? s)%Z.

(** The longest prefix of [l] that ends with a closing brace. *)
Fixpoint upto_last_close (l : list ascii) : option (list ascii) :=
  match l with
  | [] => None
  | x :: xs =>
      match upto_last_close xs with
      | Some word => Some (x :: word)
      | None => if is_char "}" x then Some [x] else None
      end
  end.

(** What follows the first opening brace of [l]. *)
Fixpoint after_first_open (l : list ascii) : option (list ascii) :=
  match l with
  | [] => None
  | x :: xs => if is_char "{" x then Some xs else after_first_open xs
  end.

(** The text from the first opening brace of [s] to its last closing brace. *)
Definition first_to_last_brace (s : string) : option string :=
  match after_first_open (chars s) with
  | Some xs => option_map (fun word => str ("{"%char :: word)) (upto_last_close xs)
  | None => None
  end.

(** The continuation of the matcher after the starred part of the JSON
    object pattern: a closing brace, then success. *)
Definition close_then_done (c : Regex.cursor) : option Regex.cursor :=
  Regex.rmatch (Regex.Cls (is_char "}")) c Some.


(** Processing [f] from state [st] fails with [e] at one of its steps
    (text extraction, entity extraction, scoring), leaving state [s]. *)
Definition step_failure (w : world) (jdText : string) (f : file)
    (st : state) (e : exn) (s : state) : Prop :=
  pdfParse w (buffer f) st = (Throw e, s)
  \/ (exists text s0,
        pdfParse w (buffer f) st = (Ok text, s0) /\
        extractEntities w (truncate text) (originalname f) s0 = (Throw e, s))
  \/ (exists text s0 ent s1,
        pdfParse w (buffer f) st = (Ok text, s0) /\
        extractEntities w (truncate text) (originalname f) s0 = (Ok ent, s1) /\
        scoreResumeWithLLM w (truncate text) jdText s1 = (Throw e, s)).

End Spec.

(** ** More vocabulary: effects, shapes, and the queue's record *)

Module Shape.
Import Text Regex Js Json Server.

(** Every state change that [m] can make is one that [P] allows. *)
Definition effect {A} (m : M A) (P : state -> state -> Prop) : Prop :=
  forall st o st', m st = (o, st') -> P st st'.

Definition pdf_count (st : state) : nat :=
  length (List.filter (fun e => negb (is_fetch e)) (log st)).

(** Between [st] and [st'] the name cache is as it was, the log grew by
    [pdfs] text extractions and by at least [lo] and at most [hi] calls. *)
Definition spent (pdfs lo hi : nat) (st st' : state) : Prop :=
  pdf_count st' = pdf_count st + pdfs /\
  fetch_count st + lo <= fetch_count st' <= fetch_count st + hi.

(** Every name that the cache of [st] serves is served by that of [st']. *)
Definition cache_kept (st st' : state) : Prop :=
  forall id, truthy (cache_get (nameCache st) id) = true ->
             cache_get (nameCache st') id = cache_get (nameCache st) id.

(** [v.k] when the access does not throw. *)
Definition field_of (v : jsval) (k : string) : jsval :=
  match get_field v k with
  | Ok x => x
  | Throw _ => JUndefined
  end.

(** Every character class of [r] accepts only characters that [P] accepts. *)
Fixpoint cls_all (P : ascii -> bool) (r : regex) : Prop :=
  match r with
  | Cls p => forall c, p c = true -> P c = true
  | Cat a b | Alt a b => cls_all P a /\ cls_all P b
  | Star a | Group _ a => cls_all P a
  | Eps | Bol | Eol => True
  end.

(** The requests that completed, in the order in which they did. *)
Definition finished (tr : list Throttle.obs) : list nat :=
  flat_map (fun o => match o with Throttle.Finished t _ => [t] | _ => [] end) tr.

(** What the queue keeps besides [Throttle.invariant]. *)
Definition bookkeeping (st : Throttle.state) : Prop :=
  (Throttle.isProcessing st = false -> Throttle.requestQueue st = []) /\
  finished (Throttle.trace st) ++ Throttle.in_flight st
  = Throttle.started (Throttle.trace st).

(** The events that bring the head of the queue into flight from a state
    in which a request is in flight or the delay is running. *)
Definition drain (st : Throttle.state) : list Throttle.event :=
  match Throttle.in_flight st, Throttle.timers st with
  | t :: _, _ =>
      [Throttle.Settle t; Throttle.Tick Throttle.REQUEST_DELAY;
       Throttle.Timeout (Throttle.now st + Throttle.REQUEST_DELAY)]
  | [], due :: _ => [Throttle.Tick (due - Throttle.now st); Throttle.Timeout due]
  | [], [] => []
  end.

(** Every match of [r] takes a character that [Q] accepts. *)
Fixpoint takes (Q : ascii -> bool) (r : regex) : Prop :=
  match r with
  | Cls p => forall c, p c = true -> Q c = true
  | Cat a b => takes Q a \/ takes Q b
  | Alt a b => takes Q a /\ takes Q b
  | Group _ a => takes Q a
  | Star _ | Eps | Bol | Eol => False
  end.

(** Every match of [r] begins with a character that [P] accepts. *)
Fixpoint starts (P : ascii -> bool) (r : regex) : Prop :=
  match r with
  | Cls p => forall c, p c = true -> P c = true
  | Cat Bol b => starts P b
  | Cat a _ => starts P a
  | Group _ a => starts P a
  | Alt a b => starts P a /\ starts P b
  | Star _ | Eps | Bol | Eol => False
  end.

(** [r] ends with [$]. *)
Fixpoint ends_eol (r : regex) : Prop :=
  match r with
  | Cat _ b => ends_eol b
  | Eol => True
  | _ => False
  end.

(** A character of a name: a letter, white space, a hyphen or an apostrophe. *)
Definition name_char (c : ascii) : bool :=
  is_alpha c || is_space c || one_of "-'" c.

(** A character of a telephone number as it is reported. *)
Definition dial_char (c : ascii) : bool := is_digit c || is_char "+" c.

(** A character of an e-mail address. *)
Definition mail_char (c : ascii) : bool :=
  is_alnum c || one_of "._%+-@" c.

(** Between [st] and [st'] every name that the cache served is still
    served, the entries of the files not named in [ids] are as they were,
    [pdfs] texts were extracted and at most [hi] calls were made. *)
Definition touches (ids : list string) (pdfs hi : nat) (st st' : state) : Prop :=
  cache_kept st st' /\
  (forall id, ~ In id ids ->
     cache_get (nameCache st') id = cache_get (nameCache st) id) /\
  spent pdfs 0 hi st st'.

(** The outermost value under construction is an object. *)
Definition object_at_bottom (ks : list frame) : Prop :=
  exists ks' acc key, ks = ks' ++ [KObj acc key].

(** The parser is reading an object, or has read one. *)
Definition reading_object (st : parse_state) : Prop :=
  match st with
  | PValue ks | PArrFirst ks | PArrNext _ ks => object_at_bottom ks
  | PObjFirst ks | PObjKey _ ks | PObjColon _ _ ks | PObjNext _ ks =>
      ks = [] \/ object_at_bottom ks
  | PDone v => exists m, v = JObj m
  end.

(** Processing [f] from state [st] succeeds at every step and gives the
    entry [r], leaving state [s]: the entry carries the name of the file,
    the entities found in its text, the score of the scoring reply and
    the assessment that the reply gives. *)
Definition step_success (w : world) (jdText : string) (f : file)
    (st : state) (r : RankedResult) (s : state) : Prop :=
  exists text s0 ent s1 llm,
    pdfParse w (buffer f) st = (Ok text, s0) /\
    extractEntities w (truncate text) (originalname f) s0 = (Ok ent, s1) /\
    scoreResumeWithLLM w (truncate text) jdText s1 = (Ok llm, s) /\
    r = Ranked (originalname f)
          (e_candidate_name ent) (e_email ent) (e_phone ent) (e_linkedin ent)
          (match_score llm)
          (field_of (reply llm) "skills_match")
          (field_of (reply llm) "experience_fit")
          (field_of (reply llm) "seniority_fit")
          (field_of (reply llm) "summary").

(** The entries of a run over the resumes, one resume after the other,
    each from the state that the one before it left: the scored entry of
    a resume whose steps all succeed, the failure entry of a resume one
    of whose steps fails. *)
Inductive outcomes (w : world) (jdText : string)
  : list file -> state -> list RankedResult -> state -> Prop :=
  | outcomes_nil st : outcomes w jdText [] st [] st
  | outcomes_scored f fs st r s rs s' :
      step_success w jdText f st r s ->
      outcomes w jdText fs s rs s' ->
      outcomes w jdText (f :: fs) st (r :: rs) s'
  | outcomes_failed f fs st e s rs s' :
      Spec.step_failure w jdText f st e s ->
      outcomes w jdText fs s rs s' ->
      outcomes w jdText (f :: fs) st (failure_result f e :: rs) s'.



(** The same process started with another API key. *)
Definition with_key (w : world) (key : string) : world :=
  World key (env_BASE_URL w) (env_MODEL w) (pdf_text w) (provider_reply w).

End Shape.

(** ** The single-match endpoint *)

Module Single.
Import Text Js Server.

(** [req.files] of [POST /api/match]. *)
Record match_files : Type := MatchFiles {
  resume : option (list file);
  match_jd : option (list file)
}.

Record match_request : Type := MatchRequest { match_req_files : option match_files }.

(** The body of a successful answer: the entities, then the score, the
    seniority and the summary of the scoring reply. *)
Record MatchReply : Type := Matched {
  m_candidate_name : jsval;
  m_email : string;
  m_phone : string;
  m_linkedin : string;
  m_match_score : Z;
  m_seniority_fit : jsval;
  m_summary : jsval
}.

Inductive match_body : Type :=
  | MatchError (error : string)
  | MatchBody (result : MatchReply).

Record match_response : Type := MatchHttp { m_status : nat; m_payload : match_body }.

(** [req.files?.resume?.[0]] *)
Definition resume_file (req : match_request) : option file :=
  match match_req_files req with
  | Some fs => match resume fs with Some (f :: _) => Some f | _ => None end
  | None => None
  end.

(** [req.files?.jd?.[0]] *)
Definition match_jd_file (req : match_request) : option file :=
  match match_req_files req with
  | Some fs => match match_jd fs with Some (f :: _) => Some f | _ => None end
  | None => None
  end.

Section WithWorld.
Variable w : world.

(** The handler of [POST /api/match]. *)
Definition single_match (req : match_request) : M match_response :=
  try_catch
    (match resume_file req, match_jd_file req with
     | Some resumeFile, Some jdFile =>
         let! text := pdfParse w (buffer resumeFile) in
         let resumeText := truncate text in
         let! jd_text := pdfParse w (buffer jdFile) in
         let jdText := truncate jd_text in
         let! entities := extractEntities w resumeText (originalname resumeFile) in
         let! llmResult := scoreResumeWithLLM w resumeText jdText in
         let! seniority := lift (get_field (reply llmResult) "seniority_fit") in
         let! summ := lift (get_field (reply llmResult) "summary") in
         ret (MatchHttp 200
                (MatchBody
                   (Matched (e_candidate_name entities) (e_email entities)
                      (e_phone entities) (e_linkedin entities)
                      (match_score llmResult) seniority summ)))
     | _, _ => ret (MatchHttp 400 (MatchError "Missing resume or JD file"))
     end)
    (fun err => ret (MatchHttp 500 (MatchError (message err)))).

End WithWorld.

(** Two states look the same to the server when they hold the same names
    and as many calls were made in both. *)
Definition same_view (s1 s2 : state) : Prop :=
  nameCache s1 = nameCache s2 /\ fetch_count s1 = fetch_count s2.

(** [m] does the same from states that look the same. *)
Definition respects {A} (m : M A) : Prop :=
  forall s1 s2, same_view s1 s2 ->
    fst (m s1) = fst (m s2) /\ same_view (snd (m s1)) (snd (m s2)).

End Single.

(** ** The results table of the page *)

Module Frontend.
Import Js Server.

(** The colour class that [addResultRow] gives to the score cell. *)
Definition scoreClass (match_score : Z) : string :=
  if (75 <=? match_score)%Z then "score-high"
  else if (50 <=? match_score)%Z then "score-medium"
  else "score-low".

(** The score cells of the rows that [processBatch] appends, one per
    entry of [ranked_results], in the order of the list. *)
Definition row_classes (ranked_results : list RankedResult) : list string :=
  List.map (fun result => scoreClass (r_match_score result)) ranked_results.

End Frontend.

(** ** More sample inputs *)

Module Samples.
Import Text Regex Js Patterns Server Single Examples.

(** One caller whose request completes and whose delay runs out. *)
Definition one_call : list Throttle.event :=
  [ Throttle.Call 1; Throttle.Tick 40; Throttle.Settle 1;
    Throttle.Tick 500; Throttle.Timeout 540 ].

Definition after_one_call : Throttle.state :=
  Eval vm_compute in
    match Throttle.run Throttle.init one_call with
    | Some st => st
    | None => Throttle.init
    end.

(** Two callers in a row: the second waits behind the first. *)
Definition two_calls : list Throttle.event :=
  [ Throttle.Call 1; Throttle.Call 2; Throttle.Tick 30 ].

Definition after_two_calls : Throttle.state :=
  Eval vm_compute in
    match Throttle.run Throttle.init two_calls with
    | Some st => st
    | None => Throttle.init
    end.

(** A reply that scores 85. *)
Definition world_85 : world := scoring_world "{\'match_score\': 85}".

Definition scored_85 : outcome llm_result * state :=
  Eval vm_compute in scoreResumeWithLLM world_85 "resume" "jd" fresh.

Definition reply_85 : llm_result :=
  Eval vm_compute in
    match fst scored_85 with
    | Ok r => r
    | Throw _ => LlmResult 0 JNull
    end.

(** Two texts that differ after their first 800 characters. *)
Definition long_ann : string := str (repeat "a"%char 800 ++ chars " Ann Lee").
Definition long_bob : string := str (repeat "a"%char 800 ++ chars " Bob Ray").

(** A provider that knows no name. *)
Definition unknown_world : world := world_of [chat "{\'name\': \'Unknown\'}"].

(** A resume, read without a provider. *)
Definition john_cv : string := "Curriculum Vitae
JOHN SMITH
john.smith@example.org
+91 9876543210
www.LinkedIn.com/in/john-smith".

Definition no_provider : world := world_of [].

Definition john_phone_match : match_result :=
  Eval vm_compute in
    match exec phoneRegex john_cv with
    | Some m => m
    | None => MatchResult 0 "" []
    end.

Definition john_outcome : outcome entities * state :=
  Eval vm_compute in extractEntities no_provider john_cv "john.pdf" fresh.

Definition john_entities : entities :=
  Eval vm_compute in
    match fst john_outcome with
    | Ok e => e
    | Throw _ => Entities JNull "" "" ""
    end.

(** One resume and a job description, for the single-match endpoint. *)
Definition ann_match : match_request :=
  MatchRequest (Some (MatchFiles (Some [ann]) (Some [job]))).

Definition ann_outcome : outcome match_response * state :=
  Eval vm_compute in single_match ranking_world ann_match fresh.

Definition ann_matched : MatchReply :=
  Eval vm_compute in
    match fst ann_outcome with
    | Ok (MatchHttp _ (MatchBody r)) => r
    | _ => Matched JNull "" "" "" 0 JNull JNull
    end.

(** A provider that answers the name and then stops answering. *)
Definition name_only_world : world := world_of [chat "{\'name\': \'Ann Lee\'}"].

Definition ann_failed : outcome match_response * state :=
  Eval vm_compute in single_match name_only_world ann_match fresh.

End Samples.

(** * Properties of the server *)

(** ** Reasoning about computations *)

Module MonadFacts.
Import Js Server.

Lemma bind_ok {A B} (m : M A) (k : A -> M B) st b st' :
  bind m k st = (Ok b, st') ->
  exists a st1, m st = (Ok a, st1) /\ k a st1 = (Ok b, st').
Proof.
  unfold bind. destruct (m st) as [[a|e] st1]; intros H.
  - exists a, st1. split; [reflexivity | exact H].
  - discriminate H.
Qed.

Lemma bind_throw {A B} (m : M A) (k : A -> M B) st e st' :
  bind m k st = (Throw e, st') ->
  m st = (Throw e, st') \/
  exists a st1, m st = (Ok a, st1) /\ k a st1 = (Throw e, st').
Proof.
  unfold bind. destruct (m st) as [[a|e0] st1]; intros H.
  - right. exists a, st1. split; [reflexivity | exact H].
  - left. inversion H. reflexivity.
Qed.

Lemma bind_step {A B} (m : M A) (k : A -> M B) st a st1 :
  m st = (Ok a, st1) -> bind m k st = k a st1.
Proof. unfold bind. intros ->. reflexivity. Qed.

Lemma bind_fail {A B} (m : M A) (k : A -> M B) st e st1 :
  m st = (Throw e, st1) -> bind m k st = (Throw e, st1).
Proof. unfold bind. intros ->. reflexivity. Qed.

Lemma lift_ok {A} (o : outcome A) st a st' :
  lift o st = (Ok a, st') -> o = Ok a /\ st' = st.
Proof. unfold lift. intros H. inversion H. split; reflexivity. Qed.

(** A [try]/[catch] whose handler returns normally always returns normally. *)
Lemma try_catch_total {A} (m : M A) (h : exn -> A) st :
  exists a st', try_catch m (fun e => ret (h e)) st = (Ok a, st').
Proof.
  unfold try_catch, ret. destruct (m st) as [[a|e] st1]; eauto.
Qed.

End MonadFacts.

(** ** Ranking *)

Module RankFacts.
Import Js Server Spec.

Lemma insert_sorted_perm {A} (cmp : A -> A -> Z) x l :
  Permutation (insert_sorted cmp x l) (x :: l).
Proof.
  induction l as [|y l IH]; simpl.
  - apply Permutation_refl.
  - destruct (cmp x y <=? 0)%Z.
    + apply Permutation_refl.
    + eapply perm_trans; [apply perm_skip, IH | apply perm_swap].
Qed.

Lemma sort_perm {A} (cmp : A -> A -> Z) l : Permutation (sort cmp l) l.
Proof.
  induction l as [|x l IH]; simpl.
  - apply perm_nil.
  - eapply perm_trans; [apply insert_sorted_perm | apply perm_skip, IH].
Qed.

Lemma sort_length {A} (cmp : A -> A -> Z) l : length (sort cmp l) = length l.
Proof. apply Permutation_length, sort_perm. Qed.

Lemma insert_keeps_order x l :
  StronglySorted score_ge l ->
  StronglySorted score_ge (insert_sorted by_score_desc x l).
Proof.
  induction 1 as [|y l Hl IH Hy]; simpl.
  - repeat constructor.
  - unfold by_score_desc at 1.
    destruct (Z.leb_spec (r_match_score y - r_match_score x) 0) as [Hle|Hgt].
    + constructor; [constructor; assumption|].
      constructor; [unfold score_ge; lia|].
      eapply Forall_impl; [exact Hy|].
      unfold score_ge. intros z Hz. lia.
    + constructor; [exact IH|].
      eapply Permutation_Forall; [symmetry; apply insert_sorted_perm|].
      constructor; [unfold score_ge; lia | exact Hy].
Qed.

Lemma sort_keeps_order l : StronglySorted score_ge (sort by_score_desc l).
Proof.
  induction l as [|x l IH]; simpl.
  - constructor.
  - apply insert_keeps_order, IH.
Qed.

Lemma insert_keeps_ties s x l :
  List.filter (has_score s) (insert_sorted by_score_desc x l)
  = List.filter (has_score s) (x :: l).
Proof.
  induction l as [|y l IH]; [reflexivity|].
  cbn [insert_sorted]. unfold by_score_desc at 1.
  destruct (Z.leb_spec (r_match_score y - r_match_score x) 0) as [Hle|Hgt];
    [reflexivity|].
  cbn [List.filter] in *. rewrite IH. unfold has_score.
  destruct (Z.eqb_spec (r_match_score x) s), (Z.eqb_spec (r_match_score y) s);
    try reflexivity.
  lia.
Qed.

Lemma sort_keeps_ties s l :
  List.filter (has_score s) (sort by_score_desc l) = List.filter (has_score s) l.
Proof.
  induction l as [|x l IH]; [reflexivity|].
  cbn [sort]. rewrite insert_keeps_ties. cbn [List.filter]. rewrite IH.
  reflexivity.
Qed.

Lemma sorted_head_max a l x :
  StronglySorted score_ge (a :: l) -> In x (a :: l) ->
  (r_match_score x <= r_match_score a)%Z.
Proof.
  intros Hs [<- | Hin]; [lia|].
  apply StronglySorted_inv in Hs as [_ Hall].
  rewrite List.Forall_forall in Hall. apply (Hall x Hin).
Qed.

(** A list is determined by being ranked and by the order of its entries
    within each score: the sort used here yields the only such
    rearrangement. *)
Lemma ranked_stable_unique l1 : forall l2,
  StronglySorted score_ge l1 -> StronglySorted score_ge l2 ->
  (forall s, List.filter (has_score s) l1 = List.filter (has_score s) l2) ->
  l1 = l2.
Proof.
  induction l1 as [|a l1 IH]; intros l2 H1 H2 Hf.
  - destruct l2 as [|b l2]; [reflexivity|].
    specialize (Hf (r_match_score b)). cbn [List.filter] in Hf.
    replace (has_score (r_match_score b) b) with true in Hf
      by (unfold has_score; symmetry; apply Z.eqb_refl).
    discriminate.
  - destruct l2 as [|b l2].
    { specialize (Hf (r_match_score a)). cbn [List.filter] in Hf.
      replace (has_score (r_match_score a) a) with true in Hf
        by (unfold has_score; symmetry; apply Z.eqb_refl).
      discriminate. }
    assert (Hab : r_match_score a = r_match_score b).
    { assert (Ha : In a (b :: l2)).
      { eapply proj1, List.filter_In. rewrite <- (Hf (r_match_score a)).
        apply List.filter_In. split; [left; reflexivity|].
        unfold has_score. apply Z.eqb_refl. }
      assert (Hb : In b (a :: l1)).
      { eapply proj1, List.filter_In. rewrite (Hf (r_match_score b)).
        apply List.filter_In. split; [left; reflexivity|].
        unfold has_score. apply Z.eqb_refl. }
      pose proof (sorted_head_max _ _ _ H2 Ha). pose proof (sorted_head_max _ _ _ H1 Hb).
      lia. }
    assert (Htails : forall s, List.filter (has_score s) l1 = List.filter (has_score s) l2
                               /\ (s = r_match_score a -> a = b)).
    { intros s. specialize (Hf s). cbn [List.filter] in Hf.
      replace (has_score s b) with (has_score s a) in Hf
        by (unfold has_score; rewrite Hab; reflexivity).
      destruct (has_score s a) eqn:Ea.
      - injection Hf as Hhead Htail. split; [exact Htail | intros _; exact Hhead].
      - split; [exact Hf|]. intros ->. unfold has_score in Ea.
        rewrite Z.eqb_refl in Ea. discriminate. }
    f_equal.
    + apply (Htails (r_match_score a)). reflexivity.
    + apply IH.
      * apply StronglySorted_inv in H1 as [H1 _]. exact H1.
      * apply StronglySorted_inv in H2 as [H2 _]. exact H2.
      * intros s. apply Htails.
Qed.

Lemma sort_is_the_stable_ranking l l' :
  StronglySorted score_ge l' ->
  (forall s, List.filter (has_score s) l' = List.filter (has_score s) l) ->
  l' = sort by_score_desc l.
Proof.
  intros Hs Hf. apply ranked_stable_unique; [exact Hs | apply sort_keeps_order|].
  intros s. rewrite sort_keeps_ties. apply Hf.
Qed.

End RankFacts.

(** ** The loop over the resumes *)

Module LoopFacts.
Import Js Server MonadFacts.

Section WithWorld.
Variable w : world.

Lemma process_resume_cases jdText f st :
  (exists r st', process_resume_try w jdText f st = (Ok r, st') /\
                 process_resume w jdText f st = (Ok r, st')) \/
  (exists e st', process_resume_try w jdText f st = (Throw e, st') /\
                 process_resume w jdText f st = (Ok (failure_result f e), st')).
Proof.
  unfold process_resume, try_catch.
  destruct (process_resume_try w jdText f st) as [[r|e] st'].
  - left. exists r, st'. split; reflexivity.
  - right. exists e, st'. split; reflexivity.
Qed.

Lemma process_resume_try_name jdText f st r st' :
  process_resume_try w jdText f st = (Ok r, st') ->
  resume_name r = originalname f.
Proof.
  unfold process_resume_try. intros H.
  repeat (apply bind_ok in H as (? & ? & _ & H)).
  unfold ret in H. inversion H. reflexivity.
Qed.

Lemma process_resume_total jdText f st :
  exists r st', process_resume w jdText f st = (Ok r, st') /\
                resume_name r = originalname f.
Proof.
  destruct (process_resume_cases jdText f st)
    as [(r & st' & Htry & H) | (e & st' & Htry & H)].
  - exists r, st'. split; [exact H | eapply process_resume_try_name, Htry].
  - exists (failure_result f e), st'. split; [exact H | reflexivity].
Qed.

(** The loop never throws, and pushes one result per file, in order. *)
Lemma process_resumes_total jdText files st :
  exists rs st',
    (forall acc, process_resumes w jdText files acc st = (Ok (acc ++ rs), st')) /\
    List.map resume_name rs = List.map originalname files.
Proof.
  revert st. induction files as [|f files IH]; intros st.
  - exists [], st. split; [|reflexivity].
    intros acc. cbn. unfold ret. rewrite app_nil_r. reflexivity.
  - destruct (process_resume_total jdText f st) as (r & st1 & Hr & Hname).
    destruct (IH st1) as (rs & st2 & Hrs & Hnames).
    exists (r :: rs), st2. split.
    + intros acc. cbn [process_resumes].
      rewrite (bind_step _ _ _ _ _ Hr), Hrs, <- app_assoc. reflexivity.
    + cbn. rewrite Hname, Hnames. reflexivity.
Qed.

Lemma process_resumes_cons jdText f files st r st1 rs st2 :
  process_resume w jdText f st = (Ok r, st1) ->
  process_resumes w jdText files [] st1 = (Ok rs, st2) ->
  process_resumes w jdText (f :: files) [] st = (Ok (r :: rs), st2).
Proof.
  intros Hr Hrs. cbn [process_resumes]. rewrite (bind_step _ _ _ _ _ Hr).
  destruct (process_resumes_total jdText files st1) as (rs' & st' & H & _).
  rewrite (H []) in Hrs. inversion Hrs; subst. rewrite (H ([] ++ [r])). reflexivity.
Qed.

Lemma process_resumes_app jdText files1 files2 st rs1 st1 rs2 st2 :
  process_resumes w jdText files1 [] st = (Ok rs1, st1) ->
  process_resumes w jdText files2 [] st1 = (Ok rs2, st2) ->
  process_resumes w jdText (files1 ++ files2) [] st = (Ok (rs1 ++ rs2), st2).
Proof.
  revert st rs1. induction files1 as [|f files1 IH]; intros st rs1 H1 H2.
  - cbn in H1. unfold ret in H1. inversion H1; subst. exact H2.
  - destruct (process_resume_total jdText f st) as (r & sa & Hr & _).
    destruct (process_resumes_total jdText files1 sa) as (rs & sb & Hrs & _).
    rewrite (process_resumes_cons _ _ _ _ _ _ _ _ Hr (Hrs [])) in H1.
    inversion H1; subst.
    cbn [app]. eapply process_resumes_cons; [exact Hr|].
    eapply IH; [apply (Hrs []) | exact H2].
Qed.

Lemma process_resumes_length jdText files st rs st' :
  process_resumes w jdText files [] st = (Ok rs, st') ->
  length rs = length files.
Proof.
  destruct (process_resumes_total jdText files st) as (rs' & s' & H & Hn).
  rewrite (H []). intros E. inversion E; subst.
  rewrite <- (length_map resume_name), Hn, length_map. reflexivity.
Qed.

End WithWorld.
End LoopFacts.

(** ** The batch endpoint *)

Module BatchFacts.
Import Js Server MonadFacts RankFacts LoopFacts Spec Examples.

Section WithWorld.
Variable w : world.

Lemma step_failure_throws jdText f st e s :
  step_failure w jdText f st e s ->
  process_resume_try w jdText f st = (Throw e, s).
Proof.
  unfold process_resume_try.
  intros [H | [(text & s0 & Hp & He) | (text & s0 & ent & s1 & Hp & He & Hs)]].
  - apply bind_fail, H.
  - rewrite (bind_step _ _ _ _ _ Hp). apply bind_fail, He.
  - rewrite (bind_step _ _ _ _ _ Hp), (bind_step _ _ _ _ _ He).
    apply bind_fail, Hs.
Qed.

(** C9. A batch request whose resume set is empty or whose job description
    is missing is answered with status 400 and an error body; the state is
    left as it was: no text was extracted and no call was made. *)
Theorem batch_rejects_incomplete_request req st :
  resume_files req = [] \/ jd_file req = None ->
  batch_match w req st
  = (Ok (Http 400 (ErrorBody "Missing resumes or JD file")), st).
Proof.
  intros H. unfold batch_match, try_catch.
  destruct H as [H | H]; rewrite H; cbn.
  - reflexivity.
  - rewrite orb_true_r. reflexivity.
Qed.

(** C1, as amended. When the resume list is not empty, the job description
    is present and its text can be extracted, the response has status 200,
    [total] is the number of resumes submitted and [ranked_results] holds
    exactly one entry per submitted resume, whatever happens to the
    individual resumes. *)
Theorem batch_size_conserved req st jdFile jd_text :
  resume_files req <> [] ->
  jd_file req = Some jdFile ->
  pdf_text w (buffer jdFile) = Ok jd_text ->
  exists rr st',
    batch_match w req st
    = (Ok (Http 200 (BatchBody (length (resume_files req)) rr)), st') /\
    length rr = length (resume_files req) /\
    Permutation (List.map resume_name rr)
                (List.map originalname (resume_files req)).
Proof.
  intros Hne Hjd Hpdf. unfold batch_match, try_catch. rewrite Hjd.
  destruct (resume_files req) as [|f0 fs] eqn:Hfs; [congruence|].
  cbn [length Nat.eqb orb is_Some_b negb].
  set (st0 := State (nameCache st) (log st ++ [EvPdfParse (buffer jdFile)])).
  assert (Hp : pdfParse w (buffer jdFile) st = (Ok jd_text, st0)).
  { unfold pdfParse. rewrite Hpdf. reflexivity. }
  rewrite (bind_step _ _ _ _ _ Hp).
  destruct (process_resumes_total w (truncate jd_text) (f0 :: fs) st0)
    as (rs & st1 & Hrs & Hnames).
  rewrite (bind_step _ _ _ _ _ (Hrs [])). cbn [app]. unfold ret.
  assert (Hlen : length (sort by_score_desc rs) = S (length fs)).
  { rewrite sort_length, <- (length_map resume_name), Hnames, length_map.
    reflexivity. }
  exists (sort by_score_desc rs), st1. rewrite Hlen.
  repeat split.
  rewrite <- Hnames. apply Permutation_map, sort_perm.
Qed.

(** C2. Whenever the batch endpoint answers with a result list, the list is
    the per-resume results (which come in submission order) rearranged so
    that scores never increase along it, and entries with the same score
    keep the order in which their resumes were submitted. *)
Theorem ranked_results_sorted_stable req st code total rr st' :
  batch_match w req st = (Ok (Http code (BatchBody total rr)), st') ->
  StronglySorted score_ge rr /\
  exists jdText st0 results,
    process_resumes w jdText (resume_files req) [] st0 = (Ok results, st') /\
    List.map resume_name results = List.map originalname (resume_files req) /\
    Permutation rr results /\
    forall s, List.filter (has_score s) rr = List.filter (has_score s) results.
Proof.
  unfold batch_match, try_catch.
  destruct ((length (resume_files req) =? 0)%nat || negb (is_Some_b (jd_file req))).
  { cbn. intros H. inversion H. }
  match goal with
  | |- context [bind ?m ?k st] => destruct (bind m k st) as [[r|e] s1] eqn:Hb
  end; [|cbn; intros H; inversion H].
  intros H. inversion H; subst; clear H.
  apply bind_ok in Hb as (jd_text & st0 & _ & Hb).
  apply bind_ok in Hb as (results & s2 & Hrs & Hb).
  unfold ret in Hb. inversion Hb; subst; clear Hb.
  split; [apply sort_keeps_order|].
  exists (truncate jd_text), st0, results.
  destruct (process_resumes_total w (truncate jd_text) (resume_files req) st0)
    as (rs & sx & Hall & Hnames).
  rewrite (Hall []) in Hrs. inversion Hrs; subst.
  repeat split.
  - apply (Hall []).
  - exact Hnames.
  - apply sort_perm.
  - intros s. apply sort_keeps_ties.
Qed.

End WithWorld.
End BatchFacts.

Module BatchWitnesses.
Import Js Server Spec Examples BatchFacts.

Lemma batch_rejects_incomplete_request_witness :
  (resume_files (batch [] job) = [] \/ jd_file (batch [] job) = None) /\
  batch_match ranking_world (batch [] job) fresh
  = (Ok (Http 400 (ErrorBody "Missing resumes or JD file")), fresh).
Proof.
  split; [left; reflexivity|].
  apply batch_rejects_incomplete_request. left. reflexivity.
Defined.

Lemma batch_size_conserved_witness :
  exists rr st',
    batch_match ranking_world four_resumes fresh
    = (Ok (Http 200 (BatchBody 4 rr)), st') /\
    length rr = 4 /\
    Permutation (List.map resume_name rr)
                ["ann.pdf"; "bob.pdf"; "cyd.pdf"; "dee.pdf"].
Proof.
  apply (batch_size_conserved ranking_world four_resumes fresh job
           "Backend developer, five years").
  - discriminate.
  - reflexivity.
  - reflexivity.
Defined.

(** C1, as stated, fails: two resumes and a job description whose text
    cannot be extracted are answered with status 500 and no result list. *)
Lemma batch_size_unreadable_jd_counterexample :
  resume_files (batch [ann; bob] corrupt_job) = [ann; bob] /\
  jd_file (batch [ann; bob] corrupt_job) = Some corrupt_job /\
  fst (batch_match ranking_world (batch [ann; bob] corrupt_job) fresh)
  = Ok (Http 500 (ErrorBody "Invalid PDF structure")) /\
  ~ exists total rr st',
      batch_match ranking_world (batch [ann; bob] corrupt_job) fresh
      = (Ok (Http 200 (BatchBody total rr)), st').
Proof.
  split; [reflexivity|]. split; [reflexivity|]. split; [vm_compute; reflexivity|].
  intros (total & rr & st' & H). vm_compute in H. discriminate H.
Qed.

Lemma ranked_results_sorted_stable_witness :
  batch_match ranking_world four_resumes fresh
  = (Ok (Http 200 (BatchBody 4 ranked_example)), snd ranking_outcome) /\
  List.map resume_name ranked_example = ["cyd.pdf"; "ann.pdf"; "dee.pdf"; "bob.pdf"] /\
  List.map r_match_score ranked_example = [85; 70; 70; 0]%Z /\
  StronglySorted score_ge ranked_example /\
  exists jdText st0 results,
    process_resumes ranking_world jdText (resume_files four_resumes) [] st0
    = (Ok results, snd ranking_outcome) /\
    List.map resume_name results = List.map originalname (resume_files four_resumes) /\
    Permutation ranked_example results /\
    forall s, List.filter (has_score s) ranked_example
              = List.filter (has_score s) results.
Proof.
  split; [vm_compute; reflexivity|].
  split; [reflexivity|]. split; [reflexivity|].
  apply (ranked_results_sorted_stable ranking_world four_resumes fresh 200 4
           ranked_example (snd ranking_outcome)).
  vm_compute. reflexivity.
Defined.

End BatchWitnesses.

(** ** The matcher *)

Module RegexFacts.
Import Text Regex Spec.

(** Whatever the matcher accepts is a match in the sense of [steps]. *)
Lemma rmatch_sound r :
  forall c k res, rmatch r c k = Some res ->
  exists c', steps r c c' /\ k c' = Some res.
Proof.
  induction r as [|p|a IHa b IHb|a IHa b IHb|a IHa|i a IHa| |];
    intros c k res H; cbn [rmatch] in H.
  - exists c. split; [constructor | exact H].
  - destruct (rest c) as [|x xs] eqn:Hrest; [discriminate|].
    destruct (p x) eqn:Hp; [|discriminate].
    eexists. split; [eapply steps_cls; eassumption | exact H].
  - apply IHa in H as (c1 & Ha & H). apply IHb in H as (c2 & Hb & H).
    exists c2. split; [econstructor; eassumption | exact H].
  - destruct (rmatch a c k) as [x|] eqn:Ha.
    + inversion H; subst. apply IHa in Ha as (c1 & Ha & Hk).
      exists c1. split; [apply steps_alt_l, Ha | exact Hk].
    + apply IHb in H as (c1 & Hb & Hk).
      exists c1. split; [apply steps_alt_r, Hb | exact Hk].
  - remember (S (length (rest c))) as n eqn:Hn. clear Hn. revert c H.
    induction n as [|n IHn]; intros c H; cbn [star_loop] in H.
    + exists c. split; [constructor | exact H].
    + match type of H with
      | match ?m with _ => _ end = _ => destruct m as [x|] eqn:Hm
      end.
      * inversion H; subst. apply IHa in Hm as (c1 & Ha & Hm).
        destruct (pos c <? pos c1)%nat; [|discriminate].
        apply IHn in Hm as (c2 & Hs & Hk).
        exists c2. split; [eapply steps_star_more; eassumption | exact Hk].
      * exists c. split; [constructor | exact H].
  - apply IHa in H as (c1 & Ha & H).
    eexists. split; [apply steps_group, Ha | exact H].
  - destruct (Nat.eqb_spec (pos c) 0); [|discriminate].
    exists c. split; [constructor; assumption | exact H].
  - destruct (rest c) eqn:Hrest; [|discriminate].
    exists c. split; [constructor; assumption | exact H].
Qed.

(** A match consumes a prefix of what was left. *)
Lemma steps_consume r c c' :
  steps r c c' ->
  exists word, rest c = word ++ rest c' /\ pos c' = pos c + length word.
Proof.
  induction 1 as [c|p c x xs Hr Hp|a b c c1 c2 _ IH1 _ IH2|a b c c1 _ IH
                 |a b c c1 _ IH|a c|a c c1 c2 _ IH1 _ IH2|i a c c1 _ IH|c Hp|c Hr].
  - exists []. split; [reflexivity | cbn; lia].
  - exists [x]. cbn. split; [exact Hr | lia].
  - destruct IH1 as (w1 & E1 & P1), IH2 as (w2 & E2 & P2).
    exists (w1 ++ w2). rewrite <- app_assoc, <- E2, length_app. split; [exact E1 | lia].
  - exact IH.
  - exact IH.
  - exists []. split; [reflexivity | cbn; lia].
  - destruct IH1 as (w1 & E1 & P1), IH2 as (w2 & E2 & P2).
    exists (w1 ++ w2). rewrite <- app_assoc, <- E2, length_app. split; [exact E1 | lia].
  - exact IH.
  - exists []. split; [reflexivity | cbn; lia].
  - exists []. split; [reflexivity | cbn; lia].
Qed.



(** *** Strings *)

Lemma chars_str l : chars (str l) = l.
Proof. apply list_ascii_of_string_of_list_ascii. Qed.

Lemma str_chars s : str (chars s) = s.
Proof. apply string_of_list_ascii_of_string. Qed.


Lemma app_left_nonempty a b : a <> "" -> a +:+ b <> "".
Proof. destruct a; [congruence | discriminate]. Qed.




End RegexFacts.

(** ** Integers and their decimal notation *)

Module NumberFacts.
Import Text Js RegexFacts.

Ltac eval_digit :=
  match goal with
  | |- context [digit_value 10 ?c] =>
      let v := eval vm_compute in (digit_value 10 c) in
      change (digit_value 10 c) with v
  end.

Lemma read_digits_acc d : forall n a,
  n = Npos a ->
  read_digits 10 (Some n) (uint_chars d) = Some (Npos (Pos.of_uint_acc d a)).
Proof.
  induction d; intros n a ->; cbn [uint_chars read_digits Pos.of_uint_acc];
    [reflexivity | ..]; eval_digit; cbv iota beta; apply IHd; lia.
Qed.

Lemma read_digits_zero d :
  read_digits 10 (Some 0%N) (uint_chars d) = Some (Pos.of_uint d).
Proof.
  induction d; cbn [uint_chars read_digits Pos.of_uint];
    [reflexivity | ..]; eval_digit; cbv iota beta;
    [exact IHd | apply read_digits_acc; lia ..].
Qed.

Lemma read_digits_start d :
  d <> Decimal.Nil ->
  read_digits 10 None (uint_chars d) = Some (Pos.of_uint d).
Proof.
  intros Hd. rewrite <- read_digits_zero.
  destruct d; [congruence | ..]; cbn [uint_chars read_digits]; eval_digit;
    reflexivity.
Qed.

Lemma to_uint_nonnil n : N.to_uint n <> Decimal.Nil.
Proof.
  destruct n; [discriminate | apply DecimalPos.Unsigned.to_uint_nonnil].
Qed.

(** Reading back the decimal digits of a number gives the number. *)
Lemma read_digits_N_chars n : read_digits 10 None (N_chars n) = Some n.
Proof.
  unfold N_chars. rewrite read_digits_start by apply to_uint_nonnil.
  f_equal. apply DecimalN.Unsigned.of_to.
Qed.

Lemma uint_chars_digits d : Forall (fun c => is_digit c = true) (uint_chars d).
Proof. induction d; cbn [uint_chars]; constructor; auto. Qed.

Lemma N_chars_nonempty n : N_chars n <> [].
Proof.
  unfold N_chars. pose proof (to_uint_nonnil n) as H.
  destruct (N.to_uint n); [congruence | discriminate ..].
Qed.

Lemma digit_not c x :
  is_digit x = false -> is_digit c = true -> is_char x c = false.
Proof.
  intros Hx Hc. unfold is_char. destruct (Ascii.eqb_spec x c); [|reflexivity].
  subst. congruence.
Qed.

Lemma digit_not_space c : is_digit c = true -> is_space c = false.
Proof.
  unfold is_digit, is_space, in_range. intros H.
  apply andb_true_iff in H as [H _]. apply N.leb_le in H.
  apply orb_false_iff. split.
  - apply andb_false_iff. right. apply N.leb_gt. lia.
  - apply N.eqb_neq. lia.
Qed.


Lemma drop_zeros_split l :
  exists m, l = zeros m ++ drop_zeros l.
Proof.
  induction l as [|c l [m IH]]; [exists 0; reflexivity|].
  cbn [drop_zeros]. destruct (is_char "0" c) eqn:Hc.
  - unfold is_char in Hc. apply Ascii.eqb_eq in Hc. subst c.
    exists (S m). cbn. f_equal. exact IH.
  - exists 0. reflexivity.
Qed.




Lemma read_zeros m acc :
  read_digits 10 (Some acc) (zeros m) = Some (acc * 10 ^ N.of_nat m)%N.
Proof.
  revert acc. induction m as [|m IH]; intros acc.
  - cbn. f_equal. lia.
  - cbn [zeros repeat read_digits]. fold (zeros m).
    change (digit_value 10 "0") with (Some 0%N). cbv iota beta.
    rewrite IH. f_equal. rewrite Nat2N.inj_succ, N.pow_succ_r'. lia.
Qed.

Lemma drop_zeros_all l : drop_zeros l = [] -> exists m, l = zeros m.
Proof.
  intros H. destruct (drop_zeros_split l) as [m Hm]. exists m.
  rewrite H, app_nil_r in Hm. exact Hm.
Qed.

(** A number other than zero has a digit other than zero. *)
Lemma significant_digits n :
  n <> 0%N -> rev (drop_zeros (rev (N_chars n))) <> [].
Proof.
  intros Hn E.
  assert (E' : drop_zeros (rev (N_chars n)) = []).
  { rewrite <- (rev_involutive (drop_zeros _)), E. reflexivity. }
  apply drop_zeros_all in E' as [m Hm].
  assert (Hall : N_chars n = zeros m).
  { rewrite <- (rev_involutive (N_chars n)), Hm. unfold zeros. apply rev_repeat. }
  pose proof (read_digits_N_chars n) as Hread. rewrite Hall in Hread.
  destruct m as [|m]; [discriminate|].
  cbn [zeros repeat read_digits] in Hread. fold (zeros m) in Hread.
  change (digit_value 10 "0") with (Some 0%N) in Hread. cbv iota beta in Hread.
  rewrite read_zeros in Hread. inversion Hread. lia.
Qed.

(** [parseInt] reads a number below one in magnitude, written without an
    exponent, as 0. *)
Lemma parseInt_fraction neg s e :
  s <> 0%N ->
  (-6 < e + Z.of_nat (length (N_chars s)) <= 0)%Z ->
  parseInt (JNum (Dec neg s e)) = Some 0%Z.
Proof.
  intros Hs Hn. unfold parseInt. cbn [to_string]. unfold number_to_string.
  rewrite chars_str. unfold number_chars.
  destruct (N.eqb_spec s 0) as [E|_]; [contradiction|]. cbv zeta.
  pose proof (significant_digits s Hs) as Hds.
  set (all := N_chars s) in *. set (ds := rev (drop_zeros (rev all))) in *.
  assert (Hk : 0 < length ds) by (destruct ds; [congruence | cbn; lia]).
  replace ((Z.of_nat (length ds) <=? e + Z.of_nat (length all))%Z &&
           (e + Z.of_nat (length all) <=? 21)%Z) with false.
  2:{ symmetry. apply andb_false_iff. left. apply Z.leb_gt. lia. }
  replace ((0 <? e + Z.of_nat (length all))%Z &&
           (e + Z.of_nat (length all) <=? 21)%Z) with false.
  2:{ symmetry. apply andb_false_iff. left. apply Z.ltb_ge. lia. }
  replace ((-6 <? e + Z.of_nat (length all))%Z &&
           (e + Z.of_nat (length all) <=? 0)%Z) with true.
  2:{ symmetry. apply andb_true_iff. split; [apply Z.ltb_lt | apply Z.leb_le]; lia. }
  destruct neg; reflexivity.
Qed.

End NumberFacts.

(** ** Binary64: the integers below 2^53 *)

Module Binary64Facts.
Import Binary64.
Local Open Scope Z_scope.



















End Binary64Facts.

(** ** The digits of a number *)

Module DigitFacts.
Import Text Js RegexFacts NumberFacts Binary64Facts.










End DigitFacts.

(** ** Scoring *)

Module ScoreFacts.
Import Text Js Server MonadFacts NumberFacts DigitFacts Spec Examples.

Lemma clamp_score_range v : (0 <= clamp_score v <= 100)%Z.
Proof. unfold clamp_score. lia. Qed.



Lemma clamp_score_zero v : parseInt v = Some 0%Z -> clamp_score v = 50%Z.
Proof. intros Hp. unfold clamp_score, parseInt_or_50. rewrite Hp. reflexivity. Qed.

Section WithWorld.
Variable w : world.

(** A score is returned only from a reply whose JSON object was parsed; it
    is the clamped reading of that object's [match_score]. *)
Lemma scoreResumeWithLLM_ok resumeText jdText st r st' :
  scoreResumeWithLLM w resumeText jdText st = (Ok r, st') ->
  exists raw,
    get_field (reply r) "match_score" = Ok raw /\
    match_score r = clamp_score raw.
Proof.
  unfold scoreResumeWithLLM, try_catch.
  match goal with
  | |- context [bind ?m ?k st] => destruct (bind m k st) as [[r0|e] s1] eqn:Hb
  end; [|unfold throw; intros H; inversion H].
  intros H. inversion H; subst; clear H.
  apply bind_ok in Hb as (resp & s2 & _ & Hb).
  destruct (negb (resp_ok resp)).
  - repeat (apply bind_ok in Hb as (? & ? & _ & Hb)).
    unfold throw in Hb. inversion Hb.
  - apply bind_ok in Hb as (data & s3 & _ & Hb).
    apply bind_ok in Hb as (content & s4 & _ & Hb).
    apply bind_ok in Hb as (result & s5 & _ & Hb).
    apply bind_ok in Hb as (raw & s6 & Hraw & Hb).
    apply lift_ok in Hraw as [Hraw _].
    unfold ret in Hb. inversion Hb; subst; clear Hb.
    exists raw. split; [exact Hraw | reflexivity].
Qed.


(** C10, as amended. When [parseInt] reads the reply's [match_score] as
    0, the score returned is 50, not 0. This is so for the number 0, for
    the string 0 and for every Number whose decimal notation begins with
    a zero and a point, that is, every Number of magnitude at least
    0.000001 and below 1, such as 0.4. *)
Theorem zero_score_becomes_50 resumeText jdText st r st' raw :
  scoreResumeWithLLM w resumeText jdText st = (Ok r, st') ->
  get_field (reply r) "match_score" = Ok raw ->
  parseInt raw = Some 0%Z
  \/ (exists neg e, raw = JNum (Dec neg 0 e))
  \/ raw = JStr "0"
  \/ (exists neg s e,
        raw = JNum (Dec neg s e) /\ is_number (Dec neg s e) /\ s <> 0%N /\
        (-6 < e + Z.of_nat (length (N_chars s)) <= 0)%Z) ->
  match_score r = 50%Z.
Proof.
  intros H Hraw Hzero. apply scoreResumeWithLLM_ok in H as (raw' & Hraw' & Hscore).
  rewrite Hraw in Hraw'. inversion Hraw'; subst raw'.
  rewrite Hscore. apply clamp_score_zero.
  destruct Hzero as [Hz | [(neg & e & ->) | [-> | (neg & s & e & -> & _ & Hs & Hn)]]].
  - exact Hz.
  - reflexivity.
  - reflexivity.
  - apply parseInt_fraction; assumption.
Qed.

End WithWorld.



Lemma zero_score_becomes_50_witness :
  parseInt (JNum (Dec false 0 0)) = Some 0%Z /\
  parseInt (JStr "0") = Some 0%Z /\
  parseInt (JNum (Dec false 4 (-1))) = Some 0%Z /\
  score_of "{\'match_score\': 0}" = Some 50%Z /\
  score_of "{\'match_score\': \'0\'}" = Some 50%Z /\
  score_of "{\'match_score\': 0.4}" = Some 50%Z /\
  score_of "{\'match_score\': -0.000001}" = Some 50%Z /\
  Json.parse "0.4" = Ok (JNum (Dec false 4 (-1))) /\
  is_number (Dec false 4 (-1)) /\
  match_score (LlmResult 50 (JObj [("match_score", JNum (Dec false 4 (-1)))])) = 50%Z.
Proof.
  repeat (split; [vm_compute; reflexivity|]).
  apply (zero_score_becomes_50 (scoring_world "{\'match_score\': 0.4}") "resume" "jd" fresh
           (LlmResult 50 (JObj [("match_score", JNum (Dec false 4 (-1)))]))
           (snd (scored "{\'match_score\': 0.4}"))
           (JNum (Dec false 4 (-1)))).
  - vm_compute. reflexivity.
  - reflexivity.
  - right. right. right. exists false, 4%N, (-1)%Z.
    split; [reflexivity|]. split; [vm_compute; reflexivity|].
    split; [discriminate | vm_compute; split; [reflexivity | discriminate]].
Defined.

(** C10, as stated, fails: not every value below 1 is read as 0. The
    number -7 is read as -7 and the score is 0; the number 5e-7 is
    written with an exponent, read as 5, and the score is 5. (A literal
    below 1 may also denote the Number 1: twenty nines after the point
    do, and the score is 1.) *)
Lemma below_one_counterexample :
  parseInt (JNum (Dec true 7 0)) = Some (-7)%Z /\
  score_of "{\'match_score\': -7}" = Some 0%Z /\
  Json.parse "5e-7" = Ok (JNum (Dec false 5 (-7))) /\
  to_string (JNum (Dec false 5 (-7))) = "5e-7" /\
  parseInt (JNum (Dec false 5 (-7))) = Some 5%Z /\
  score_of "{\'match_score\': 5e-7}" = Some 5%Z /\
  score_of "{\'match_score\': 5e-7}" <> Some 50%Z /\
  Json.parse "0.99999999999999999999" = Ok (JNum (Dec false 1 0)) /\
  score_of "{\'match_score\': 0.99999999999999999999}" = Some 1%Z.
Proof.
  repeat (split; [vm_compute; reflexivity|]).
  split; [vm_compute; discriminate|].
  split; vm_compute; reflexivity.
Qed.

End ScoreFacts.


(** ** Name extraction and its cache *)

Module NameFacts.
Import Text Regex Js Patterns Server MonadFacts Spec Examples.

Lemma fetch_count_logged c st r :
  fetch_count (State c (log st ++ [EvFetch r])) = S (fetch_count st).
Proof.
  unfold fetch_count. cbn [log]. rewrite List.filter_app, length_app. cbn. lia.
Qed.

Section WithWorld.
Variable w : world.

(** A hit: the cached value is returned and nothing else happens. *)
Lemma extractNameWithLLM_hit text id st :
  truthy (cache_get (nameCache st) id) = true ->
  extractNameWithLLM w text id st = (Ok (cache_get (nameCache st) id), st).
Proof. unfold extractNameWithLLM. intros ->. reflexivity. Qed.

(** A miss: exactly one call goes out, the function returns normally, and
    the cache gets the returned value when, and only when, it is truthy. *)
Lemma extractNameWithLLM_miss text id st :
  truthy (cache_get (nameCache st) id) = false ->
  exists v,
    extractNameWithLLM w text id st =
    (Ok v,
     if truthy v
     then State (<[id := v]> (nameCache st)) (log st ++ [EvFetch (name_request w text)])
     else State (nameCache st) (log st ++ [EvFetch (name_request w text)])).
Proof.
  intros Hmiss. unfold extractNameWithLLM. rewrite Hmiss.
  unfold extractNameWithLLM_try, rateLimitedFetch, response_json,
    completion_text, cache_set.
  unfold try_catch, bind, lift, ret.
  destruct (provider_reply w (fetch_count st) (name_request w text)) as [e|ok body].
  { exists JNull. reflexivity. }
  destruct ok; cbn [negb resp_ok resp_text].
  - destruct (Json.parse body) as [data|e]; [|exists JNull; reflexivity].
    destruct (is_anthropic w).
    + destruct (get_field data "content") as [c|e]; [|exists JNull; reflexivity].
      destruct (get_index0 c) as [c0|e]; [|exists JNull; reflexivity].
      destruct (get_field c0 "text") as [content|e]; [|exists JNull; reflexivity].
      destruct (js_match content jsonObjectRegex) as [[m|]|e];
        [|exists JNull; reflexivity|exists JNull; reflexivity].
      destruct (Json.parse (m_text m)) as [result|e]; [|exists JNull; reflexivity].
      destruct (get_field result "name") as [rn|e]; [|exists JNull; reflexivity].
      match goal with
      | |- context [if truthy ?n then _ else _] => exists n; destruct (truthy n)
      end; reflexivity.
    + destruct (get_field data "choices") as [c|e]; [|exists JNull; reflexivity].
      destruct (get_index0 c) as [c0|e]; [|exists JNull; reflexivity].
      destruct (get_field c0 "message") as [msg|e]; [|exists JNull; reflexivity].
      destruct (get_field msg "content") as [content|e]; [|exists JNull; reflexivity].
      destruct (js_match content jsonObjectRegex) as [[m|]|e];
        [|exists JNull; reflexivity|exists JNull; reflexivity].
      destruct (Json.parse (m_text m)) as [result|e]; [|exists JNull; reflexivity].
      destruct (get_field result "name") as [rn|e]; [|exists JNull; reflexivity].
      match goal with
      | |- context [if truthy ?n then _ else _] => exists n; destruct (truthy n)
      end; reflexivity.
  - destruct (Json.parse body) as [err|e]; [|exists JNull; reflexivity].
    destruct (get_field err "error") as [e1|e]; [|exists JNull; reflexivity].
    destruct (get_field_opt e1 "message") as [e2|e]; exists JNull; reflexivity.
Qed.


Lemma cache_get_insert c id v : cache_get (<[id := v]> c) id = v.
Proof. unfold cache_get. rewrite lookup_insert_eq. reflexivity. Qed.

Lemma cache_get_insert_ne c id id' v :
  id' <> id -> cache_get (<[id' := v]> c) id = cache_get c id.
Proof. intros Hne. unfold cache_get. rewrite lookup_insert_ne by exact Hne. reflexivity. Qed.

(** The cache changes only by a successful resolution through the provider. *)
Lemma cache_written_on_success text id st v st' :
  extractNameWithLLM w text id st = (Ok v, st') ->
  nameCache st' <> nameCache st ->
  truthy (cache_get (nameCache st) id) = false /\
  truthy v = true /\
  fetch_count st' = S (fetch_count st) /\
  nameCache st' = <[id := v]> (nameCache st).
Proof.
  intros H Hchanged.
  destruct (truthy (cache_get (nameCache st) id)) eqn:Hc.
  - rewrite (extractNameWithLLM_hit text id st Hc) in H. inversion H; subst.
    contradiction.
  - destruct (extractNameWithLLM_miss text id st Hc) as (v0 & H0).
    rewrite H0 in H. inversion H; subst v0. clear H0.
    destruct (truthy v) eqn:Hv; match goal with E : _ = st' |- _ => subst st' end;
      cbn [nameCache] in *.
    + repeat split. apply fetch_count_logged.
    + contradiction.
Qed.

(** An entry, once there, is served and kept by every later call. *)
Lemma cache_entry_kept text id2 st2 v2 st3 id :
  truthy (cache_get (nameCache st2) id) = true ->
  extractNameWithLLM w text id2 st2 = (Ok v2, st3) ->
  cache_get (nameCache st3) id = cache_get (nameCache st2) id /\
  (id2 = id -> v2 = cache_get (nameCache st2) id /\ st3 = st2).
Proof.
  intros Hin H.
  destruct (truthy (cache_get (nameCache st2) id2)) eqn:Hc.
  - rewrite (extractNameWithLLM_hit text id2 st2 Hc) in H. inversion H; subst.
    split; [reflexivity|]. intros ->. split; reflexivity.
  - destruct (extractNameWithLLM_miss text id2 st2 Hc) as (v0 & H0).
    rewrite H0 in H. inversion H; subst v0. clear H0.
    assert (Hne : id2 <> id) by (intros ->; congruence).
    split; [|intros E; contradiction].
    destruct (truthy v2); match goal with E : _ = st3 |- _ => subst st3 end;
      cbn [nameCache]; [apply cache_get_insert_ne, Hne | reflexivity].
Qed.

(** The fallback by pattern writes nothing: entity extraction leaves the
    state that the provider-based name extraction left. *)
Lemma extractEntities_state text id st e st' :
  extractEntities w text id st = (Ok e, st') ->
  exists v, extractNameWithLLM w text id st = (Ok v, st').
Proof.
  unfold extractEntities. intros H.
  apply bind_ok in H as (v & s1 & Hv & H). unfold ret in H. inversion H; subst.
  exists v. exact Hv.
Qed.

(** C7. When a call for [id] is not served from the cache and resolves a
    name through the provider, the name is cached under [id]; from then on
    every call for [id] returns that name and leaves the state, hence the
    log of outbound calls, untouched. The cache is written by nothing but
    such a resolution: a call that changes it went to the provider and
    returned the name it stored, and the fallback by pattern stores nothing. *)
Theorem cached_name_reused text id st v st1 :
  truthy (cache_get (nameCache st) id) = false ->
  extractNameWithLLM w text id st = (Ok v, st1) ->
  truthy v = true ->
  fetch_count st1 = S (fetch_count st) /\
  nameCache st1 = <[id := v]> (nameCache st) /\
  (forall text2, extractNameWithLLM w text2 id st1 = (Ok v, st1)) /\
  (forall text2 id2 st2 v2 st3,
      cache_get (nameCache st2) id = v ->
      extractNameWithLLM w text2 id2 st2 = (Ok v2, st3) ->
      cache_get (nameCache st3) id = v /\
      (id2 = id -> v2 = v /\ st3 = st2 /\ fetch_count st3 = fetch_count st2)) /\
  (forall text' id' st' v' st'',
      extractNameWithLLM w text' id' st' = (Ok v', st'') ->
      nameCache st'' <> nameCache st' ->
      truthy v' = true /\
      fetch_count st'' = S (fetch_count st') /\
      nameCache st'' = <[id' := v']> (nameCache st')) /\
  (forall text' id' st' e st'',
      extractEntities w text' id' st' = (Ok e, st'') ->
      exists v', extractNameWithLLM w text' id' st' = (Ok v', st'')).
Proof.
  intros Hmiss Hcall Hv.
  destruct (extractNameWithLLM_miss text id st Hmiss) as (v0 & H0).
  rewrite H0 in Hcall. inversion Hcall; subst v0. clear H0.
  rewrite Hv in *. match goal with E : _ = st1 |- _ => subst st1 end.
  split; [apply fetch_count_logged|].
  split; [reflexivity|]. split; [|split; [|split]].
  - intros text2.
    pose proof (extractNameWithLLM_hit text2 id
                  (State (<[id:=v]> (nameCache st))
                         (log st ++ [EvFetch (name_request w text)]))) as Hhit.
    cbn [nameCache] in Hhit. rewrite cache_get_insert in Hhit. apply Hhit, Hv.
  - intros text2 id2 st2 v2 st3 Hin H2.
    assert (Ht : truthy (cache_get (nameCache st2) id) = true) by (rewrite Hin; exact Hv).
    destruct (cache_entry_kept text2 id2 st2 v2 st3 id Ht H2) as [Hk Hsame].
    rewrite Hin in Hk, Hsame. split; [exact Hk|].
    intros E. destruct (Hsame E) as [-> ->]. repeat split.
  - intros text' id' st' v' st'' H' Hch.
    destruct (cache_written_on_success text' id' st' v' st'' H' Hch) as (_ & ? & ? & ?).
    repeat split; assumption.
  - apply extractEntities_state.
Qed.

End WithWorld.
End NameFacts.

Module NameWitnesses.
Import Js Server Examples NameFacts.

Lemma cached_name_reused_witness :
  truthy (cache_get (nameCache fresh) "ann.pdf") = false /\
  extractNameWithLLM ranking_world (buffer ann) "ann.pdf" fresh
  = (Ok (JStr "Ann Lee"), name_state) /\
  fetch_count name_state = 1 /\
  nameCache name_state = <["ann.pdf" := JStr "Ann Lee"]> (nameCache fresh) /\
  extractNameWithLLM ranking_world "some other text" "ann.pdf" name_state
  = (Ok (JStr "Ann Lee"), name_state).
Proof.
  assert (H1 : truthy (cache_get (nameCache fresh) "ann.pdf") = false)
    by (vm_compute; reflexivity).
  assert (H2 : extractNameWithLLM ranking_world (buffer ann) "ann.pdf" fresh
               = (Ok (JStr "Ann Lee"), name_state))
    by (vm_compute; reflexivity).
  destruct (cached_name_reused ranking_world (buffer ann) "ann.pdf" fresh
              (JStr "Ann Lee") name_state H1 H2 eq_refl)
    as (Hcount & Hcache & Hagain & _).
  split; [exact H1|]. split; [exact H2|]. split; [exact Hcount|].
  split; [exact Hcache | apply Hagain].
Defined.

End NameWitnesses.

(** ** Entities *)

Module EntityFacts.
Import Text Regex Js Patterns Server MonadFacts RegexFacts NameFacts Spec Examples.













Section WithWorld.
Variable w : world.


End WithWorld.

(** The scenario of a resume with a name, a title, an address, a phone
    number and a profile link. *)
Example jane_doe :
  let text := "Jane Q. Doe
Senior Engineer
jane.doe@example.com
+1 415-555-0100
linkedin.com/in/janedoe" in
  option_map m_text (exec emailRegex text) = Some "jane.doe@example.com" /\
  extractPhones text = "+14155550100" /\
  option_map m_text (exec linkedinRegex text) = Some "linkedin.com/in/janedoe" /\
  extractNameRegex text = None.
Proof. vm_compute. repeat split. Qed.

(** The provider answers Unknown for one resume and an empty name for
    another: the first is named Unknown, the second by pattern. *)
Example names_without_provider :
  List.map candidate_name ranked_example
  = [JStr "Unknown"; JStr "Ann Lee"; JStr "Dee Poe"; JStr "Unknown"].
Proof. reflexivity. Qed.

End EntityFacts.

(** ** Reading the JSON object of a reply *)

Module ReplyFacts.
Import Text Regex Js Patterns Server RegexFacts Spec Examples.

(** The starred any-character expression followed by a closing brace stops
    after the last closing brace. *)
Lemma star_any_then_close l :
  forall n p cs, length l < n ->
  star_loop (rmatch (Cls any_char)) close_then_done n (Cursor p l cs)
  = option_map (fun word => Cursor (p + length word) (drop (length word) l) cs)
               (upto_last_close l).
Proof.
  induction l as [|x xs IH]; intros n p cs Hn;
    (destruct n as [|n]; [cbn in Hn; lia|]).
  - reflexivity.
  - cbn [star_loop rmatch rest pos caps any_char].
    replace (p <? S p)%nat with true by (symmetry; apply Nat.ltb_lt; lia).
    rewrite IH by (cbn in Hn; lia).
    cbn [upto_last_close]. destruct (upto_last_close xs) as [word|]; cbn [option_map].
    + cbn [length drop]. f_equal. f_equal. lia.
    + unfold close_then_done. cbn [rmatch rest pos caps].
      destruct (is_char "}" x); [|reflexivity].
      cbn [option_map length drop]. f_equal. f_equal. lia.
Qed.

Lemma object_match_at p l :
  rmatch jsonObjectRegex (Cursor p l []) Some
  = match l with
    | x :: xs =>
        if is_char "{" x
        then option_map (fun word => Cursor (S p + length word) (drop (length word) xs) [])
                        (upto_last_close xs)
        else None
    | [] => None
    end.
Proof.
  unfold jsonObjectRegex. cbn [rmatch rest pos caps].
  destruct l as [|x xs]; [reflexivity|].
  destruct (is_char "{" x); [|reflexivity].
  apply (star_any_then_close xs (S (length xs)) (S p) []). lia.
Qed.

Lemma upto_last_close_prefix l word :
  upto_last_close l = Some word -> take (length word) l = word.
Proof.
  revert word. induction l as [|x xs IH]; intros word H; [discriminate|].
  cbn [upto_last_close] in H. destruct (upto_last_close xs) as [w'|].
  - inversion H; subst. cbn. f_equal. apply IH. reflexivity.
  - destruct (is_char "}" x); [|discriminate]. inversion H; subst. reflexivity.
Qed.

Lemma no_close_no_object l :
  upto_last_close l = None -> forall p, search_from jsonObjectRegex p l = None.
Proof.
  induction l as [|x xs IH]; intros H p; cbn [search_from]; rewrite object_match_at.
  - reflexivity.
  - cbn [upto_last_close] in H.
    destruct (upto_last_close xs) as [w'|] eqn:Hxs; [discriminate|].
    destruct (is_char "{" x); cbn [option_map]; apply IH; reflexivity.
Qed.

Lemma search_object p l :
  option_map m_text (search_from jsonObjectRegex p l)
  = match after_first_open l with
    | Some xs => option_map (fun word => str ("{"%char :: word)) (upto_last_close xs)
    | None => None
    end.
Proof.
  revert p. induction l as [|x xs IH]; intros p; cbn [search_from];
    rewrite object_match_at; [reflexivity|].
  cbn [after_first_open]. destruct (is_char "{" x) eqn:Hx.
  - destruct (upto_last_close xs) as [word|] eqn:Hw; cbn [option_map].
    + cbn [m_text pos]. f_equal.
      replace (S p + length word - p) with (S (length word)) by lia.
      cbn [take]. rewrite (upto_last_close_prefix _ _ Hw).
      unfold is_char in Hx. apply Ascii.eqb_eq in Hx. subst x. reflexivity.
    + rewrite (no_close_no_object xs Hw). reflexivity.
  - apply IH.
Qed.

(** C5, as amended. The JSON text read from a reply is the span from its
    first opening brace to its last closing brace: the call returns what
    [JSON.parse] makes of that span, and fails when there is no such span
    or when the span does not parse. *)
Theorem extractJSON_first_to_last s :
  extractJSON (JStr s)
  = match first_to_last_brace s with
    | Some span => Json.parse span
    | None => Throw (Exn Error "LLM did not return valid JSON")
    end.
Proof.
  unfold extractJSON, js_match, first_to_last_brace, exec.
  pose proof (search_object 0 (chars s)) as H.
  destruct (search_from jsonObjectRegex 0 (chars s)) as [m|];
    cbn [option_map] in H; rewrite <- H; reflexivity.
Qed.

(** C5, as stated, fails: in a reply with two JSON objects the first one is
    not the one parsed; the span reaches to the end of the second and the
    call fails. *)
Lemma two_objects_counterexample :
  first_to_last_brace (json_text "{'match_score': 85} or {'match_score': 20}")
  = Some (json_text "{'match_score': 85} or {'match_score': 20}") /\
  Json.parse (json_text "{'match_score': 85}")
  = Ok (JObj [("match_score", JNum (Dec false 85 0))]) /\
  extractJSON (JStr (json_text "{'match_score': 85} or {'match_score': 20}"))
  = Throw Json.syntax_error /\
  extractJSON (JStr (json_text "{'match_score': 85} or {'match_score': 20}"))
  <> Ok (JObj [("match_score", JNum (Dec false 85 0))]).
Proof.
  repeat (split; [vm_compute; reflexivity|]).
  vm_compute. discriminate.
Qed.

End ReplyFacts.

(** ** The request queue *)

Module ThrottleFacts.
Import Throttle.

Lemma called_app tr1 tr2 : called (tr1 ++ tr2) = called tr1 ++ called tr2.
Proof. unfold called. apply flat_map_app. Qed.

Lemma started_app tr1 tr2 : started (tr1 ++ tr2) = started tr1 ++ started tr2.
Proof. unfold started. apply flat_map_app. Qed.

Lemma settled_before_app bound tr1 tr2 :
  settled_before bound tr1 -> settled_before bound tr2 ->
  settled_before bound (tr1 ++ tr2).
Proof.
  intros H1 H2 t f Hin. apply in_app_or in Hin as [Hin | Hin]; eauto.
Qed.

Lemma settled_before_mono b1 b2 tr :
  b1 <= b2 -> settled_before b1 tr -> settled_before b2 tr.
Proof. intros Hle H t f Hin. specialize (H t f Hin). lia. Qed.

Lemma spaced_start tr t s :
  spaced tr -> settled_before s tr -> spaced (tr ++ [Started t s]).
Proof.
  induction tr as [|o tr IH]; intros Hsp Hbefore; [exact I|].
  assert (Htail : settled_before s tr).
  { intros t0 f Hin. apply (Hbefore t0 f). right. exact Hin. }
  destruct o as [t0 a|t0 a|t0 f]; cbn [app spaced] in *; [auto..|].
  destruct Hsp as [Hnext Hsp]. split; [|auto].
  intros t1 s1 Hin. apply in_app_or in Hin as [Hin | [Hin | []]].
  - eauto.
  - inversion Hin; subst. apply (Hbefore t0 f). left. reflexivity.
Qed.

Lemma spaced_other tr o :
  (forall t s, o <> Started t s) -> spaced tr -> spaced (tr ++ [o]).
Proof.
  intros Ho. induction tr as [|o' tr IH]; intros Hsp.
  - destruct o; cbn; auto. split; [intros ? ? []|exact I].
  - destruct o' as [t0 a|t0 a|t0 f]; cbn [app spaced] in *; [auto..|].
    destruct Hsp as [Hnext Hsp]. split; [|auto].
    intros t1 s1 Hin. apply in_app_or in Hin as [Hin | [Hin | []]].
    + eauto.
    + exfalso. eapply Ho. exact Hin.
Qed.

(** [processQueue()] keeps the invariant when called with the flag as it
    found it, and also right after the flag was cleared by the timer. *)
Lemma processQueue_invariant q inflight tmrs t tr :
  called tr = started tr ++ q ->
  inflight = [] -> tmrs = [] ->
  settled_before t tr -> spaced tr ->
  invariant (processQueue (State q false inflight tmrs t tr)).
Proof.
  intros Hfifo -> -> Hidle Hsp. unfold processQueue. cbn [isProcessing requestQueue orb].
  destruct q as [|request q]; cbn [length Nat.eqb].
  - constructor; cbn; auto. intros due [].
  - constructor; cbn [requestQueue isProcessing in_flight timers now trace app].
    + rewrite called_app, started_app. cbn. rewrite app_nil_r, <- app_assoc. exact Hfifo.
    + left. exists request. split; reflexivity.
    + intros _. apply settled_before_app; [exact Hidle|]. intros t0 f [Hin | []]. inversion Hin.
    + intros due [].
    + apply spaced_start; assumption.
Qed.

Lemma processQueue_busy st :
  isProcessing st = true -> processQueue st = st.
Proof. unfold processQueue. intros ->. reflexivity. Qed.

Lemma mem_singleton t x : mem t [x] = true -> x = t.
Proof.
  unfold mem. cbn. rewrite orb_false_r. intros H. apply Nat.eqb_eq in H. congruence.
Qed.

Lemma step_invariant st ev st' :
  invariant st -> step st ev = Some st' -> invariant st'.
Proof.
  intros [Hfifo Hphase Hidle Hsleep Hsp] Hstep.
  destruct st as [q busy inflight tmrs t tr]. cbn [requestQueue isProcessing
    in_flight timers now trace] in *.
  destruct ev as [task|task|due|d]; cbn [step requestQueue isProcessing
    in_flight timers now trace] in Hstep.
  - (* Call *)
    inversion Hstep; subst st'; clear Hstep.
    assert (Hfifo' : called (tr ++ [Called task t]) = started (tr ++ [Called task t]) ++ (q ++ [task])).
    { rewrite called_app, started_app. cbn. rewrite app_nil_r, Hfifo, <- app_assoc. reflexivity. }
    assert (Hsp' : spaced (tr ++ [Called task t])) by (apply spaced_other; [discriminate | exact Hsp]).
    assert (Hset : forall b, settled_before b tr -> settled_before b (tr ++ [Called task t])).
    { intros b Hb. apply settled_before_app; [exact Hb|]. intros t0 f [Hin | []]. inversion Hin. }
    destruct busy.
    + rewrite processQueue_busy by reflexivity.
      constructor; cbn [requestQueue isProcessing in_flight timers now trace]; auto.
    + destruct Hphase as [Hin Htm].
      apply processQueue_invariant; auto.
  - (* Settle *)
    destruct (mem task inflight) eqn:Hmem; [|discriminate].
    inversion Hstep; subst st'; clear Hstep.
    destruct busy.
    + destruct Hphase as [(t0 & Hin & Htm) | (Hin & due & Htm)].
      * subst inflight tmrs. apply mem_singleton in Hmem. subst t0.
        constructor; cbn [requestQueue isProcessing in_flight timers now trace app remove_first].
        -- rewrite called_app, started_app. cbn. rewrite !app_nil_r. exact Hfifo.
        -- right. rewrite Nat.eqb_refl. split; [reflexivity | eauto].
        -- discriminate.
        -- intros due [<- | []]. apply settled_before_app.
           ++ eapply settled_before_mono; [|apply Hidle; reflexivity]. lia.
           ++ intros t0 f [Hin | []]. inversion Hin; subst. lia.
        -- apply spaced_other; [discriminate | exact Hsp].
      * subst inflight. discriminate Hmem.
    + destruct Hphase as [Hin _]. subst inflight. discriminate Hmem.
  - (* Timeout *)
    destruct (mem due tmrs && (due <=? t)) eqn:Hc; [|discriminate].
    apply andb_true_iff in Hc as [Hmem Hdue]. apply Nat.leb_le in Hdue.
    inversion Hstep; subst st'; clear Hstep.
    destruct busy.
    + destruct Hphase as [(t0 & Hin & Htm) | (Hin & d0 & Htm)].
      * subst tmrs. discriminate Hmem.
      * subst inflight tmrs. apply mem_singleton in Hmem. subst d0.
        cbn [remove_first]. rewrite Nat.eqb_refl.
        apply processQueue_invariant; auto.
        eapply settled_before_mono; [exact Hdue|]. apply Hsleep. left. reflexivity.
    + destruct Hphase as [_ Htm]. subst tmrs. discriminate Hmem.
  - (* Tick *)
    inversion Hstep; subst st'; clear Hstep.
    constructor; cbn [requestQueue isProcessing in_flight timers now trace]; auto.
    intros Htm. eapply settled_before_mono; [|apply Hidle, Htm]. lia.
Qed.

Lemma init_invariant : invariant init.
Proof.
  constructor; cbn; auto.
  - intros _ t f [].
  - intros due [].
Qed.




End ThrottleFacts.

Module ThrottleWitnesses.
Import Throttle ThrottleFacts Examples.


(** A timer cannot fire before its delay has passed. *)
Example timer_not_early :
  run init [Call 1; Settle 1; Tick 499; Timeout 500] = None.
Proof. reflexivity. Qed.

End ThrottleWitnesses.

(** ** The earlier revision *)

Module LegacyFacts.
Import Js Examples.

(** The earlier revision does not bound the score. *)
Remark legacy_score_unbounded :
  Legacy.match_score_of (JStr (json_text "{'match_score': 150}"))
  = Ok (JNum (Dec false 150 0)) /\
  Legacy.match_score_of (JStr (json_text "{'match_score': 'N/A'}"))
  = Ok (JStr "N/A").
Proof. split; vm_compute; reflexivity. Qed.

End LegacyFacts.

(** * Further properties *)

(** ** The request queue: nothing waits in vain, nothing is lost *)

Module ThrottleMore.
Import Throttle ThrottleFacts Shape Examples.

Lemma finished_app tr1 tr2 : finished (tr1 ++ tr2) = finished tr1 ++ finished tr2.
Proof. unfold finished. apply flat_map_app. Qed.

Lemma processQueue_bookkeeping q tr t :
  finished tr = started tr ->
  bookkeeping (processQueue (State q false [] [] t tr)).
Proof.
  intros Hdone. unfold processQueue. cbn [isProcessing requestQueue orb].
  destruct q as [|request q]; cbn [length Nat.eqb].
  - split; cbn; [reflexivity|]. rewrite app_nil_r. exact Hdone.
  - split; cbn [isProcessing requestQueue in_flight trace app]; [discriminate|].
    rewrite finished_app, started_app. cbn. rewrite !app_nil_r, Hdone. reflexivity.
Qed.

Lemma step_bookkeeping st ev st' :
  invariant st -> bookkeeping st -> step st ev = Some st' -> bookkeeping st'.
Proof.
  intros [_ Hphase _ _ _] [Hidle Hdone] Hstep.
  destruct st as [q busy inflight tmrs t tr]. cbn [requestQueue isProcessing
    in_flight timers now trace] in *.
  destruct ev as [task|task|due|d]; cbn [step requestQueue isProcessing
    in_flight timers now trace] in Hstep.
  - inversion Hstep; subst st'; clear Hstep. destruct busy.
    + rewrite processQueue_busy by reflexivity.
      split; cbn [isProcessing requestQueue in_flight trace]; [discriminate|].
      rewrite finished_app, started_app. cbn. rewrite !app_nil_r. exact Hdone.
    + destruct Hphase as [-> ->]. rewrite (Hidle eq_refl). cbn [app].
      pose proof (processQueue_bookkeeping [task] (tr ++ [Called task t]) t) as H.
      apply H. rewrite finished_app, started_app. cbn. rewrite !app_nil_r.
      rewrite app_nil_r in Hdone. exact Hdone.
  - destruct (mem task inflight) eqn:Hmem; [|discriminate].
    inversion Hstep; subst st'; clear Hstep. destruct busy.
    + destruct Hphase as [(t0 & -> & ->) | (-> & _)]; [|discriminate Hmem].
      apply mem_singleton in Hmem. subst t0.
      split; cbn [isProcessing requestQueue in_flight trace remove_first];
        [discriminate|].
      rewrite Nat.eqb_refl, finished_app, started_app. cbn.
      rewrite !app_nil_r. exact Hdone.
    + destruct Hphase as [-> _]. discriminate Hmem.
  - destruct (mem due tmrs && (due <=? t)) eqn:Hc; [|discriminate].
    apply andb_true_iff in Hc as [Hmem _].
    inversion Hstep; subst st'; clear Hstep. destruct busy.
    + destruct Hphase as [(t0 & _ & ->) | (-> & d0 & ->)]; [discriminate Hmem|].
      apply mem_singleton in Hmem. subst d0. cbn [remove_first].
      rewrite Nat.eqb_refl. apply processQueue_bookkeeping.
      rewrite app_nil_r in Hdone. exact Hdone.
    + destruct Hphase as [_ ->]. discriminate Hmem.
  - inversion Hstep; subst st'; clear Hstep.
    split; cbn [isProcessing requestQueue in_flight trace]; assumption.
Qed.

Lemma run_bookkeeping evs : forall st st',
  invariant st -> bookkeeping st -> run st evs = Some st' ->
  invariant st' /\ bookkeeping st'.
Proof.
  induction evs as [|ev evs IH]; intros st st' Hinv Hbk Hrun; cbn [run] in Hrun.
  - inversion Hrun; subst. split; assumption.
  - destruct (step st ev) as [st1|] eqn:Hstep; [|discriminate].
    eapply IH; [| |exact Hrun].
    + eapply step_invariant; eassumption.
    + eapply step_bookkeeping; eassumption.
Qed.

Lemma reachable_bookkeeping evs st :
  run init evs = Some st -> invariant st /\ bookkeeping st.
Proof.
  apply run_bookkeeping; [apply init_invariant|].
  split; reflexivity.
Qed.

(** X1. The queue never sits idle with work pending: in every reachable
    state in which no request is being processed the queue is empty, so a
    request that waits always has a request in flight or a delay running
    in front of it. *)
Theorem idle_queue_is_empty evs st :
  run init evs = Some st ->
  isProcessing st = false ->
  requestQueue st = [] /\ in_flight st = [] /\ timers st = [].
Proof.
  intros Hrun Hidle. destruct (reachable_bookkeeping evs st Hrun) as [Hinv [Hq _]].
  split; [apply Hq, Hidle|].
  destruct Hinv as [_ Hphase _ _ _]. rewrite Hidle in Hphase. exact Hphase.
Qed.

(** X2. Requests complete in the order in which they were started and none
    is lost: the requests started are those completed, in that order,
    followed by the one in flight if there is one. *)
Theorem completions_follow_starts evs st :
  run init evs = Some st ->
  started (trace st) = finished (trace st) ++ in_flight st.
Proof.
  intros Hrun. destruct (reachable_bookkeeping evs st Hrun) as [_ [_ Hdone]].
  symmetry. exact Hdone.
Qed.

(** X3. No request waits for ever: from every reachable state with a
    request at the head of the queue, once the request in flight has
    settled and the delay has passed (at most three turns of the event
    loop, none of them a new call) that request is the one in flight. *)
Theorem head_of_queue_starts evs st request queue :
  run init evs = Some st ->
  requestQueue st = request :: queue ->
  exists st',
    run st (drain st) = Some st' /\
    length (drain st) <= 3 /\
    requestQueue st' = queue /\
    in_flight st' = [request] /\
    started (trace st') = started (trace st) ++ [request].
Proof.
  intros Hrun Hq. destruct (reachable_bookkeeping evs st Hrun) as [Hinv [Hidle _]].
  destruct Hinv as [_ Hphase _ _ _].
  destruct st as [q busy inflight tmrs t tr]. cbn [requestQueue isProcessing
    in_flight timers now trace] in *. subst q.
  destruct busy; [|specialize (Hidle eq_refl); discriminate].
  destruct Hphase as [(t0 & -> & ->) | (-> & due & ->)]; unfold drain;
    cbn [in_flight timers now].
  - eexists. split.
    + cbn [run step in_flight timers now mem existsb remove_first app].
      rewrite !Nat.eqb_refl.
      cbn [orb in_flight timers now mem existsb remove_first app
           requestQueue isProcessing trace].
      rewrite !Nat.eqb_refl.
      replace (t + REQUEST_DELAY <=? t + REQUEST_DELAY) with true
        by (symmetry; apply Nat.leb_le; lia).
      reflexivity.
    + unfold processQueue. cbn. repeat split; try lia.
      rewrite !started_app. cbn. rewrite ?app_nil_r. reflexivity.
  - eexists. split.
    + cbn [run step in_flight timers now mem existsb orb remove_first
           requestQueue isProcessing trace app].
      rewrite !Nat.eqb_refl.
      replace (due <=? t + (due - t)) with true
        by (symmetry; apply Nat.leb_le; lia).
      reflexivity.
    + unfold processQueue. cbn. repeat split; try lia.
      rewrite !started_app. cbn. rewrite ?app_nil_r. reflexivity.
Qed.

End ThrottleMore.

Module ThrottleMoreWitnesses.
Import Throttle Shape Samples ThrottleMore.

Lemma idle_queue_is_empty_witness :
  run init one_call = Some after_one_call /\
  isProcessing after_one_call = false /\
  requestQueue after_one_call = [] /\
  in_flight after_one_call = [] /\ timers after_one_call = [].
Proof.
  split; [vm_compute; reflexivity|]. split; [reflexivity|].
  apply (idle_queue_is_empty one_call after_one_call);
    vm_compute; reflexivity.
Defined.

Lemma completions_follow_starts_witness :
  run init Examples.three_calls = Some Examples.after_three_calls /\
  finished (trace Examples.after_three_calls) = [1; 2] /\
  in_flight Examples.after_three_calls = [3] /\
  started (trace Examples.after_three_calls)
  = finished (trace Examples.after_three_calls)
    ++ in_flight Examples.after_three_calls.
Proof.
  split; [vm_compute; reflexivity|]. split; [reflexivity|].
  split; [reflexivity|].
  apply (completions_follow_starts Examples.three_calls Examples.after_three_calls).
  vm_compute. reflexivity.
Defined.

Lemma head_of_queue_starts_witness :
  run init two_calls = Some after_two_calls /\
  requestQueue after_two_calls = [2] /\
  drain after_two_calls = [Settle 1; Tick 500; Timeout 530] /\
  exists st',
    run after_two_calls (drain after_two_calls) = Some st' /\
    length (drain after_two_calls) <= 3 /\
    requestQueue st' = [] /\
    in_flight st' = [2] /\
    started (trace st') = started (trace after_two_calls) ++ [2].
Proof.
  split; [vm_compute; reflexivity|]. split; [reflexivity|].
  split; [reflexivity|].
  apply (head_of_queue_starts two_calls after_two_calls 2 []);
    vm_compute; reflexivity.
Defined.

End ThrottleMoreWitnesses.

(** ** Strings and truncation *)

Module TextFacts.
Import Text RegexFacts.

Lemma length_chars s : length (chars s) = String.length s.
Proof. induction s as [|c s IH]; [reflexivity|]. cbn. f_equal. exact IH. Qed.

Lemma length_str l : String.length (str l) = length l.
Proof. rewrite <- length_chars, chars_str. reflexivity. Qed.

Lemma str_app a b : str (a ++ b) = str a +:+ str b.
Proof.
  induction a as [|c a IH]; [reflexivity|].
  change (str ((c :: a) ++ b)) with (String c (str (a ++ b))).
  change (str (c :: a) +:+ str b) with (String c (str a +:+ str b)).
  f_equal. exact IH.
Qed.

Lemma chars_app a b : chars (a +:+ b) = chars a ++ chars b.
Proof.
  induction a as [|c a IH]; [reflexivity|].
  change (chars (String c a +:+ b)) with (c :: chars (a +:+ b)).
  change (chars (String c a) ++ chars b) with (c :: (chars a ++ chars b)).
  f_equal. exact IH.
Qed.

End TextFacts.

Module TruncateFacts.
Import Text Server RegexFacts TextFacts.

(** X4. [truncate] cuts a text down to its first 2000 characters: the
    result has the length of the text or 2000, whichever is smaller, the
    text begins with it, a text of at most 2000 characters is returned
    as it is, and truncating twice is truncating once. *)
Theorem truncate_is_bounded_prefix text :
  String.length (truncate text) = Nat.min 2000 (String.length text) /\
  (exists tail, text = truncate text +:+ tail) /\
  (String.length text <= 2000 -> truncate text = text) /\
  truncate (truncate text) = truncate text.
Proof.
  assert (Hlen : String.length (truncate text) = Nat.min 2000 (String.length text)).
  { unfold truncate. destruct (Nat.ltb_spec 2000 (String.length text)) as [H|H].
    - unfold slice0. rewrite length_str, length_take, length_chars. reflexivity.
    - lia. }
  split; [exact Hlen|]. split; [|split].
  - unfold truncate. destruct (Nat.ltb_spec 2000 (String.length text)) as [H|H].
    + exists (str (drop 2000 (chars text))). unfold slice0.
      rewrite <- str_app, take_drop, str_chars. reflexivity.
    + exists "". rewrite <- (str_chars text) at 1.
      rewrite <- (app_nil_r (chars text)) at 1. rewrite str_app, str_chars.
      reflexivity.
  - intros H. unfold truncate.
    destruct (Nat.ltb_spec 2000 (String.length text)); [lia | reflexivity].
  - unfold truncate at 1.
    destruct (Nat.ltb_spec 2000 (String.length (truncate text))) as [H|H];
      [lia | reflexivity].
Qed.

End TruncateFacts.

(** ** Scoring: what is read and what is called *)

Module ScoreMore.
Import Text Regex Js Patterns Server MonadFacts RegexFacts NumberFacts ScoreFacts Spec.

(** Reading digits stops at the first character that is not one. *)
Lemma read_digits_stop radix tail :
  match tail with c :: _ => digit_value radix c = None | [] => True end ->
  forall l acc, read_digits radix acc (l ++ tail) = read_digits radix acc l.
Proof.
  intros Htail. induction l as [|c l IH]; intros acc.
  - cbn [app read_digits]. destruct tail as [|c tail]; [reflexivity|].
    cbn [read_digits]. rewrite Htail. reflexivity.
  - cbn [app read_digits]. destruct (digit_value radix c); [apply IH | reflexivity].
Qed.

Lemma not_alnum_not_digit c r : is_alnum c = false -> digit_value r c = None.
Proof.
  unfold is_alnum, is_alpha, digit_value. intros H.
  apply orb_false_iff in H as [H Hd]. apply orb_false_iff in H as [Hu Hl].
  rewrite Hd.
  assert (in_range 97 102 c = false) as ->.
  { unfold is_lower, in_range in *. apply andb_false_iff in Hl.
    apply andb_false_iff. destruct Hl as [Hl|Hl]; [left; exact Hl|right].
    apply N.leb_gt in Hl. apply N.leb_gt. lia. }
  assert (in_range 65 70 c = false) as ->.
  { unfold is_upper, in_range in *. apply andb_false_iff in Hu.
    apply andb_false_iff. destruct Hu as [Hu|Hu]; [left; exact Hu|right].
    apply N.leb_gt in Hu. apply N.leb_gt. lia. }
  reflexivity.
Qed.

Lemma not_alnum_not_x c :
  is_alnum c = false -> is_char "x" c || is_char "X" c = false.
Proof.
  intros H. unfold is_char.
  destruct (Ascii.eqb_spec "x" c) as [<-|_]; [discriminate H|].
  destruct (Ascii.eqb_spec "X" c) as [<-|_]; [discriminate H|].
  reflexivity.
Qed.

(** [parseInt] reads a run of decimal digits up to a character that is
    neither a letter nor a digit. *)
Lemma parseInt_digits_then n tail :
  match tail with c :: _ => is_alnum c = false | [] => True end ->
  parseInt_chars (N_chars n ++ tail) = Some (Z.of_N n).
Proof.
  intros Htail.
  assert (Hstop : match tail with
                  | c :: _ => digit_value 10 c = None
                  | [] => True
                  end).
  { destruct tail; [exact I | apply not_alnum_not_digit, Htail]. }
  pose proof (read_digits_stop 10 tail Hstop (N_chars n) None) as Hread.
  rewrite read_digits_N_chars in Hread.
  pose proof (N_chars_nonempty n) as Hne.
  pose proof (uint_chars_digits (N.to_uint n)) as Hd. fold (N_chars n) in Hd.
  destruct (N_chars n) as [|c0 tl]; [congruence|].
  inversion Hd as [|? ? Hc0 Htl]; subst.
  unfold parseInt_chars. cbn [app drop_spaces] in *.
  rewrite (digit_not_space c0 Hc0).
  rewrite (digit_not c0 "-"), (digit_not c0 "+") by (reflexivity || exact Hc0).
  cbv beta iota zeta.
  destruct tl as [|c1 tl'].
  - cbn [app] in *. destruct tail as [|c1 tail'].
    + rewrite Hread. reflexivity.
    + rewrite (not_alnum_not_x c1 Htail), andb_false_r. rewrite Hread. reflexivity.
  - inversion Htl; subst. cbn [app] in *.
    rewrite (digit_not c1 "x"), (digit_not c1 "X") by (reflexivity || assumption).
    rewrite andb_false_r. rewrite Hread. reflexivity.
Qed.

(** X5. A score that the reply gives as text is read up to the first
    character that is neither a digit nor a letter, so that a reply of 85
    followed by a percent sign counts as 85: the digits are read as a
    number, which is capped at 100, and a zero becomes 50. *)
Theorem score_text_read_to_first_symbol n tail :
  match tail with c :: _ => is_alnum c = false | [] => True end ->
  clamp_score (JStr (str (N_chars n ++ tail)))
  = if (n =? 0)%N then 50%Z else Z.min 100 (Z.of_N n).
Proof.
  intros Htail. unfold clamp_score, parseInt_or_50, parseInt.
  cbn [to_string]. rewrite chars_str, (parseInt_digits_then n tail Htail).
  destruct (N.eqb_spec n 0) as [->|Hn]; [reflexivity|].
  destruct (Z.eqb_spec (Z.of_N n) 0); [lia|]. lia.
Qed.

Section WithWorld.
Variable w : world.

(** Scoring makes one call and leaves the cache alone. *)
Lemma scoreResumeWithLLM_state resumeText jdText st :
  snd (scoreResumeWithLLM w resumeText jdText st)
  = State (nameCache st) (log st ++ [EvFetch (score_request w resumeText jdText)]).
Proof.
  unfold scoreResumeWithLLM, try_catch, bind, rateLimitedFetch, response_json,
    completion_text, bind, lift, ret, throw.
  destruct (provider_reply w (fetch_count st) (score_request w resumeText jdText))
    as [e|ok text]; [reflexivity|].
  destruct ok; cbn [negb resp_ok resp_text].
  - destruct (Json.parse text) as [data|e]; [|reflexivity].
    destruct (is_anthropic w).
    + destruct (get_field data "content") as [c|e]; [|reflexivity].
      destruct (get_index0 c) as [c0|e]; [|reflexivity].
      destruct (get_field c0 "text") as [content|e]; [|reflexivity].
      destruct (extractJSON content) as [result|e]; [|reflexivity].
      destruct (get_field result "match_score"); reflexivity.
    + destruct (get_field data "choices") as [c|e]; [|reflexivity].
      destruct (get_index0 c) as [c0|e]; [|reflexivity].
      destruct (get_field c0 "message") as [m|e]; [|reflexivity].
      destruct (get_field m "content") as [content|e]; [|reflexivity].
      destruct (extractJSON content) as [result|e]; [|reflexivity].
      destruct (get_field result "match_score"); reflexivity.
  - destruct (Json.parse text) as [err|e]; [|reflexivity].
    destruct (get_field err "error") as [er|e]; [|reflexivity].
    destruct (get_field_opt er "message"); reflexivity.
Qed.

(** X6. Scoring a resume makes exactly one call to the provider, whether
    it succeeds or fails, and never touches the name cache: the state it
    leaves is the one it found with that call added to the log. *)
Theorem scoring_is_one_call resumeText jdText st :
  snd (scoreResumeWithLLM w resumeText jdText st)
  = State (nameCache st) (log st ++ [EvFetch (score_request w resumeText jdText)])
  /\ fetch_count (snd (scoreResumeWithLLM w resumeText jdText st))
     = S (fetch_count st).
Proof.
  rewrite scoreResumeWithLLM_state. split; [reflexivity|].
  apply NameFacts.fetch_count_logged.
Qed.

(** X7. A score is produced only from a call that the provider answered
    with an OK status and a body that is JSON, whose completion is a
    string in which the object pattern finds a text that parses; the
    reply returned is that parsed text. A rejected call, an error status
    or a reply without an object never yields a score. *)
Theorem score_comes_from_ok_reply resumeText jdText st r st' :
  scoreResumeWithLLM w resumeText jdText st = (Ok r, st') ->
  exists text data content m,
    provider_reply w (fetch_count st) (score_request w resumeText jdText)
    = Response true text /\
    Json.parse text = Ok data /\
    (forall s, completion_text w data s = (Ok (JStr content), s)) /\
    exec jsonObjectRegex content = Some m /\
    Json.parse (m_text m) = Ok (reply r).
Proof.
  unfold scoreResumeWithLLM, try_catch, bind, rateLimitedFetch, response_json,
    lift, ret, throw.
  destruct (provider_reply w (fetch_count st) (score_request w resumeText jdText))
    as [e|ok text]; [discriminate|].
  destruct ok; cbn [negb resp_ok resp_text].
  - destruct (Json.parse text) as [data|e] eqn:Hp; [|discriminate].
    destruct (completion_text w data _) as [[content|e] s1] eqn:Hc; [|discriminate].
    destruct (extractJSON content) as [result|e] eqn:Hx; [|discriminate].
    destruct (get_field result "match_score") as [raw|e]; [|discriminate].
    intros H. inversion H; subst; clear H. cbn [reply].
    unfold extractJSON, js_match in Hx.
    destruct content as [| |b|n|content|l|o|k]; try discriminate.
    destruct (exec jsonObjectRegex content) as [m|] eqn:Hm; [|discriminate].
    exists text, data, content, m.
    split; [reflexivity|]. split; [exact Hp|]. split; [|split; assumption].
    intros s. revert Hc. unfold completion_text, bind, lift.
    destruct (is_anthropic w).
    + destruct (get_field data "content") as [c|e]; [|discriminate].
      destruct (get_index0 c) as [c0|e]; [|discriminate].
      destruct (get_field c0 "text") as [x|e]; [|discriminate].
      intros H; inversion H; subst. reflexivity.
    + destruct (get_field data "choices") as [c|e]; [|discriminate].
      destruct (get_index0 c) as [c0|e]; [|discriminate].
      destruct (get_field c0 "message") as [x0|e]; [|discriminate].
      destruct (get_field x0 "content") as [x|e]; [|discriminate].
      intros H; inversion H; subst. reflexivity.
  - destruct (Json.parse text) as [err|e]; [|discriminate].
    destruct (get_field err "error") as [er|e]; [|discriminate].
    destruct (get_field_opt er "message"); discriminate.
Qed.

End WithWorld.
End ScoreMore.

(** ** Name extraction: what it looks at and what it keeps *)

Module NameMore.
Import Text Regex Js Patterns Server MonadFacts RegexFacts NameFacts Spec.

Section WithWorld.
Variable w : world.

Lemma name_request_slice text1 text2 :
  slice0 800 text1 = slice0 800 text2 ->
  name_request w text1 = name_request w text2.
Proof. unfold name_request. intros ->. reflexivity. Qed.

(** X8. Resolving the name looks at the first 800 characters of the text
    only: two texts that agree on them give the same name, make the same
    call and leave the same state. *)
Theorem name_depends_on_first_800 text1 text2 id st :
  slice0 800 text1 = slice0 800 text2 ->
  extractNameWithLLM w text1 id st = extractNameWithLLM w text2 id st.
Proof.
  intros H. unfold extractNameWithLLM, extractNameWithLLM_try.
  rewrite (name_request_slice _ _ H). reflexivity.
Qed.

(** What the [try] block returns is never the placeholder, and what it
    does to the cache is at most one entry for [id], written with the
    name it returns. *)
Lemma extractNameWithLLM_try_cases text id st o st' :
  extractNameWithLLM_try w text id st = (o, st') ->
  (forall v, o = Ok (Some v) -> v <> JStr "Unknown") /\
  (nameCache st' = nameCache st \/
   exists v, o = Ok (Some v) /\ truthy v = true /\
             nameCache st' = <[id := v]> (nameCache st)).
Proof.
  unfold extractNameWithLLM_try, completion_text, bind, rateLimitedFetch,
    response_json, cache_set, lift, ret.
  intros H.
  repeat (cbv beta iota in H;
          match type of H with
          | context [match ?x with _ => _ end] =>
              lazymatch x with
              | context [match _ with _ => _ end] => fail
              | _ => destruct x eqn:?
              end
          end);
    cbv beta iota in H; inversion H; subst; clear H; cbn [nameCache];
    (split; [intros ? [=]; subst; try discriminate | auto]).
  all: try (right; eexists; split; [reflexivity|]; split; [|reflexivity]; assumption).
  all: intros [= ->]; discriminate.
Qed.

(** X9. The provider's placeholder answer is not taken for a name: if
    the cache holds no entry that reads Unknown, then resolving a name
    neither returns the string Unknown nor puts it into the cache. *)
Theorem placeholder_is_never_cached text id st :
  (forall k, cache_get (nameCache st) k <> JStr "Unknown") ->
  fst (extractNameWithLLM w text id st) <> Ok (JStr "Unknown") /\
  forall k, cache_get (nameCache (snd (extractNameWithLLM w text id st))) k
            <> JStr "Unknown".
Proof.
  intros Hst. unfold extractNameWithLLM.
  destruct (truthy (cache_get (nameCache st) id)) eqn:Hhit.
  - cbn [fst snd]. split; [|exact Hst].
    intros E. inversion E as [E']. exact (Hst id E').
  - unfold bind, try_catch, ret.
    destruct (extractNameWithLLM_try w text id st) as [o s1] eqn:Htry.
    apply extractNameWithLLM_try_cases in Htry as [Hv Hcache].
    assert (Hkeep : forall k, cache_get (nameCache s1) k <> JStr "Unknown").
    { intros k. destruct Hcache as [-> | (v & -> & _ & ->)]; [apply Hst|].
      destruct (String.eqb_spec id k) as [<-|Hne].
      - rewrite cache_get_insert. apply Hv. reflexivity.
      - rewrite cache_get_insert_ne by exact Hne. apply Hst. }
    destruct o as [[v|]|e]; cbn [fst snd].
    + split; [|exact Hkeep]. intros E. inversion E as [E'].
      exact (Hv v eq_refl E').
    + split; [discriminate | exact Hkeep].
    + split; [discriminate | exact Hkeep].
Qed.

End WithWorld.
End NameMore.

(** ** Where a pattern matches and what the match consists of *)

Module MatchFacts.
Import Text Regex Patterns RegexFacts TextFacts Shape.

(** A match consumes only characters that its classes accept. *)
Lemma steps_within P r c c' :
  steps r c c' -> cls_all P r ->
  exists word, rest c = word ++ rest c' /\ pos c' = pos c + length word /\
               List.Forall (fun x => P x = true) word.
Proof.
  induction 1 as [c|p c x xs Hr Hp|a b c c1 c2 _ IH1 _ IH2|a b c c1 _ IH
                 |a b c c1 _ IH|a c|a c c1 c2 _ IH1 _ IH2|i a c c1 _ IH|c Hp|c Hr];
    cbn [cls_all]; intros Hall.
  - exists []. split; [reflexivity|]. split; [cbn; lia | constructor].
  - exists [x]. cbn. split; [exact Hr|]. split; [lia|].
    constructor; [apply Hall, Hp | constructor].
  - destruct Hall as [Ha Hb].
    destruct (IH1 Ha) as (w1 & E1 & P1 & F1), (IH2 Hb) as (w2 & E2 & P2 & F2).
    exists (w1 ++ w2). rewrite <- app_assoc, <- E2, length_app.
    split; [exact E1|]. split; [lia|]. apply List.Forall_app. split; assumption.
  - apply IH, Hall.
  - apply IH, Hall.
  - exists []. split; [reflexivity|]. split; [cbn; lia | constructor].
  - destruct (IH1 Hall) as (w1 & E1 & P1 & F1), (IH2 Hall) as (w2 & E2 & P2 & F2).
    exists (w1 ++ w2). rewrite <- app_assoc, <- E2, length_app.
    split; [exact E1|]. split; [lia|]. apply List.Forall_app. split; assumption.
  - apply IH, Hall.
  - exists []. split; [reflexivity|]. split; [cbn; lia | constructor].
  - exists []. split; [reflexivity|]. split; [cbn; lia | constructor].
Qed.

(** A match of an expression that must take a character of a kind
    contains one. *)
Lemma steps_takes Q r c c' :
  steps r c c' -> takes Q r ->
  exists word, rest c = word ++ rest c' /\ existsb Q word = true.
Proof.
  induction 1 as [c|p c x xs Hr Hp|a b c c1 c2 H1 IH1 H2 IH2|a b c c1 _ IH
                 |a b c c1 _ IH|a c|a c c1 c2 _ IH1 _ IH2|i a c c1 _ IH|c Hp|c Hr];
    cbn [takes]; intros Htakes; try contradiction.
  - exists [x]. split; [exact Hr|]. cbn. rewrite (Htakes x Hp). reflexivity.
  - destruct (steps_consume _ _ _ H1) as (w1 & E1 & _).
    destruct (steps_consume _ _ _ H2) as (w2 & E2 & _).
    destruct Htakes as [Ha|Hb].
    + destruct (IH1 Ha) as (w1' & E1' & Q1).
      assert (w1' = w1) by (eapply app_inv_tail; rewrite <- E1', <- E1; reflexivity).
      subst w1'. exists (w1 ++ w2). rewrite <- app_assoc, <- E2.
      split; [exact E1|]. rewrite existsb_app, Q1. reflexivity.
    + destruct (IH2 Hb) as (w2' & E2' & Q2).
      assert (w2' = w2) by (eapply app_inv_tail; rewrite <- E2', <- E2; reflexivity).
      subst w2'. exists (w1 ++ w2). rewrite <- app_assoc, <- E2.
      split; [exact E1|]. rewrite existsb_app, Q2. apply orb_true_r.
  - apply IH, Htakes.
  - apply IH, Htakes.
  - apply IH, Htakes.
Qed.

(** Where a match was found: the text is what precedes the match, the
    match and what follows it. *)
Lemma search_from_located r : forall l p m,
  search_from r p l = Some m ->
  exists pre word post c',
    l = pre ++ word ++ post /\
    steps r (Cursor (p + length pre) (word ++ post) []) c' /\
    rest c' = post /\ m_text m = str word.
Proof.
  induction l as [|x l IH]; intros p m H; cbn [search_from] in H.
  - destruct (rmatch r (Cursor p [] []) Some) as [c'|] eqn:E; [|discriminate].
    inversion H; subst; clear H. cbn [m_text].
    apply rmatch_sound in E as (c1 & Hs & Hk). inversion Hk; subst c1.
    destruct (steps_consume _ _ _ Hs) as (word & Hw & Hp). cbn in Hw, Hp.
    symmetry in Hw. apply app_eq_nil in Hw as [-> Hrest].
    exists [], [], [], c'. cbn [app length]. rewrite Nat.add_0_r.
    split; [reflexivity|]. split; [exact Hs|]. split; [exact Hrest|].
    rewrite take_nil. reflexivity.
  - destruct (rmatch r (Cursor p (x :: l) []) Some) as [c'|] eqn:E.
    + inversion H; subst; clear H. cbn [m_text].
      apply rmatch_sound in E as (c1 & Hs & Hk). inversion Hk; subst c1.
      destruct (steps_consume _ _ _ Hs) as (word & Hw & Hp). cbn in Hw, Hp.
      exists [], word, (rest c'), c'. cbn [app length]. rewrite Nat.add_0_r.
      split; [exact Hw|]. rewrite <- Hw. split; [exact Hs|].
      split; [reflexivity|]. rewrite Hw.
      replace (pos c' - p) with (length word) by lia.
      rewrite take_app_length. reflexivity.
    + apply IH in H as (pre & word & post & c' & Hl & Hs & Hr & Ht).
      exists (x :: pre), word, post, c'. cbn [app length].
      split; [f_equal; exact Hl|]. split; [|split; assumption].
      replace (p + S (length pre)) with (S p + length pre) by lia. exact Hs.
Qed.

Lemma exec_located r s m :
  exec r s = Some m ->
  exists pre word post c',
    chars s = pre ++ word ++ post /\
    steps r (Cursor (length pre) (word ++ post) []) c' /\
    rest c' = post /\ m_text m = str word.
Proof. unfold exec. intros H. apply search_from_located in H. exact H. Qed.

(** What a match consists of, read off the classes of the expression. *)
Lemma exec_within P r s m :
  exec r s = Some m -> cls_all P r ->
  List.Forall (fun x => P x = true) (chars (m_text m)).
Proof.
  intros H Hall. apply exec_located in H as (pre & word & post & c' & _ & Hs & Hr & ->).
  destruct (steps_within P _ _ _ Hs Hall) as (w' & E & _ & F).
  cbn [rest] in E. rewrite Hr in E. apply app_inv_tail in E. subst w'.
  rewrite chars_str. exact F.
Qed.

Lemma exec_takes Q r s m :
  exec r s = Some m -> takes Q r -> existsb Q (chars (m_text m)) = true.
Proof.
  intros H Ht. apply exec_located in H as (pre & word & post & c' & _ & Hs & Hr & ->).
  destruct (steps_takes Q _ _ _ Hs Ht) as (w' & E & F).
  cbn [rest] in E. rewrite Hr in E. apply app_inv_tail in E. subst w'.
  rewrite chars_str. exact F.
Qed.

(** A pattern between [^] and [$] matches the whole text or nothing. *)
Lemma exec_anchored r s m :
  exec (Cat Bol r) s = Some m ->
  (forall c c', steps r c c' -> rest c' = []) ->
  m_text m = s.
Proof.
  intros H Hend. apply exec_located in H as (pre & word & post & c' & Hl & Hs & Hr & ->).
  inversion Hs as [| |a b c0 c1 c2 Hbol Hr0| | | | | | |]; subst.
  inversion Hbol as [| | | | | | | |c0 Hpos|]; subst. cbn [pos] in Hpos.
  apply Hend in Hr0. rewrite Hr0 in Hl.
  destruct pre; [|discriminate Hpos]. cbn [app] in Hl. rewrite app_nil_r in Hl.
  rewrite <- Hl. apply str_chars.
Qed.

End MatchFacts.

(** ** The shape of the extracted entities *)

Module EntityMore.
Import Text Regex Js Patterns Server MonadFacts RegexFacts TextFacts NameFacts.
Import EntityFacts MatchFacts Shape Spec.

Lemma steps_starts P r c c' :
  steps r c c' -> starts P r ->
  exists x xs, rest c = x :: xs /\ P x = true.
Proof.
  induction 1 as [c|p c x xs Hr Hp|a b c c1 c2 H1 IH1 H2 IH2|a b c c1 _ IH
                 |a b c c1 _ IH|a c|a c c1 c2 _ IH1 _ IH2|i a c c1 _ IH|c Hp|c Hr];
    cbn [starts]; intros Hst; try contradiction.
  - exists x, xs. split; [exact Hr | apply Hst, Hp].
  - destruct a; try (apply IH1, Hst); try contradiction.
    inversion H1; subst. apply IH2, Hst.
  - apply IH, Hst.
  - apply IH, Hst.
  - apply IH, Hst.
Qed.

Lemma steps_ends_eol r c c' : steps r c c' -> ends_eol r -> rest c' = [].
Proof.
  induction 1; cbn [ends_eol]; intros He; try contradiction; auto.
Qed.

(** *** Case *)

Lemma lower_upper c : lower_char (upper_char c) = lower_char c.
Proof. destruct c as [[] [] [] [] [] [] [] []]; reflexivity. Qed.

Lemma lower_lower c : lower_char (lower_char c) = lower_char c.
Proof. destruct c as [[] [] [] [] [] [] [] []]; reflexivity. Qed.

Lemma lower_capitalize_words l : forall b,
  map lower_char (capitalize_words b l) = map lower_char l.
Proof.
  induction l as [|c l IH]; intros b; [reflexivity|].
  cbn [capitalize_words map]. rewrite IH. f_equal.
  destruct (is_word c && negb b); [apply lower_upper | reflexivity].
Qed.

Lemma length_capitalize_words l : forall b,
  length (capitalize_words b l) = length l.
Proof.
  induction l as [|c l IH]; intros b; [reflexivity|].
  cbn [capitalize_words length]. rewrite IH. reflexivity.
Qed.

Lemma length_toLowerCase s : String.length (toLowerCase s) = String.length s.
Proof.
  unfold toLowerCase. rewrite length_str, length_map, length_chars. reflexivity.
Qed.

(** *** The name found by pattern *)

(** What the loop over the lines does with the line it accepts. *)
Lemma name_of_line_accepts line n :
  name_of_line line = Some n ->
  test nameRegex n = true /\
  String.length n = String.length line /\
  toLowerCase n = toLowerCase line /\
  existsb (fun word => includes (toLowerCase line) word) blacklist = false.
Proof.
  unfold name_of_line.
  destruct (existsb _ blacklist) eqn:Hb; [discriminate|].
  destruct (test notNameRegex line); [discriminate|].
  destruct (test allCapsRegex line).
  - destruct (test nameRegex _) eqn:Ht; [|discriminate].
    intros H. inversion H; subst; clear H.
    split; [exact Ht|]. split; [|split; [|reflexivity]].
    + rewrite length_str, length_capitalize_words, length_chars.
      apply length_toLowerCase.
    + unfold toLowerCase at 1. rewrite chars_str, lower_capitalize_words.
      unfold toLowerCase. rewrite chars_str, map_map.
      f_equal. apply map_ext. intros c. apply lower_lower.
  - destruct (test nameRegex line) eqn:Ht; [|discriminate].
    intros H. inversion H; subst.
    split; [exact Ht|]. split; [reflexivity|]. split; reflexivity.
Qed.

Lemma first_name_found lines n :
  first_name lines = Some n ->
  exists line, In line lines /\ name_of_line line = Some n.
Proof.
  induction lines as [|line lines IH]; cbn [first_name]; [discriminate|].
  destruct (name_of_line line) as [n'|] eqn:Hl.
  - intros H. inversion H; subst. exists line. split; [left; reflexivity | exact Hl].
  - intros H. apply IH in H as (l & Hin & Hn). exists l. split; [right|]; assumption.
Qed.

Lemma In_take {A} (x : A) l : forall n, In x (take n l) -> In x l.
Proof.
  induction l as [|y l IH]; intros [|n]; cbn; try tauto.
  intros [H|H]; [left; exact H | right; eapply IH, H].
Qed.

Lemma extractNameRegex_found text n :
  extractNameRegex text = Some n ->
  exists line, name_of_line line = Some n /\
               0 < String.length line < 60.
Proof.
  unfold extractNameRegex. intros H.
  apply first_name_found in H as (line & Hin & Hn).
  exists line. split; [exact Hn|].
  apply In_take, List.filter_In in Hin as [_ Hlen].
  apply andb_true_iff in Hlen as [H0 H60].
  apply Nat.ltb_lt in H0, H60. lia.
Qed.

Lemma nameRegex_classes : cls_all name_char nameRegex.
Proof.
  cbv [nameRegex capitalized Plus Opt cls_all]. unfold name_char, is_alpha.
  repeat split; try exact I; intros c;
    destruct (is_upper c), (is_lower c), (is_space c), (one_of "-'" c);
    cbn; congruence.
Qed.

(** A pattern between [^] and [$] that matches, matches the whole text. *)
Lemma test_anchored r s :
  test (Cat Bol r) s = true -> ends_eol r ->
  exists c', steps (Cat Bol r) (Cursor 0 (chars s) []) c' /\ rest c' = [].
Proof.
  unfold test. destruct (exec (Cat Bol r) s) as [m|] eqn:H; [|discriminate].
  intros _ Hend.
  apply exec_located in H as (pre & word & post & c' & Hl & Hs & Hr & _).
  assert (Hpre : pre = []).
  { inversion Hs as [| |a b c0 c1 c2 Hbol _| | | | | | |]; subst.
    inversion Hbol as [| | | | | | | |c0 Hpos|]; subst. cbn [pos] in Hpos.
    destruct pre; [reflexivity | discriminate Hpos]. }
  subst pre. cbn [app length] in *. rewrite <- Hl in Hs.
  exists c'. split; [exact Hs|].
  inversion Hs as [| |a b c0 c1 c2 _ Hr0| | | | | | |]; subst.
  eapply steps_ends_eol; eassumption.
Qed.

(** X10. A name found by the pattern search has between 1 and 59
    characters, each of them a letter, white space, a hyphen or an
    apostrophe, and it begins with a capital letter. *)
Theorem fallback_name_shape text n :
  extractNameRegex text = Some n ->
  0 < String.length n < 60 /\
  List.Forall (fun c => name_char c = true) (chars n) /\
  exists c tl, chars n = c :: tl /\ is_upper c = true.
Proof.
  intros H. apply extractNameRegex_found in H as (line & Hn & Hlen).
  apply name_of_line_accepts in Hn as (Ht & Hl & _).
  split; [lia|].
  apply test_anchored in Ht as (c' & Hs & Hend); [|exact I].
  split.
  - destruct (steps_within name_char _ _ _ Hs nameRegex_classes)
      as (word & Hw & _ & Hall).
    cbn [rest] in Hw. rewrite Hend, app_nil_r in Hw. rewrite Hw. exact Hall.
  - apply (steps_starts is_upper) in Hs as (x & xs & Hx & Hup).
    + exists x, xs. split; assumption.
    + cbn. auto.
Qed.

(** X11. A name found by the pattern search contains none of the
    blacklisted words, in whatever case: also not inside a longer word. *)
Theorem fallback_name_avoids_blacklist text n word :
  extractNameRegex text = Some n ->
  In word blacklist ->
  includes (toLowerCase n) word = false.
Proof.
  intros H Hin. apply extractNameRegex_found in H as (line & Hn & _).
  apply name_of_line_accepts in Hn as (_ & _ & -> & Hb).
  destruct (includes (toLowerCase line) word) eqn:E; [|reflexivity].
  assert (existsb (fun word => includes (toLowerCase line) word) blacklist = true)
    as Hex by (apply existsb_exists; exists word; split; assumption).
  congruence.
Qed.

(** *** Telephone numbers *)

Lemma phoneRegex_classes :
  cls_all (fun c => dial_char c || phone_noise c) phoneRegex.
Proof.
  cbv [phoneRegex sep digits Rep Lit Lit_chars chars list_ascii_of_string
       Plus Opt cls_all].
  repeat split; try exact I; intros c;
    destruct c as [[] [] [] [] [] [] [] []]; vm_compute; congruence.
Qed.

Lemma phoneRegex_takes_digit : takes is_digit phoneRegex.
Proof.
  cbv [phoneRegex sep digits Rep Opt takes]. split.
  - right. right. left. intros c.
    destruct c as [[] [] [] [] [] [] [] []]; vm_compute; congruence.
  - right. right. right. left. left. auto.
Qed.

Lemma digit_not_noise c : is_digit c = true -> phone_noise c = false.
Proof. destruct c as [[] [] [] [] [] [] [] []]; vm_compute; congruence. Qed.

(** X12. When the main telephone pattern matches in the text, the number
    reported is not the dash and consists of digits and plus signs only:
    the separators and brackets of the match are gone. *)
Theorem main_phone_is_digits_and_plus text m :
  exec phoneRegex text = Some m ->
  extractPhones text <> dash /\
  List.Forall (fun c => dial_char c = true) (chars (extractPhones text)).
Proof.
  intros H.
  assert (Hall : List.Forall (fun c => dial_char c = true)
                   (chars (extractPhones text))).
  { unfold extractPhones. rewrite H.
    pose proof (exec_within _ _ _ _ H phoneRegex_classes) as Hw.
    pose proof (exec_takes _ _ _ _ H phoneRegex_takes_digit) as Hd.
    set (cleaned := List.filter (fun c => negb (phone_noise c)) (chars (m_text m))).
    assert (Hc : List.Forall (fun c => dial_char c = true) cleaned).
    { apply List.Forall_forall. intros c Hin.
      apply List.filter_In in Hin as [Hin Hn].
      rewrite List.Forall_forall in Hw. specialize (Hw c Hin).
      destruct (phone_noise c); [discriminate Hn|].
      rewrite orb_false_r in Hw. exact Hw. }
    assert (Hne : cleaned <> []).
    { apply existsb_exists in Hd as (d & Hin & Hd). intros E.
      assert (In d cleaned) as Hd'.
      { apply List.filter_In. split; [exact Hin|].
        rewrite (digit_not_noise d Hd). reflexivity. }
      rewrite E in Hd'. contradiction. }
    destruct cleaned as [|c l]; [congruence|].
    inversion Hc as [|? ? Hc0 Hl]; subst.
    destruct (is_char "0" c).
    - unfold or_dash.
      change (String.eqb ("+91" +:+ str l) "") with false. cbv iota.
      rewrite chars_app, chars_str.
      repeat (constructor; [reflexivity|]). exact Hl.
    - unfold or_dash. change (String.eqb (str (c :: l)) "") with false.
      cbv iota. rewrite chars_str. exact Hc. }
  split; [|exact Hall].
  intros E. rewrite E in Hall. inversion Hall as [|? ? Hd _]. discriminate Hd.
Qed.

(** *** The profile link and the e-mail address *)

Lemma is_prefix_app n b : is_prefix n (n ++ b) = true.
Proof.
  induction n as [|x n IH]; [reflexivity|]. cbn [app is_prefix].
  unfold is_char. rewrite Ascii.eqb_refl. exact IH.
Qed.

Lemma includes_chars_app n a b : includes_chars n (a ++ n ++ b) = true.
Proof.
  induction a as [|x a IH]; cbn [app].
  - destruct (n ++ b) eqn:E; cbn [includes_chars]; rewrite <- E, is_prefix_app;
      reflexivity.
  - cbn [includes_chars]. rewrite IH. apply orb_true_r.
Qed.

(** A literal matched without regard to case takes the letters of the
    literal, in some case. *)
Lemma steps_literal_ci l : forall c c',
  steps (LitCI_chars l) c c' ->
  exists word, rest c = word ++ rest c' /\ map lower_char word = map lower_char l.
Proof.
  induction l as [|x l IH]; intros c c' H; cbn [LitCI_chars] in H.
  - inversion H; subst. exists []. split; reflexivity.
  - inversion H as [| |a b c0 c1 c2 Hx Hl| | | | | | |]; subst.
    inversion Hx as [|p c0 y ys Hr Hp| | | | | | | |]; subst.
    apply IH in Hl as (word & Hw & Hlow). cbn [rest] in Hw.
    exists (y :: word). split; [rewrite Hr, Hw; reflexivity|].
    cbn [map]. rewrite Hlow. f_equal.
    unfold is_char in Hp. apply Ascii.eqb_eq in Hp. symmetry. exact Hp.
Qed.

Lemma linkedin_match_names_site text m :
  exec linkedinRegex text = Some m ->
  exists a b,
    map lower_char (chars (m_text m)) = a ++ chars "linkedin.com/in/" ++ b.
Proof.
  intros H. apply exec_located in H as (pre & word & post & c4 & _ & Hs & Hr & ->).
  unfold linkedinRegex in Hs.
  inversion Hs as [| |r1 r1' c0 c1 c4' H1 Hs1| | | | | | |]; subst.
  inversion Hs1 as [| |r2 r2' c0 c2 c4' H2 Hs2| | | | | | |]; subst.
  inversion Hs2 as [| |r3 r3' c0 c3 c4' H3 H4| | | | | | |]; subst.
  destruct (steps_consume _ _ _ H1) as (w1 & E1 & _).
  destruct (steps_consume _ _ _ H2) as (w2 & E2 & _).
  destruct (steps_consume _ _ _ H4) as (w4 & E4 & _).
  apply steps_literal_ci in H3 as (wl & El & Hlow).
  cbn [rest] in E1. rewrite E2, El, E4 in E1.
  replace (w1 ++ w2 ++ wl ++ w4 ++ rest c4)
    with ((w1 ++ w2 ++ wl ++ w4) ++ rest c4) in E1
    by (rewrite <- !app_assoc; reflexivity).
  apply app_inv_tail in E1. subst word.
  exists (map lower_char (w1 ++ w2)), (map lower_char w4).
  rewrite chars_str, app_assoc, !map_app, Hlow, <- !app_assoc. reflexivity.
Qed.

Lemma emailRegex_classes : cls_all mail_char emailRegex.
Proof.
  cbv [emailRegex Rep Plus Opt cls_all]. unfold mail_char.
  repeat split; try exact I; intros c;
    destruct c as [[] [] [] [] [] [] [] []]; vm_compute; congruence.
Qed.

Lemma emailRegex_takes_at : takes (is_char "@") emailRegex.
Proof. cbv [emailRegex takes]. right. left. auto. Qed.

Section WithWorld.
Variable w : world.

(** The contact fields are read off the text alone. *)
Lemma extractEntities_fields text id st e st' :
  extractEntities w text id st = (Ok e, st') ->
  e_email e = match exec emailRegex text with
              | Some m => or_dash (m_text m)
              | None => dash
              end /\
  e_phone e = extractPhones text /\
  e_linkedin e = match exec linkedinRegex text with
                 | Some m =>
                     if startsWith (m_text m) "http" then m_text m
                     else "https://" +:+ m_text m
                 | None => dash
                 end.
Proof.
  unfold extractEntities. intros H.
  apply bind_ok in H as (v & s1 & _ & H). unfold ret in H.
  inversion H; subst. repeat split.
Qed.

(** X13. The profile link reported for a resume is the dash, or it
    begins with http and contains the site and path of a LinkedIn
    profile (in whatever case it was written). *)
Theorem profile_link_shape text id st e st' :
  extractEntities w text id st = (Ok e, st') ->
  e_linkedin e = dash \/
  (startsWith (e_linkedin e) "http" = true /\
   includes (toLowerCase (e_linkedin e)) "linkedin.com/in/" = true).
Proof.
  intros H. apply extractEntities_fields in H as (_ & _ & ->).
  destruct (exec linkedinRegex text) as [m|] eqn:Hm; [right | left; reflexivity].
  destruct (linkedin_match_names_site _ _ Hm) as (a & b & Hsite).
  destruct (startsWith (m_text m) "http") eqn:Hh.
  - split; [exact Hh|]. unfold includes, toLowerCase.
    rewrite chars_str, Hsite. apply includes_chars_app.
  - split; [reflexivity|]. unfold includes, toLowerCase.
    rewrite chars_str, chars_app, map_app, Hsite, app_assoc.
    apply includes_chars_app.
Qed.

(** X14. The e-mail address reported for a resume is the dash, or it
    contains an at sign and consists only of letters, digits and the
    characters that the pattern allows in an address. *)
Theorem email_shape text id st e st' :
  extractEntities w text id st = (Ok e, st') ->
  e_email e = dash \/
  (List.Forall (fun c => mail_char c = true) (chars (e_email e)) /\
   existsb (is_char "@") (chars (e_email e)) = true).
Proof.
  intros H. apply extractEntities_fields in H as (-> & _ & _).
  destruct (exec emailRegex text) as [m|] eqn:Hm; [right | left; reflexivity].
  pose proof (exec_within _ _ _ _ Hm emailRegex_classes) as Hall.
  pose proof (exec_takes _ _ _ _ Hm emailRegex_takes_at) as Hat.
  unfold or_dash. destruct (String.eqb_spec (m_text m) "") as [E|_].
  - rewrite E in Hat. discriminate Hat.
  - split; assumption.
Qed.

End WithWorld.
End EntityMore.

(** ** What entity extraction returns *)

Module EntityTotal.
Import Text Regex Js Patterns Server Shape MonadFacts RegexFacts NameFacts EntityFacts MatchFacts EntityMore.



Section WithWorld.
Variable w : world.


End WithWorld.
End EntityTotal.


(** ** What a computation does to the state *)

Module EffectFacts.
Import Text Regex Js Patterns Server MonadFacts RegexFacts NameFacts Spec Shape.
Import ScoreMore NameMore LoopFacts.

Lemma touches_refl ids st : touches ids 0 0 st st.
Proof.
  split; [intros id _; reflexivity|]. split; [reflexivity|].
  unfold spent. lia.
Qed.

Lemma touches_trans ids p1 h1 p2 h2 st s1 s2 :
  touches ids p1 h1 st s1 -> touches ids p2 h2 s1 s2 ->
  touches ids (p1 + p2) (h1 + h2) st s2.
Proof.
  intros (K1 & O1 & P1 & F1) (K2 & O2 & P2 & F2). split; [|split].
  - intros id Ht. rewrite K2, K1; [reflexivity | exact Ht |].
    rewrite K1; assumption.
  - intros id Hid. rewrite O2, O1; [reflexivity | exact Hid ..].
  - unfold spent in *. lia.
Qed.

Lemma touches_weaken ids ids' p h h' st st' :
  touches ids p h st st' -> incl ids ids' -> h <= h' ->
  touches ids' p h' st st'.
Proof.
  intros (K & O & P & F) Hincl Hle. split; [exact K|]. split.
  - intros id Hid. apply O. intros Hin. apply Hid, Hincl, Hin.
  - unfold spent in *. lia.
Qed.

Lemma pdf_count_logged_fetch c st r :
  pdf_count (State c (log st ++ [EvFetch r])) = pdf_count st.
Proof.
  unfold pdf_count. cbn [log]. rewrite List.filter_app, length_app. cbn. lia.
Qed.

Lemma pdf_count_logged_pdf c st b :
  pdf_count (State c (log st ++ [EvPdfParse b])) = S (pdf_count st).
Proof.
  unfold pdf_count. cbn [log]. rewrite List.filter_app, length_app. cbn. lia.
Qed.

Lemma fetch_count_logged_pdf c st b :
  fetch_count (State c (log st ++ [EvPdfParse b])) = fetch_count st.
Proof.
  unfold fetch_count. cbn [log]. rewrite List.filter_app, length_app. cbn. lia.
Qed.

Section WithWorld.
Variable w : world.

Lemma effect_ret {A} (a : A) ids : effect (ret a) (touches ids 0 0).
Proof. intros st o st' H. inversion H. apply touches_refl. Qed.

Lemma effect_lift {A} (o : outcome A) ids : effect (lift o) (touches ids 0 0).
Proof. intros st o' st' H. inversion H. apply touches_refl. Qed.

(** Sequencing adds the calls up; the texts are those that the first
    step extracts. *)
Lemma effect_bind {A B} (m : M A) (k : A -> M B) ids p h1 h2 :
  effect m (touches ids p h1) ->
  (forall a, effect (k a) (touches ids 0 h2)) ->
  effect (bind m k) (touches ids p (h1 + h2)).
Proof.
  intros Hm Hk st o st' H. unfold bind in H.
  destruct (m st) as [[a|e] s1] eqn:E.
  - rewrite <- (Nat.add_0_r p).
    apply (touches_trans ids p h1 0 h2 st s1 st').
    + eapply Hm, E.
    + eapply Hk, H.
  - inversion H; subst. eapply touches_weaken; [eapply Hm, E | apply incl_refl | lia].
Qed.

Lemma effect_try_catch {A} (m : M A) (h : exn -> M A) ids p hi :
  effect m (touches ids p hi) ->
  (forall e, effect (h e) (touches ids 0 0)) ->
  effect (try_catch m h) (touches ids p hi).
Proof.
  intros Hm Hh st o st' H. unfold try_catch in H.
  destruct (m st) as [[a|e] s1] eqn:E.
  - inversion H; subst. eapply Hm, E.
  - rewrite <- (Nat.add_0_r p), <- (Nat.add_0_r hi).
    eapply touches_trans; [eapply Hm, E | eapply Hh, H].
Qed.

Lemma effect_pdfParse b ids : effect (pdfParse w b) (touches ids 1 0).
Proof.
  intros st o st' H. unfold pdfParse in H. inversion H; subst.
  split; [intros id _; reflexivity|]. split; [reflexivity|].
  unfold spent. rewrite pdf_count_logged_pdf, fetch_count_logged_pdf. lia.
Qed.

Lemma effect_score resumeText jdText ids :
  effect (scoreResumeWithLLM w resumeText jdText) (touches ids 0 1).
Proof.
  intros st o st' H.
  pose proof (scoreResumeWithLLM_state w resumeText jdText st) as Hs.
  rewrite H in Hs. cbn [snd] in Hs. subst st'.
  split; [intros id _; reflexivity|]. split; [reflexivity|].
  unfold spent. rewrite pdf_count_logged_fetch, fetch_count_logged. lia.
Qed.

Lemma effect_name text id :
  effect (extractNameWithLLM w text id) (touches [id] 0 1).
Proof.
  intros st o st' H.
  destruct (truthy (cache_get (nameCache st) id)) eqn:Hhit.
  - rewrite (extractNameWithLLM_hit w text id st Hhit) in H. inversion H; subst.
    eapply touches_weaken; [apply touches_refl | apply incl_refl | lia].
  - destruct (extractNameWithLLM_miss w text id st Hhit) as (v & Hv).
    rewrite Hv in H. inversion H; subst; clear H.
    destruct (truthy v).
    + split; [|split].
      * intros k Hk. cbn [nameCache]. apply cache_get_insert_ne.
        intros ->. congruence.
      * intros k Hk. cbn [nameCache]. apply cache_get_insert_ne.
        intros ->. apply Hk. left. reflexivity.
      * unfold spent. rewrite pdf_count_logged_fetch, fetch_count_logged. lia.
    + split; [intros k _; reflexivity|]. split; [reflexivity|].
      unfold spent. rewrite pdf_count_logged_fetch, fetch_count_logged. lia.
Qed.

Lemma effect_entities text id :
  effect (extractEntities w text id) (touches [id] 0 1).
Proof.
  unfold extractEntities.
  change 1 with (1 + 0). apply effect_bind; [apply effect_name|].
  intros a. apply effect_ret.
Qed.

(** One turn of the loop: one text, at most two calls, and nothing in
    the cache but the entry of the file at hand. *)
Lemma effect_process_resume jdText f :
  effect (process_resume w jdText f) (touches [originalname f] 1 2).
Proof.
  unfold process_resume. apply effect_try_catch; [|intros e; apply effect_ret].
  unfold process_resume_try.
  change 2 with (0 + (1 + (1 + (0 + (0 + (0 + (0 + 0))))))).
  apply effect_bind; [apply effect_pdfParse|]. intros text.
  apply effect_bind; [apply effect_entities|]. intros ent.
  apply effect_bind; [apply effect_score|]. intros llm.
  repeat (apply effect_bind; [apply effect_lift|]; intros ?).
  apply effect_ret.
Qed.

Lemma effect_process_resumes jdText files : forall acc,
  effect (process_resumes w jdText files acc)
         (touches (List.map originalname files) (length files) (2 * length files)).
Proof.
  induction files as [|f files IH]; intros acc st o st' H; cbn [process_resumes] in H.
  - inversion H; subst. apply touches_refl.
  - unfold bind in H.
    destruct (process_resume_total w jdText f st) as (r & s1 & Hr & _).
    rewrite Hr in H. cbn [List.map length].
    replace (2 * S (length files)) with (2 + 2 * length files) by lia.
    change (S (length files)) with (1 + length files).
    eapply touches_trans.
    + eapply touches_weaken; [eapply effect_process_resume, Hr | | lia].
      intros x [<-|[]]. left. reflexivity.
    + eapply touches_weaken; [eapply IH, H | | lia].
      intros x Hx. right. exact Hx.
Qed.

(** What the batch endpoint does to the state, by the kind of its answer. *)
Lemma batch_match_effect req st o st' :
  batch_match w req st = (o, st') ->
  let names := List.map originalname (resume_files req) in
  let n := length (resume_files req) in
  (exists b, o = Ok (Http 400 b) /\ st' = st) \/
  (exists b, o = Ok (Http 500 b) /\ touches names 1 0 st st') \/
  (exists b, o = Ok (Http 200 b) /\ touches names (1 + n) (2 * n) st st').
Proof.
  unfold batch_match, try_catch. intros H.
  destruct (jd_file req) as [f|]; cbn [is_Some_b negb] in H.
  - destruct ((length (resume_files req) =? 0)%nat || false).
    { inversion H; subst. left. eexists. split; reflexivity. }
    unfold bind in H.
    destruct (pdfParse w (buffer f) st) as [[text|e] s0] eqn:Hp.
    + destruct (process_resumes_total w (truncate text) (resume_files req) s0)
        as (rs & s1 & Hrs & _).
      pose proof (effect_process_resumes (truncate text) (resume_files req) []
                    s0 _ _ (Hrs [])) as Heff.
      rewrite (Hrs []) in H. unfold ret in H. inversion H; subst.
      right. right. eexists. split; [reflexivity|].
      replace (2 * length (resume_files req))
        with (0 + 2 * length (resume_files req)) by lia.
      eapply touches_trans; [eapply effect_pdfParse, Hp | exact Heff].
    + inversion H; subst. right. left. eexists. split; [reflexivity|].
      eapply effect_pdfParse, Hp.
  - rewrite orb_true_r in H. inversion H; subst.
    left. eexists. split; reflexivity.
Qed.

End WithWorld.
End EffectFacts.

(** ** The batch endpoint: failures, budget, cache, scores *)

Module BatchMore.
Import Text Regex Js Patterns Server MonadFacts RankFacts LoopFacts ScoreFacts.
Import NameFacts Spec Shape EffectFacts.

Section WithWorld.
Variable w : world.

(** X15. When the text of the job description cannot be extracted, the
    batch is answered with status 500 and the message of the extractor's
    error, and nothing else was done: no resume was read, no call was
    made and the name cache is as it was. *)
Theorem unreadable_jd_stops_the_batch req st f e :
  resume_files req <> [] ->
  jd_file req = Some f ->
  pdf_text w (buffer f) = Throw e ->
  batch_match w req st
  = (Ok (Http 500 (ErrorBody (message e))),
     State (nameCache st) (log st ++ [EvPdfParse (buffer f)])).
Proof.
  intros Hne Hjd Hpdf. unfold batch_match, try_catch. rewrite Hjd.
  destruct (resume_files req) as [|f0 fs]; [congruence|].
  cbn [length Nat.eqb orb is_Some_b negb].
  unfold bind, pdfParse. rewrite Hpdf. reflexivity.
Qed.

(** X16. A batch that is answered with status 200 extracted the text of
    the job description once and of every resume once, and made at most
    two calls to the provider per resume. *)
Theorem batch_call_budget req st total rr st' :
  batch_match w req st = (Ok (Http 200 (BatchBody total rr)), st') ->
  pdf_count st' = pdf_count st + S (length (resume_files req)) /\
  fetch_count st <= fetch_count st'
                 <= fetch_count st + 2 * length (resume_files req).
Proof.
  intros H. apply batch_match_effect in H.
  destruct H as [(b & [=] & _) | [(b & [=] & _) | (b & _ & _ & _ & Hs)]].
  unfold spent in Hs. lia.
Qed.

(** X17. Whatever a batch request is answered with, every name that the
    cache served before the request is served unchanged after it, and
    the entries of files that are not among the uploaded resumes are as
    they were. *)
Theorem batch_only_adds_names req st :
  cache_kept st (snd (batch_match w req st)) /\
  forall id, ~ In id (List.map originalname (resume_files req)) ->
    cache_get (nameCache (snd (batch_match w req st))) id
    = cache_get (nameCache st) id.
Proof.
  destruct (batch_match w req st) as [o st'] eqn:H. cbn [snd].
  apply batch_match_effect in H.
  destruct H as [(b & _ & ->) | [(b & _ & K & O & _) | (b & _ & K & O & _)]].
  - split; [intros id _; reflexivity | reflexivity].
  - split; assumption.
  - split; assumption.
Qed.

(** A result list is the sorted outcome of the loop over the resumes. *)
Lemma batch_match_results req st code total rr st' :
  batch_match w req st = (Ok (Http code (BatchBody total rr)), st') ->
  exists jdText st0 results,
    process_resumes w jdText (resume_files req) [] st0 = (Ok results, st') /\
    rr = sort by_score_desc results.
Proof.
  unfold batch_match, try_catch.
  destruct ((length (resume_files req) =? 0)%nat || negb (is_Some_b (jd_file req))).
  { cbn. intros H. inversion H. }
  match goal with
  | |- context [bind ?m ?k st] => destruct (bind m k st) as [[r|e] s1] eqn:Hb
  end; [|cbn; intros H; inversion H].
  intros H. inversion H; subst; clear H.
  apply bind_ok in Hb as (jd_text & st0 & _ & Hb).
  apply bind_ok in Hb as (results & s2 & Hrs & Hb).
  unfold ret in Hb. inversion Hb; subst; clear Hb.
  exists (truncate jd_text), st0, results. split; [exact Hrs | reflexivity].
Qed.

Lemma process_resume_score jdText f st r st' :
  process_resume w jdText f st = (Ok r, st') ->
  (0 <= r_match_score r <= 100)%Z.
Proof.
  intros H.
  destruct (process_resume_cases w jdText f st)
    as [(r0 & s & Htry & Hr) | (e & s & _ & Hr)];
    rewrite Hr in H; inversion H; subst; clear H; [|cbn; lia].
  unfold process_resume_try in Htry.
  apply bind_ok in Htry as (text & s0 & _ & Htry).
  apply bind_ok in Htry as (ent & s1 & _ & Htry).
  apply bind_ok in Htry as (llm & s2 & Hllm & Htry).
  repeat (apply bind_ok in Htry as (? & ? & _ & Htry)).
  unfold ret in Htry. inversion Htry; subst. cbn [r_match_score].
  apply scoreResumeWithLLM_ok in Hllm as (raw & _ & ->).
  apply clamp_score_range.
Qed.

Lemma process_resumes_scores jdText files : forall st rs st',
  process_resumes w jdText files [] st = (Ok rs, st') ->
  List.Forall (fun r => (0 <= r_match_score r <= 100)%Z) rs.
Proof.
  induction files as [|f files IH]; intros st rs st' H.
  - inversion H; subst. constructor.
  - destruct (process_resume_total w jdText f st) as (r & s1 & Hr & _).
    destruct (process_resumes_total w jdText files s1) as (rs' & s2 & Hrs & _).
    rewrite (process_resumes_cons w _ _ _ _ _ _ _ _ Hr (Hrs [])) in H.
    inversion H; subst. constructor.
    + eapply process_resume_score, Hr.
    + eapply IH, (Hrs []).
Qed.

(** X18. Every entry of a ranked result list, scored or failed, carries
    a score between 0 and 100. *)
Theorem batch_scores_in_range req st code total rr st' :
  batch_match w req st = (Ok (Http code (BatchBody total rr)), st') ->
  List.Forall (fun r => (0 <= r_match_score r <= 100)%Z) rr.
Proof.
  intros H. apply batch_match_results in H as (jdText & st0 & results & Hrs & ->).
  apply process_resumes_scores in Hrs.
  apply List.Forall_forall. intros r Hin.
  rewrite List.Forall_forall in Hrs. apply Hrs.
  eapply Permutation_in; [apply sort_perm | exact Hin].
Qed.

End WithWorld.
End BatchMore.

(** ** The single-match endpoint against the batch endpoint *)

Module SingleFacts.
Import Text Regex Js Patterns Server MonadFacts RankFacts LoopFacts ScoreFacts.
Import NameFacts Spec Shape Single EffectFacts.

Section WithWorld.
Variable w : world.

Lemma respects_ret {A} (a : A) : respects (ret a).
Proof. intros s1 s2 H. split; [reflexivity | exact H]. Qed.

Lemma respects_throw {A} e : respects (@throw A e).
Proof. intros s1 s2 H. split; [reflexivity | exact H]. Qed.

Lemma respects_lift {A} (o : outcome A) : respects (lift o).
Proof. intros s1 s2 H. split; [reflexivity | exact H]. Qed.

Lemma respects_bind {A B} (m : M A) (k : A -> M B) :
  respects m -> (forall a, respects (k a)) -> respects (bind m k).
Proof.
  intros Hm Hk s1 s2 H. unfold bind.
  destruct (Hm s1 s2 H) as [Ho Hs].
  destruct (m s1) as [o1 t1], (m s2) as [o2 t2]. cbn [fst snd] in Ho, Hs.
  subst o2. destruct o1 as [a|e]; [apply Hk, Hs | split; [reflexivity | exact Hs]].
Qed.

Lemma respects_try_catch {A} (m : M A) (h : exn -> M A) :
  respects m -> (forall e, respects (h e)) -> respects (try_catch m h).
Proof.
  intros Hm Hh s1 s2 H. unfold try_catch.
  destruct (Hm s1 s2 H) as [Ho Hs].
  destruct (m s1) as [o1 t1], (m s2) as [o2 t2]. cbn [fst snd] in Ho, Hs.
  subst o2. destruct o1 as [a|e]; [split; [reflexivity | exact Hs] | apply Hh, Hs].
Qed.

Lemma respects_fetch r : respects (rateLimitedFetch w r).
Proof.
  intros s1 s2 [Hc Hf]. unfold rateLimitedFetch. rewrite Hf.
  destruct (provider_reply w (fetch_count s2) r); cbn [fst snd];
    (split; [reflexivity|]); (split; [exact Hc|]);
    rewrite !fetch_count_logged; congruence.
Qed.

Lemma respects_cache_set k v : respects (cache_set k v).
Proof.
  intros s1 s2 [Hc Hf]. unfold cache_set. cbn [fst snd].
  split; [reflexivity|]. split; [cbn [nameCache]; congruence | exact Hf].
Qed.

Ltac respects_steps :=
  repeat first
    [ apply respects_ret | apply respects_throw | apply respects_lift
    | apply respects_fetch | apply respects_cache_set
    | apply respects_bind; [|intros ?]
    | match goal with
      | |- respects (if ?b then _ else _) => destruct b
      | |- respects (match ?x with _ => _ end) => destruct x
      end ].

Lemma respects_completion_text data : respects (completion_text w data).
Proof. unfold completion_text. respects_steps. Qed.

Lemma respects_name text id : respects (extractNameWithLLM w text id).
Proof.
  intros s1 s2 H. unfold extractNameWithLLM. destruct H as [Hc Hf].
  rewrite Hc. destruct (truthy (cache_get (nameCache s2) id)).
  - cbn [fst snd]. split; [reflexivity | split; assumption].
  - revert s1 s2 Hc Hf.
    assert (respects
              (let! r := try_catch (extractNameWithLLM_try w text id)
                                   (fun _ => ret None) in
               match r with
               | Some v => ret v
               | None => ret JNull
               end)) as Hr.
    { apply respects_bind; [|intros [v|]; apply respects_ret].
      apply respects_try_catch; [|intros e; apply respects_ret].
      unfold extractNameWithLLM_try, response_json.
      apply respects_bind; [apply respects_fetch|]. intros resp.
      destruct (negb (resp_ok resp)); [respects_steps|].
      apply respects_bind; [apply respects_lift|]. intros data.
      apply respects_bind; [apply respects_completion_text|]. intros content.
      respects_steps. }
    intros s1 s2 Hc Hf. apply Hr. split; assumption.
Qed.

Lemma respects_entities text id : respects (extractEntities w text id).
Proof.
  unfold extractEntities. apply respects_bind; [apply respects_name|].
  intros v. apply respects_ret.
Qed.

Lemma respects_score resumeText jdText :
  respects (scoreResumeWithLLM w resumeText jdText).
Proof.
  unfold scoreResumeWithLLM, response_json.
  apply respects_try_catch; [|intros e; apply respects_throw].
  apply respects_bind; [apply respects_fetch|]. intros resp.
  destruct (negb (resp_ok resp)); [respects_steps|].
  apply respects_bind; [apply respects_lift|]. intros data.
  apply respects_bind; [apply respects_completion_text|]. intros content.
  respects_steps.
Qed.

(** A value that has one property read without an exception has them all. *)
Lemma get_field_any v k x k' :
  get_field v k = Ok x -> exists y, get_field v k' = Ok y.
Proof.
  destruct v as [| |b|n|s|l|m|nk]; cbn; try discriminate; intros _; eauto.
  destruct (assoc k' m); eauto.
Qed.

(** From states that look the same a computation that respects the view
    gives the same result. *)
Lemma respects_run {A} (m : M A) s1 s2 o t1 :
  respects m -> same_view s1 s2 -> m s1 = (o, t1) ->
  exists t2, m s2 = (o, t2) /\ same_view t1 t2.
Proof.
  intros Hm Hv H. destruct (Hm s1 s2 Hv) as [Ho Hs]. rewrite H in Ho, Hs.
  cbn [fst snd] in Ho, Hs. destruct (m s2) as [o2 t2]. cbn [fst snd] in Ho, Hs.
  subst o2. exists t2. split; [reflexivity | exact Hs].
Qed.

Lemma pdfParse_run b st o st' :
  pdfParse w b st = (o, st') ->
  pdf_text w b = o /\ st' = State (nameCache st) (log st ++ [EvPdfParse b]).
Proof. unfold pdfParse. intros H. inversion H. split; reflexivity. Qed.

(** The order in which two texts are extracted does not show. *)
Lemma pdf_order_view st b1 b2 :
  same_view
    (State (nameCache st) ((log st ++ [EvPdfParse b1]) ++ [EvPdfParse b2]))
    (State (nameCache st) ((log st ++ [EvPdfParse b2]) ++ [EvPdfParse b1])).
Proof.
  split; [reflexivity|]. unfold fetch_count. cbn [log].
  rewrite !List.filter_app, !length_app. cbn. lia.
Qed.

(** X19. The single-match endpoint and the batch endpoint agree: when
    the single-match endpoint answers a resume and a job description with
    status 200, the batch endpoint, given that resume alone with the same
    job description from the same state, answers with status 200 and one
    entry that carries the same name, contact fields, score, seniority
    and summary; the two leave the same name cache and have made the same
    number of calls. *)
Theorem single_match_agrees_with_batch sreq breq rf jf st r st1 :
  resume_file sreq = Some rf ->
  match_jd_file sreq = Some jf ->
  resume_files breq = [rf] ->
  jd_file breq = Some jf ->
  single_match w sreq st = (Ok (MatchHttp 200 (MatchBody r)), st1) ->
  exists skills experience st2,
    batch_match w breq st
    = (Ok (Http 200 (BatchBody 1
         [Ranked (originalname rf) (m_candidate_name r) (m_email r) (m_phone r)
                 (m_linkedin r) (m_match_score r) skills experience
                 (m_seniority_fit r) (m_summary r)])), st2) /\
    same_view st1 st2.
Proof.
  intros Hrf Hjf Hrs Hjd H.
  unfold single_match, try_catch in H. rewrite Hrf, Hjf in H.
  match type of H with
  | context [bind ?m ?k st] => destruct (bind m k st) as [[resp|e] s] eqn:Hb
  end; [|discriminate H].
  inversion H; subst; clear H.
  apply bind_ok in Hb as (text & sA & HpR & Hb).
  apply bind_ok in Hb as (jd_text & sB & HpJ & Hb).
  apply bind_ok in Hb as (ent & sC & Hent & Hb).
  apply bind_ok in Hb as (llm & sD & Hllm & Hb).
  apply bind_ok in Hb as (sen & s5 & Hsen & Hb). apply lift_ok in Hsen as [Hsen ->].
  apply bind_ok in Hb as (summ & s6 & Hsum & Hb). apply lift_ok in Hsum as [Hsum ->].
  unfold ret in Hb. inversion Hb; subst; clear Hb. cbn [m_candidate_name m_email
    m_phone m_linkedin m_match_score m_seniority_fit m_summary].
  apply pdfParse_run in HpR as [HtR ->]. apply pdfParse_run in HpJ as [HtJ ->].
  cbn [nameCache log] in *.
  destruct (respects_run _ _ _ _ _ (respects_entities _ _)
              (pdf_order_view st (buffer rf) (buffer jf)) Hent)
    as (sC' & Hent' & HvC).
  destruct (respects_run _ _ _ _ _ (respects_score _ _) HvC Hllm)
    as (sD' & Hllm' & HvD).
  destruct (get_field_any _ _ _ "skills_match" Hsen) as (skills & Hsk).
  destruct (get_field_any _ _ _ "experience_fit" Hsen) as (experience & Hex).
  exists skills, experience, sD'. split; [|exact HvD].
  unfold batch_match, try_catch. rewrite Hjd, Hrs.
  cbn [length Nat.eqb orb is_Some_b negb].
  unfold bind at 1. unfold pdfParse at 1. rewrite HtJ.
  cbn [process_resumes]. unfold bind at 1. unfold bind at 1.
  unfold process_resume, try_catch, process_resume_try.
  unfold bind at 1. unfold pdfParse at 1. rewrite HtR.
  rewrite (bind_step _ _ _ _ _ Hent'), (bind_step _ _ _ _ _ Hllm').
  unfold bind, lift. rewrite Hsk, Hex, Hsen, Hsum. reflexivity.
Qed.

(** X20. Where the single-match endpoint fails, the batch endpoint
    reports: if the single-match endpoint answers an error for a resume
    and a job description whose text can be extracted, then its status is
    500, and the batch endpoint, given that resume alone with the same
    job description from the same state, answers with status 200 and the
    failure entry of the resume for an error with the same message. *)
Theorem single_match_failure_is_batch_entry sreq breq rf jf jd_text st code msg st1 :
  resume_file sreq = Some rf ->
  match_jd_file sreq = Some jf ->
  resume_files breq = [rf] ->
  jd_file breq = Some jf ->
  pdf_text w (buffer jf) = Ok jd_text ->
  single_match w sreq st = (Ok (MatchHttp code (MatchError msg)), st1) ->
  code = 500 /\
  exists e st2,
    message e = msg /\
    batch_match w breq st
    = (Ok (Http 200 (BatchBody 1 [failure_result rf e])), st2).
Proof.
  intros Hrf Hjf Hrs Hjd HtJ H.
  unfold single_match, try_catch in H. rewrite Hrf, Hjf in H.
  match type of H with
  | context [bind ?m ?k st] => destruct (bind m k st) as [[resp|e] s] eqn:Hb
  end.
  { exfalso. inversion H; subst; clear H.
    repeat (apply bind_ok in Hb as (? & ? & _ & Hb)).
    unfold ret in Hb. discriminate Hb. }
  unfold ret in H. inversion H; subst; clear H. split; [reflexivity|].
  exists e.
  assert (Hbatch : forall s2,
            process_resume_try w (truncate jd_text) rf
              (State (nameCache st) (log st ++ [EvPdfParse (buffer jf)]))
            = (Throw e, s2) ->
            batch_match w breq st
            = (Ok (Http 200 (BatchBody 1 [failure_result rf e])), s2)).
  { intros s2 Htry. unfold batch_match, try_catch. rewrite Hjd, Hrs.
    cbn [length Nat.eqb orb is_Some_b negb].
    unfold bind at 1. unfold pdfParse at 1. rewrite HtJ.
    cbn [process_resumes]. unfold bind at 1. unfold bind at 1.
    unfold process_resume, try_catch. rewrite Htry. reflexivity. }
  apply bind_throw in Hb as [HpR | (text & sA & HpR & Hb)].
  { apply pdfParse_run in HpR as [HtR ->].
    eexists. split; [reflexivity|]. apply Hbatch.
    unfold process_resume_try. unfold bind at 1. unfold pdfParse at 1.
    rewrite HtR. reflexivity. }
  apply pdfParse_run in HpR as [HtR ->].
  apply bind_throw in Hb as [HpJ | (jd_text' & sB & HpJ & Hb)].
  { apply pdfParse_run in HpJ as [HtJ' _]. congruence. }
  apply pdfParse_run in HpJ as [HtJ' ->].
  assert (jd_text' = jd_text) by congruence. subst jd_text'.
  cbn [nameCache log] in *.
  apply bind_throw in Hb as [Hent | (ent & sC & Hent & Hb)].
  { destruct (respects_run _ _ _ _ _ (respects_entities _ _)
                (pdf_order_view st (buffer rf) (buffer jf)) Hent)
      as (sC' & Hent' & _).
    eexists. split; [reflexivity|]. apply Hbatch.
    unfold process_resume_try. unfold bind at 1. unfold pdfParse at 1.
    rewrite HtR. apply bind_fail. exact Hent'. }
  destruct (respects_run _ _ _ _ _ (respects_entities _ _)
              (pdf_order_view st (buffer rf) (buffer jf)) Hent)
    as (sC' & Hent' & HvC).
  apply bind_throw in Hb as [Hllm | (llm & sD & Hllm & Hb)].
  { destruct (respects_run _ _ _ _ _ (respects_score _ _) HvC Hllm)
      as (sD' & Hllm' & _).
    eexists. split; [reflexivity|]. apply Hbatch.
    unfold process_resume_try. unfold bind at 1. unfold pdfParse at 1.
    rewrite HtR. rewrite (bind_step _ _ _ _ _ Hent'). apply bind_fail.
    exact Hllm'. }
  exfalso.
  apply scoreResumeWithLLM_ok in Hllm as (raw & Hraw & _).
  destruct (get_field_any _ _ _ "seniority_fit" Hraw) as (sen & Hsen).
  destruct (get_field_any _ _ _ "summary" Hraw) as (summ & Hsum).
  unfold bind, lift, ret in Hb. rewrite Hsen, Hsum in Hb. discriminate Hb.
Qed.

End WithWorld.
End SingleFacts.

(** ** The entries of a batch in which a resume fails *)

Module OutcomeFacts.
Import Text Js Server MonadFacts LoopFacts BatchFacts ScoreFacts SingleFacts.
Import Spec Shape.

Section WithWorld.
Variable w : world.

Lemma lift_step {A B} (o : outcome A) (k : A -> M B) st a :
  o = Ok a -> bind (lift o) k st = k a st.
Proof. intros ->. reflexivity. Qed.

(** A scoring reply that was accepted can be asked for any field. *)
Lemma reply_fields resumeText jdText st llm st' k :
  scoreResumeWithLLM w resumeText jdText st = (Ok llm, st') ->
  get_field (reply llm) k = Ok (field_of (reply llm) k).
Proof.
  intros H. apply scoreResumeWithLLM_ok in H as (raw & Hraw & _).
  destruct (get_field_any _ _ _ k Hraw) as (y & Hy).
  unfold field_of. rewrite Hy. reflexivity.
Qed.

Lemma step_success_runs jdText f st r s :
  step_success w jdText f st r s ->
  process_resume_try w jdText f st = (Ok r, s).
Proof.
  intros (text & s0 & ent & s1 & llm & Hp & He & Hs & ->).
  unfold process_resume_try.
  rewrite (bind_step _ _ _ _ _ Hp), (bind_step _ _ _ _ _ He),
          (bind_step _ _ _ _ _ Hs).
  rewrite !(lift_step _ _ _ _ (reply_fields _ _ _ _ _ _ Hs)).
  reflexivity.
Qed.

Lemma try_ok_success jdText f st r s :
  process_resume_try w jdText f st = (Ok r, s) ->
  step_success w jdText f st r s.
Proof.
  unfold process_resume_try. intros H.
  apply bind_ok in H as (text & s0 & Hp & H).
  apply bind_ok in H as (ent & s1 & He & H).
  apply bind_ok in H as (llm & s2 & Hs & H).
  rewrite !(lift_step _ _ _ _ (reply_fields _ _ _ _ _ _ Hs)) in H.
  unfold ret in H. inversion H; subst.
  exists text, s0, ent, s1, llm. repeat split; assumption.
Qed.

Lemma try_throw_failure jdText f st e s :
  process_resume_try w jdText f st = (Throw e, s) ->
  step_failure w jdText f st e s.
Proof.
  unfold process_resume_try. intros H.
  apply bind_throw in H as [H | (text & s0 & Hp & H)]; [left; exact H|].
  apply bind_throw in H as [H | (ent & s1 & He & H)].
  { right. left. exists text, s0. split; assumption. }
  apply bind_throw in H as [H | (llm & s2 & Hs & H)].
  { right. right. exists text, s0, ent, s1. repeat split; assumption. }
  rewrite !(lift_step _ _ _ _ (reply_fields _ _ _ _ _ _ Hs)) in H.
  discriminate H.
Qed.

(** The loop over the resumes gives the entries that [outcomes]
    describes, and no others. *)
Lemma outcomes_run jdText files st rs st' :
  outcomes w jdText files st rs st' ->
  process_resumes w jdText files [] st = (Ok rs, st').
Proof.
  induction 1 as [st|f fs st r s rs s' Hr _ IH|f fs st e s rs s' Hf _ IH].
  - reflexivity.
  - eapply process_resumes_cons; [|exact IH].
    unfold process_resume, try_catch.
    rewrite (step_success_runs _ _ _ _ _ Hr). reflexivity.
  - eapply process_resumes_cons; [|exact IH].
    unfold process_resume, try_catch.
    rewrite (step_failure_throws _ _ _ _ _ _ Hf). reflexivity.
Qed.

Lemma run_outcomes jdText files : forall st rs st',
  process_resumes w jdText files [] st = (Ok rs, st') ->
  outcomes w jdText files st rs st'.
Proof.
  induction files as [|f files IH]; intros st rs st' H.
  - inversion H; subst. constructor.
  - destruct (process_resume_cases w jdText f st)
      as [(r & s1 & Htry & Hr) | (e & s1 & Htry & Hr)];
      destruct (process_resumes_total w jdText files s1) as (rs' & s2 & Hrs & _);
      rewrite (process_resumes_cons w _ _ _ _ _ _ _ _ Hr (Hrs [])) in H;
      inversion H; subst.
    + eapply outcomes_scored; [apply try_ok_success, Htry | apply IH, (Hrs [])].
    + eapply outcomes_failed; [apply try_throw_failure, Htry | apply IH, (Hrs [])].
Qed.

(** C4. If processing a resume fails at any step, the failure is caught in
    that turn of the loop: the resume gets the failure entry (score 0, fit
    Weak, the reason as summary), the loop goes on with the remaining
    resumes from the state the failure left, and the batch has one result
    per resume, in order. The entries of the other resumes, before and
    after the failed one, are what they are without the failure: each
    resume whose steps all succeed has its scored entry, with the
    entities of its text and the score and assessment of its reply, and
    only a resume one of whose own steps fails has a failure entry. *)
Theorem failure_stays_local jdText before f after st rs1 st1 e s :
  process_resumes w jdText before [] st = (Ok rs1, st1) ->
  step_failure w jdText f st1 e s ->
  exists rs2 st3,
    process_resumes w jdText after [] s = (Ok rs2, st3) /\
    length rs2 = length after /\
    process_resumes w jdText (before ++ f :: after) [] st
    = (Ok (rs1 ++ failure_result f e :: rs2), st3) /\
    r_match_score (failure_result f e) = 0%Z /\
    seniority_fit (failure_result f e) = JStr "Weak" /\
    summary (failure_result f e) = JStr ("Error: " +:+ message e) /\
    outcomes w jdText before st rs1 st1 /\
    outcomes w jdText after s rs2 st3 /\
    (forall g sg r sg',
       step_success w jdText g sg r sg' ->
       process_resume w jdText g sg = (Ok r, sg')) /\
    (forall g sg r sg',
       process_resume w jdText g sg = (Ok r, sg') ->
       step_success w jdText g sg r sg' \/
       exists x, step_failure w jdText g sg x sg' /\ r = failure_result g x).
Proof.
  intros Hbefore Hfail. pose proof (step_failure_throws _ _ _ _ _ _ Hfail) as Hthrow.
  destruct (process_resumes_total w jdText after s) as (rs2 & st3 & Hafter & Hn).
  exists rs2, st3. split; [apply (Hafter [])|]. split.
  { rewrite <- (length_map resume_name), Hn, length_map. reflexivity. }
  split.
  { eapply process_resumes_app; [exact Hbefore|].
    eapply process_resumes_cons; [|apply (Hafter [])].
    unfold process_resume, try_catch. rewrite Hthrow. reflexivity. }
  do 3 (split; [reflexivity|]).
  split; [apply run_outcomes, Hbefore|].
  split; [apply run_outcomes, (Hafter [])|].
  split.
  - intros g sg r sg' Hr. unfold process_resume, try_catch.
    rewrite (step_success_runs _ _ _ _ _ Hr). reflexivity.
  - intros g sg r sg' Hr.
    destruct (process_resume_cases w jdText g sg)
      as [(r0 & s0 & Htry & Hr0) | (x & s0 & Htry & Hr0)];
      rewrite Hr0 in Hr; inversion Hr; subst.
    + left. apply try_ok_success, Htry.
    + right. exists x. split; [apply try_throw_failure, Htry | reflexivity].
Qed.

End WithWorld.
End OutcomeFacts.

Module OutcomeWitnesses.
Import Text Js Server Spec Shape Examples OutcomeFacts.

Lemma failure_stays_local_witness :
  step_failure ranking_world "JD" bob (snd after_ann)
    (Exn TypeError "fetch failed") (snd after_bob) /\
  exists rs1 rs2 st3,
    fst after_ann = Ok rs1 /\
    process_resumes ranking_world "JD" [cyd; dee] [] (snd after_bob) = (Ok rs2, st3) /\
    length rs2 = 2 /\
    process_resumes ranking_world "JD" ([ann] ++ bob :: [cyd; dee]) [] fresh
    = (Ok (rs1 ++ failure_result bob (Exn TypeError "fetch failed") :: rs2), st3) /\
    outcomes ranking_world "JD" [ann] fresh rs1 (snd after_ann) /\
    outcomes ranking_world "JD" [cyd; dee] (snd after_bob) rs2 st3 /\
    List.map r_match_score rs1 = [70%Z] /\
    List.map r_match_score rs2 = [85%Z; 70%Z] /\
    List.map seniority_fit rs2 = [JStr "Strong"; JStr "Medium"] /\
    List.map summary rs2 = [JStr "Good."; JStr "Partial."] /\
    List.map candidate_name rs2 = [JStr "Unknown"; JStr "Dee Poe"].
Proof.
  assert (Hfail : step_failure ranking_world "JD" bob (snd after_ann)
                    (Exn TypeError "fetch failed") (snd after_bob)).
  { right. right.
    exists (buffer bob).
    exists (snd (pdfParse ranking_world (buffer bob) (snd after_ann))).
    exists (match fst (extractEntities ranking_world (truncate (buffer bob)) (originalname bob)
                   (snd (pdfParse ranking_world (buffer bob) (snd after_ann)))) with
            | Ok e => e
            | Throw _ => Entities JNull "" "" ""
            end).
    exists (snd (extractEntities ranking_world (truncate (buffer bob)) (originalname bob)
                   (snd (pdfParse ranking_world (buffer bob) (snd after_ann))))).
    split; [vm_compute; reflexivity|]. split; vm_compute; reflexivity. }
  split; [exact Hfail|].
  destruct (failure_stays_local ranking_world "JD" [ann] bob [cyd; dee] fresh
              (match fst after_ann with Ok rs => rs | Throw _ => [] end)
              (snd after_ann) (Exn TypeError "fetch failed") (snd after_bob))
    as (rs2 & st3 & H1 & H2 & H3 & _ & _ & _ & H4 & H5 & _).
  - vm_compute. reflexivity.
  - exact Hfail.
  - exists (match fst after_ann with Ok rs => rs | Throw _ => [] end), rs2, st3.
    split; [reflexivity|]. split; [exact H1|]. split; [exact H2|].
    split; [exact H3|]. split; [exact H4|]. split; [exact H5|].
    split; [reflexivity|].
    pose proof H1 as E. vm_compute in E. injection E as E _. rewrite <- E.
    split; [reflexivity|]. split; [reflexivity|]. split; reflexivity.
Defined.

End OutcomeWitnesses.


(** ** The reply is an object *)

Module JsonFacts.
Import Text Regex Js Json Patterns Server RegexFacts MatchFacts Shape EntityMore.

Lemma object_at_bottom_cons k ks :
  ks = [] \/ object_at_bottom ks ->
  (exists acc key, k = KObj acc key) \/ object_at_bottom ks ->
  object_at_bottom (k :: ks).
Proof.
  intros [->|(ks' & acc & key & ->)] Hk.
  - destruct Hk as [(acc & key & ->)|(ks' & acc & key & H)].
    + exists [], acc, key. reflexivity.
    + destruct ks'; discriminate H.
  - exists (k :: ks'), acc, key. reflexivity.
Qed.

Lemma complete_reading v ks :
  object_at_bottom ks -> reading_object (complete v ks).
Proof.
  intros (ks' & acc & key & ->). destruct ks' as [|k ks']; cbn [app complete].
  - left. reflexivity.
  - destruct k; cbn; [|right]; exists ks', acc, key; reflexivity.
Qed.

Lemma complete_object m ks :
  ks = [] \/ object_at_bottom ks -> reading_object (complete (JObj m) ks).
Proof.
  intros [->|H]; [cbn; eauto | apply complete_reading, H].
Qed.

Lemma begin_value_reading t ks st :
  object_at_bottom ks -> begin_value t ks = Some st -> reading_object st.
Proof.
  intros Hks. destruct t; cbn [begin_value]; intros H; inversion H; subst;
    try (apply complete_reading, Hks); cbn; auto.
Qed.

Lemma parse_step_reading st t st' :
  reading_object st -> parse_step st t = Some st' -> reading_object st'.
Proof.
  destruct st as [ks|ks|acc ks|ks|acc ks|acc k ks|acc ks|v]; cbn [reading_object];
    intros Hst H.
  - cbn [parse_step] in H. eapply begin_value_reading; eassumption.
  - destruct t; cbn [parse_step] in H;
      try (eapply begin_value_reading; [|exact H];
           apply object_at_bottom_cons; [right; exact Hst | right; exact Hst]).
    inversion H; subst. apply complete_reading, Hst.
  - destruct t; cbn [parse_step] in H; try discriminate;
      inversion H; subst; cbn [reading_object].
    + apply complete_reading, Hst.
    + apply object_at_bottom_cons; [right; exact Hst | right; exact Hst].
  - destruct t; cbn [parse_step] in H; try discriminate;
      inversion H; subst; cbn [reading_object]; [apply complete_object|]; exact Hst.
  - destruct t; cbn [parse_step] in H; try discriminate.
    inversion H; subst. exact Hst.
  - destruct t; cbn [parse_step] in H; try discriminate.
    inversion H; subst. cbn [reading_object].
    apply object_at_bottom_cons; [exact Hst | left; eauto].
  - destruct t; cbn [parse_step] in H; try discriminate;
      inversion H; subst; cbn [reading_object]; [apply complete_object|]; exact Hst.
  - destruct t; discriminate H.
Qed.

Lemma parse_from_reading ts : forall st v,
  reading_object st -> parse_from st ts = Some v -> exists m, v = JObj m.
Proof.
  induction ts as [|t ts IH]; intros st v Hst H; cbn [parse_from] in H.
  - destruct st; try discriminate. inversion H; subst. exact Hst.
  - destruct (parse_step st t) as [st'|] eqn:E; [|discriminate].
    eapply IH; [eapply parse_step_reading; eassumption | exact H].
Qed.

(** A text that begins with an opening brace parses to an object or not
    at all. *)
Lemma parse_object l v :
  parse (str ("{"%char :: l)) = Ok v -> exists m, v = JObj m.
Proof.
  unfold parse, lex. rewrite chars_str. cbn [lex_from].
  change (lex_step LIdle "{"%char) with (Some (LIdle, [TLBrace])). cbv iota beta.
  destruct (lex_from LIdle l) as [ts|]; cbn [option_map]; [|discriminate].
  cbn [app parse_from parse_step begin_value].
  destruct (parse_from (PObjFirst []) ts) as [x|] eqn:E; [|discriminate].
  intros H. inversion H; subst.
  eapply parse_from_reading; [|exact E]. left. reflexivity.
Qed.

(** X21. [extractJSON] returns only for a string, and what it returns is
    an object: never an array, a string, a number, a boolean or null. *)
Theorem extractJSON_gives_object text v :
  extractJSON text = Ok v ->
  (exists s, text = JStr s) /\ exists m, v = JObj m.
Proof.
  unfold extractJSON, js_match.
  destruct text as [| |b|n|s|l|o|k]; try discriminate.
  destruct (exec jsonObjectRegex s) as [m|] eqn:Hm; [|discriminate].
  intros H. split; [exists s; reflexivity|].
  apply exec_located in Hm as (pre & word & post & c' & _ & Hs & Hr & Ht).
  unfold jsonObjectRegex in Hs.
  inversion Hs as [| |r1 r2 c0 c1 c2 Hopen Hrest| | | | | | |]; subst.
  inversion Hopen as [|p c0 x xs Hx Hbrace| | | | | | | |]; subst.
  destruct (steps_consume _ _ _ Hrest) as (w2 & Hw & _).
  cbn [rest] in Hx, Hw. rewrite Hw in Hx.
  change (x :: w2 ++ rest c') with ((x :: w2) ++ rest c') in Hx.
  apply app_inv_tail in Hx. subst word.
  unfold is_char in Hbrace. apply Ascii.eqb_eq in Hbrace. subst x.
  rewrite Ht in H. eapply parse_object, H.
Qed.

End JsonFacts.

(** ** The results table *)

Module FrontendFacts.
Import Js Server MonadFacts RankFacts LoopFacts Spec Frontend BatchMore.

Lemma scoreClass_high s : scoreClass s = "score-high" -> (75 <= s)%Z.
Proof.
  unfold scoreClass. destruct (Z.leb_spec 75 s); [lia|].
  destruct (50 <=? s)%Z; discriminate.
Qed.

Lemma scoreClass_medium s : scoreClass s = "score-medium" -> (50 <= s)%Z.
Proof.
  unfold scoreClass. destruct (75 <=? s)%Z; [discriminate|].
  destruct (Z.leb_spec 50 s); [lia | discriminate].
Qed.

(** Along a ranked list the classes come in blocks. *)
Lemma sorted_classes l :
  StronglySorted score_ge l ->
  exists h m lo,
    row_classes l
    = repeat "score-high" h ++ repeat "score-medium" m ++ repeat "score-low" lo.
Proof.
  induction l as [|x l IH]; intros Hs.
  - exists 0, 0, 0. reflexivity.
  - apply StronglySorted_inv in Hs as [Hs Hx].
    destruct (IH Hs) as (h & m & lo & E).
    assert (Hhead : forall y l', l = y :: l' -> (r_match_score y <= r_match_score x)%Z).
    { intros y l' ->. inversion Hx; subst. assumption. }
    unfold row_classes in *. cbn [List.map]. rewrite E.
    unfold scoreClass at 1.
    destruct (Z.leb_spec 75 (r_match_score x)) as [H75|H75].
    + exists (S h), m, lo. reflexivity.
    + assert (h = 0) as ->.
      { destruct h as [|h]; [reflexivity|exfalso].
        destruct l as [|y l']; [discriminate E|].
        cbn in E. injection E as Ey _. apply scoreClass_high in Ey.
        specialize (Hhead y l' eq_refl). lia. }
      cbn [repeat app] in *.
      destruct (Z.leb_spec 50 (r_match_score x)) as [H50|H50].
      * exists 0, (S m), lo. reflexivity.
      * assert (m = 0) as ->.
        { destruct m as [|m]; [reflexivity|exfalso].
          destruct l as [|y l']; [discriminate E|].
          cbn in E. injection E as Ey _. apply scoreClass_medium in Ey.
          specialize (Hhead y l' eq_refl). lia. }
        exists 0, 0, (S lo). reflexivity.
Qed.

Section WithWorld.
Variable w : world.

(** X22. The page appends one row per entry of a ranked result list, in
    the order of the list, and colours the score by class; the rows of a
    batch therefore come in blocks: first those of class high (75 and
    above), then those of class medium (50 and above), then those of
    class low. *)
Theorem table_rows_come_in_blocks req st code total rr st' :
  batch_match w req st = (Ok (Http code (BatchBody total rr)), st') ->
  exists h m lo,
    row_classes rr
    = repeat "score-high" h ++ repeat "score-medium" m ++ repeat "score-low" lo.
Proof.
  intros H. apply batch_match_results in H as (jdText & st0 & results & Hrs & ->).
  apply sorted_classes, sort_keeps_order.
Qed.

End WithWorld.
End FrontendFacts.

(** ** The requests *)

Module RequestFacts.
Import Text Js Server Shape.

Section WithWorld.
Variable w : world.

(** X23. The API key travels in a header and nowhere else: the address
    and the body of the two requests that the server sends do not depend
    on the key, both requests go to the one endpoint with the same
    headers, and the key is in the [x-api-key] header for Anthropic and
    in the [Authorization] header, as a bearer token, for every other
    provider. *)
Theorem api_key_only_in_headers key text resumeText jdText :
  url (name_request (with_key w key) text) = endpoint w /\
  url (score_request (with_key w key) resumeText jdText) = endpoint w /\
  body (name_request (with_key w key) text) = body (name_request w text) /\
  body (score_request (with_key w key) resumeText jdText)
  = body (score_request w resumeText jdText) /\
  headers (name_request (with_key w key) text)
  = headers (score_request (with_key w key) resumeText jdText) /\
  headers (name_request (with_key w key) text)
  = ("Content-Type", "application/json")
      :: (if is_anthropic w
          then [("x-api-key", key); ("anthropic-version", "2023-06-01")]
          else [("Authorization", "Bearer " +:+ key)]).
Proof.
  unfold name_request, score_request, endpoint, anthropic_headers,
    bearer_headers, base_headers.
  change (is_anthropic (with_key w key)) with (is_anthropic w).
  destruct (is_anthropic w); repeat split.
Qed.

End WithWorld.
End RequestFacts.

(** ** The further properties at sample inputs *)

Module MoreWitnesses.
Import Text Regex Js Patterns Server Single Frontend Spec Shape Examples Samples.
Import ScoreMore NameMore EntityMore BatchMore SingleFacts JsonFacts FrontendFacts.

Lemma score_text_read_to_first_symbol_witness :
  clamp_score (JStr "85%") = 85%Z /\
  clamp_score (JStr "120 of 100") = 100%Z /\
  clamp_score (JStr "0 of 100") = 50%Z.
Proof.
  split; [|split].
  - apply (score_text_read_to_first_symbol 85 ["%"%char]). reflexivity.
  - apply (score_text_read_to_first_symbol 120 (chars " of 100")). reflexivity.
  - apply (score_text_read_to_first_symbol 0 (chars " of 100")). reflexivity.
Defined.

Lemma score_comes_from_ok_reply_witness :
  scoreResumeWithLLM world_85 "resume" "jd" fresh = (Ok reply_85, snd scored_85) /\
  exists text data content m,
    provider_reply world_85 (fetch_count fresh) (score_request world_85 "resume" "jd")
    = Response true text /\
    Json.parse text = Ok data /\
    (forall s, completion_text world_85 data s = (Ok (JStr content), s)) /\
    exec jsonObjectRegex content = Some m /\
    Json.parse (m_text m) = Ok (reply reply_85).
Proof.
  split; [vm_compute; reflexivity|].
  apply (score_comes_from_ok_reply world_85 "resume" "jd" fresh reply_85
           (snd scored_85)).
  vm_compute. reflexivity.
Defined.

Lemma name_depends_on_first_800_witness :
  String.length long_ann = 808 /\
  slice0 800 long_ann = slice0 800 long_bob /\
  extractNameWithLLM ranking_world long_ann "x.pdf" fresh
  = extractNameWithLLM ranking_world long_bob "x.pdf" fresh.
Proof.
  split; [vm_compute; reflexivity|]. split; [vm_compute; reflexivity|].
  apply (name_depends_on_first_800 ranking_world long_ann long_bob "x.pdf" fresh).
  vm_compute. reflexivity.
Defined.

Lemma placeholder_is_never_cached_witness :
  fst (extractNameWithLLM unknown_world (buffer cyd) "cyd.pdf" fresh)
  <> Ok (JStr "Unknown") /\
  forall k,
    cache_get
      (nameCache (snd (extractNameWithLLM unknown_world (buffer cyd) "cyd.pdf" fresh)))
      k
    <> JStr "Unknown".
Proof.
  apply (placeholder_is_never_cached unknown_world (buffer cyd) "cyd.pdf" fresh).
  intros k. unfold cache_get, fresh. cbn [nameCache]. rewrite lookup_empty.
  unfold inherited. destruct (existsb (String.eqb k) object_prototype_keys);
    discriminate.
Defined.

Lemma fallback_name_shape_witness :
  extractNameRegex john_cv = Some "John Smith" /\
  0 < String.length "John Smith" < 60 /\
  List.Forall (fun c => name_char c = true) (chars "John Smith") /\
  exists c tl, chars "John Smith" = c :: tl /\ is_upper c = true.
Proof.
  split; [vm_compute; reflexivity|].
  apply (fallback_name_shape john_cv "John Smith"). vm_compute. reflexivity.
Defined.

Lemma fallback_name_avoids_blacklist_witness :
  extractNameRegex john_cv = Some "John Smith" /\
  includes (toLowerCase "John Smith") "curriculum" = false.
Proof.
  split; [vm_compute; reflexivity|].
  apply (fallback_name_avoids_blacklist john_cv "John Smith" "curriculum").
  - vm_compute. reflexivity.
  - unfold blacklist. repeat (try (left; reflexivity); right).
Defined.

Lemma main_phone_is_digits_and_plus_witness :
  exec phoneRegex john_cv = Some john_phone_match /\
  m_text john_phone_match = "+91 9876543210" /\
  extractPhones john_cv = "+919876543210" /\
  extractPhones john_cv <> dash /\
  List.Forall (fun c => dial_char c = true) (chars (extractPhones john_cv)).
Proof.
  split; [vm_compute; reflexivity|]. split; [reflexivity|].
  split; [vm_compute; reflexivity|].
  apply (main_phone_is_digits_and_plus john_cv john_phone_match).
  vm_compute. reflexivity.
Defined.

Lemma profile_link_shape_witness :
  e_linkedin john_entities = "https://www.LinkedIn.com/in/john-smith" /\
  (e_linkedin john_entities = dash \/
   (startsWith (e_linkedin john_entities) "http" = true /\
    includes (toLowerCase (e_linkedin john_entities)) "linkedin.com/in/" = true)).
Proof.
  split; [reflexivity|].
  apply (profile_link_shape no_provider john_cv "john.pdf" fresh john_entities
           (snd john_outcome)).
  vm_compute. reflexivity.
Defined.

Lemma email_shape_witness :
  e_email john_entities = "john.smith@example.org" /\
  (e_email john_entities = dash \/
   (List.Forall (fun c => mail_char c = true) (chars (e_email john_entities)) /\
    existsb (is_char "@") (chars (e_email john_entities)) = true)).
Proof.
  split; [reflexivity|].
  apply (email_shape no_provider john_cv "john.pdf" fresh john_entities
           (snd john_outcome)).
  vm_compute. reflexivity.
Defined.

Lemma unreadable_jd_stops_the_batch_witness :
  batch_match ranking_world (batch [ann; bob] corrupt_job) fresh
  = (Ok (Http 500 (ErrorBody "Invalid PDF structure")),
     State (nameCache fresh) (log fresh ++ [EvPdfParse "%corrupt%"])).
Proof.
  apply (unreadable_jd_stops_the_batch ranking_world (batch [ann; bob] corrupt_job)
           fresh corrupt_job (Exn Error "Invalid PDF structure")).
  - discriminate.
  - reflexivity.
  - reflexivity.
Defined.

Lemma batch_call_budget_witness :
  fetch_count (snd ranking_outcome) = 8 /\
  pdf_count (snd ranking_outcome)
  = pdf_count fresh + S (length (resume_files four_resumes)) /\
  fetch_count fresh <= fetch_count (snd ranking_outcome)
                    <= fetch_count fresh + 2 * length (resume_files four_resumes).
Proof.
  split; [reflexivity|].
  apply (batch_call_budget ranking_world four_resumes fresh 4 ranked_example
           (snd ranking_outcome)).
  vm_compute. reflexivity.
Defined.

Lemma batch_scores_in_range_witness :
  List.map r_match_score ranked_example = [85; 70; 70; 0]%Z /\
  List.Forall (fun r => (0 <= r_match_score r <= 100)%Z) ranked_example.
Proof.
  split; [reflexivity|].
  apply (batch_scores_in_range ranking_world four_resumes fresh 200 4
           ranked_example (snd ranking_outcome)).
  vm_compute. reflexivity.
Defined.

Lemma single_match_agrees_with_batch_witness :
  m_candidate_name ann_matched = JStr "Ann Lee" /\
  m_match_score ann_matched = 70%Z /\
  exists skills experience st2,
    batch_match ranking_world (batch [ann] job) fresh
    = (Ok (Http 200 (BatchBody 1
         [Ranked (originalname ann) (m_candidate_name ann_matched)
                 (m_email ann_matched) (m_phone ann_matched)
                 (m_linkedin ann_matched) (m_match_score ann_matched)
                 skills experience
                 (m_seniority_fit ann_matched) (m_summary ann_matched)])), st2) /\
    same_view (snd ann_outcome) st2.
Proof.
  split; [reflexivity|]. split; [reflexivity|].
  apply (single_match_agrees_with_batch ranking_world ann_match (batch [ann] job)
           ann job fresh ann_matched (snd ann_outcome));
    [reflexivity | reflexivity | reflexivity | reflexivity
    | vm_compute; reflexivity].
Defined.

Lemma single_match_failure_is_batch_entry_witness :
  fst ann_failed = Ok (MatchHttp 500 (MatchError "fetch failed")) /\
  500 = 500 /\
  exists e st2,
    message e = "fetch failed" /\
    batch_match name_only_world (batch [ann] job) fresh
    = (Ok (Http 200 (BatchBody 1 [failure_result ann e])), st2).
Proof.
  split; [reflexivity|].
  apply (single_match_failure_is_batch_entry name_only_world ann_match
           (batch [ann] job) ann job (buffer job) fresh 500 "fetch failed"
           (snd ann_failed));
    [reflexivity | reflexivity | reflexivity | reflexivity | reflexivity
    | vm_compute; reflexivity].
Defined.

Lemma extractJSON_gives_object_witness :
  (exists s, JStr "Score: {} (final)" = JStr s) /\
  exists m, JObj [] = JObj m.
Proof.
  apply (extractJSON_gives_object (JStr "Score: {} (final)") (JObj [])).
  vm_compute. reflexivity.
Defined.

Lemma table_rows_come_in_blocks_witness :
  row_classes ranked_example
  = ["score-high"; "score-medium"; "score-medium"; "score-low"] /\
  exists h m lo,
    row_classes ranked_example
    = repeat "score-high" h ++ repeat "score-medium" m ++ repeat "score-low" lo.
Proof.
  split; [reflexivity|].
  apply (table_rows_come_in_blocks ranking_world four_resumes fresh 200 4
           ranked_example (snd ranking_outcome)).
  vm_compute. reflexivity.
Defined.

End MoreWitnesses.
